(** * Log analyzer: parsing, detection, issue reconciliation, tailing

    A shallow embedding of [scripts/log_analyzer.py].

    Conventions of the embedding.
    - A Python [str] is a list of characters ([str]); characters are
      ASCII codes.  The classes [\d], [\w], [\s] of [re] and the
      white space of [str.strip] are the ASCII members of the Python
      classes; codes from 128 on belong to none of them.
    - A Python [int] is a [Z]; [len] is a [nat].
    - A Python [float] is an IEEE 754 binary64 number ([PrimFloat.float]).
    - [None] is [None]; a dictionary with a fixed set of keys is a record.
    - The table [issues] is the list of its rows, in table order.
    - An exception is a value: a call that can raise returns a
      [Result].  [int] raises [ValueError] on a run of more than 4300
      digits, the limit of the interpreter for the conversion of
      strings.
    - The statements that [insert_issues] sends to the database
      succeed; whether the bulk insert of [insert_log_entries] does is
      a parameter of the world. *)

From Stdlib Require Import List Ascii String ZArith Lia Bool Arith.
From Stdlib Require Import DecimalString.
From Stdlib Require DecimalFacts DecimalPos.
From Stdlib Require Import PrimFloat Uint63 FloatOps SpecFloat FloatAxioms.
Import ListNotations.

(** [length] is the length of a list throughout. *)
Abbreviation length := Datatypes.length (only parsing).

(** ** Text *)

Module Text.

Definition str := list ascii.

(** A string literal of the source. *)
Definition lit (s : string) : str := list_ascii_of_string s.

Definition code (c : ascii) : nat := nat_of_ascii c.

Definition is_digit (c : ascii) : bool :=
  (48 <=? code c) && (code c <=? 57).

Definition is_upper (c : ascii) : bool :=
  (65 <=? code c) && (code c <=? 90).

Definition is_lower (c : ascii) : bool :=
  (97 <=? code c) && (code c <=? 122).

(** [\w]: letters, digits and the underscore. *)
Definition is_word (c : ascii) : bool :=
  is_digit c || is_upper c || is_lower c || (code c =? 95).

(** [\s], and the characters [str.strip] removes: tab, line feed,
    vertical tab, form feed, carriage return, the four separators
    0x1c-0x1f and the space. *)
Definition is_space (c : ascii) : bool :=
  ((9 <=? code c) && (code c <=? 13))
  || ((28 <=? code c) && (code c <=? 31))
  || (code c =? 32).

Definition is_char (a c : ascii) : bool := Ascii.eqb a c.

Definition newline : ascii := ascii_of_nat 10.
Definition carriage_return : ascii := ascii_of_nat 13.

(** [.] of [re] without DOTALL: anything but a line feed. *)
Definition is_dot (c : ascii) : bool := negb (is_char newline c).

Fixpoint str_eqb (a b : str) : bool :=
  match a, b with
  | [], [] => true
  | x :: a', y :: b' => Ascii.eqb x y && str_eqb a' b'
  | _, _ => false
  end.

(** The longest prefix whose characters satisfy [p], and what follows. *)
Fixpoint span (p : ascii -> bool) (s : str) : str * str :=
  match s with
  | [] => ([], [])
  | c :: s' =>
      if p c then let (a, b) := span p s' in (c :: a, b)
      else ([], s)
  end.

Fixpoint drop_while (p : ascii -> bool) (s : str) : str :=
  match s with
  | [] => []
  | c :: s' => if p c then drop_while p s' else s
  end.

(** [s.strip()] *)
Definition lstrip (s : str) : str := drop_while is_space s.
Definition rstrip (s : str) : str := rev (drop_while is_space (rev s)).
Definition strip (s : str) : str := rstrip (lstrip s).

(** [s.lower()] *)
Definition lower_char (c : ascii) : ascii :=
  if is_upper c then ascii_of_nat (code c + 32) else c.
Definition lower (s : str) : str := map lower_char s.

(** [s.startswith(p)]: the rest of [s] after [p]. *)
Fixpoint strip_prefix (p s : str) : option str :=
  match p, s with
  | [], _ => Some s
  | a :: p', c :: s' => if Ascii.eqb a c then strip_prefix p' s' else None
  | _ :: _, [] => None
  end.

Definition startswith (p s : str) : bool :=
  match strip_prefix p s with Some _ => true | None => false end.

Definition endswith (p s : str) : bool := startswith (rev p) (rev s).

(** [needle in s] *)
Fixpoint contains (needle s : str) : bool :=
  startswith needle s ||
  match s with
  | [] => false
  | _ :: s' => contains needle s'
  end.

(** The number that a run of decimal digits denotes. *)
Definition digit_value (c : ascii) : Z := Z.of_nat (code c - 48).

Definition int_of_digits (s : str) : Z :=
  fold_left (fun acc c => 10 * acc + digit_value c)%Z s 0%Z.

(** [str(n)] for an integer. *)
Definition str_of_Z (n : Z) : str :=
  lit (NilZero.string_of_int (Z.to_int n)).

Definition str_of_nat (n : nat) : str := str_of_Z (Z.of_nat n).

(** Order of strings: lexicographic on the character codes. *)
Fixpoint str_ltb (a b : str) : bool :=
  match a, b with
  | _, [] => false
  | [], _ :: _ => true
  | x :: a', y :: b' =>
      if code x <? code y then true
      else if code y <? code x then false
      else str_ltb a' b'
  end.

End Text.

Import Text.

(** ** Exceptions *)

Module Exceptions.

(** What a call can raise. *)
Inductive Error :=
| KeyError (key : str)
| IndexError
| ValueError.

Inductive Result (A : Type) :=
| Ok (a : A)
| Raise (e : Error).

Arguments Ok {A} a.
Arguments Raise {A} e.

Definition bind {A B : Type} (r : Result A) (k : A -> Result B) : Result B :=
  match r with
  | Ok a => k a
  | Raise e => Raise e
  end.

Notation "x <- r ;; k" := (bind r (fun x => k))
  (at level 61, r at next level, right associativity).

End Exceptions.

Import Exceptions.

(** ** Records *)

(** The dictionary [data] that [parse_log_line] returns. *)
Module Entry.
Record t := make {
  timestamp : str;
  level : str;
  component : str;
  message : str;
  response_time : option Z;
  user_id : option Z;
  error_code : option str
}.
End Entry.

(** A dictionary of [issues_to_insert]. *)
Module Issue.
Record t := make {
  issue_type : str;
  severity : str;
  description : str;
  component : str;
  occurrence_count : Z
}.
End Issue.

(** Modelled from the spec: a row of the table [issues].  The schema is
    not part of the sources; the spec lists the columns [id],
    [issue_type], [severity], [description], [component], [first_seen],
    [last_seen], [occurrence_count] and [resolved] (a boolean that
    defaults to false).  Times are instants on an integer clock. *)
Module Row.
Record t := make {
  id : Z;
  issue_type : str;
  severity : str;
  description : str;
  component : str;
  first_seen : Z;
  last_seen : Z;
  occurrence_count : Z;
  resolved : bool
}.
End Row.

(** ** Log parsing *)

Module Parser.

(** A pattern of fixed width: one character class per position.
    The result is the matched text and what follows it. *)
Fixpoint match_fixed (shape : list (ascii -> bool)) (s : str)
  : option (str * str) :=
  match shape with
  | [] => Some ([], s)
  | p :: shape' =>
      match s with
      | [] => None
      | c :: s' =>
          if p c then
            match match_fixed shape' s' with
            | Some (m, r) => Some (c :: m, r)
            | None => None
            end
          else None
      end
  end.

(** [\d{4}-\d{2}-\d{2} \d{2}:\d{2}:\d{2}] *)
Definition timestamp_shape : list (ascii -> bool) :=
  [ is_digit; is_digit; is_digit; is_digit; is_char "-";
    is_digit; is_digit; is_char "-"; is_digit; is_digit; is_char " ";
    is_digit; is_digit; is_char ":"; is_digit; is_digit; is_char ":";
    is_digit; is_digit ]%char.

(** [[^\]]] *)
Definition not_close (c : ascii) : bool := negb (is_char "]"%char c).

(** [LOG_PATTERN.match(s)]: the four named groups.

    Every greedy repetition of the pattern is followed by something its
    class excludes ([\s+] by [\w] or a bracket, [\w+] by [\s],
    [[^\]]+] by the closing bracket) or by [.*], which always matches;
    so the first attempt of the backtracking matcher, the longest run,
    is the only one that can succeed.  The character that ends the run
    of [[^\]]] is the closing bracket. *)
Definition LOG_PATTERN_match (s : str) : option (str * str * str * str) :=
  match match_fixed timestamp_shape s with
  | None => None
  | Some (ts, r1) =>
    match span is_space r1 with
    | ([], _) => None
    | (_, r2) =>
      match span is_word r2 with
      | ([], _) => None
      | (lvl, r3) =>
        match span is_space r3 with
        | (_ :: _, open :: r4) =>
          if is_char "["%char open then
            match span not_close r4 with
            | ([], _) => None
            | (_, []) => None
            | (comp, _ :: r5) =>
              match span is_space r5 with
              | ([], _) => None
              | (_, r6) => Some (ts, lvl, comp, fst (span is_dot r6))
              end
            end
          else None
        | _ => None
        end
      end
    end
  end.

(** [pattern.search(s)]: the match at the leftmost position that has one.
    [at_start] is the pattern tried at the start of its argument. *)
Fixpoint search {A : Type} (at_start : str -> option A) (s : str) : option A :=
  match at_start s with
  | Some r => Some r
  | None =>
      match s with
      | [] => None
      | _ :: s' => search at_start s'
      end
  end.

(** [(\d+)ms] at the start of [s]: group 1. *)
Definition TIME_PATTERN_at (s : str) : option str :=
  match span is_digit s with
  | ([], _) => None
  | (ds, r) => if startswith (lit "ms") r then Some ds else None
  end.

(** [user_id[=:](\d+)] at the start of [s]: group 1. *)
Definition USER_ID_PATTERN_at (s : str) : option str :=
  match strip_prefix (lit "user_id") s with
  | Some (c :: r) =>
      if is_char "="%char c || is_char ":"%char c then
        match span is_digit r with
        | ([], _) => None
        | (ds, _) => Some ds
        end
      else None
  | _ => None
  end.

(** [(404|500|503|\d{3})] at the start of [s]: group 1. *)
Definition ERROR_CODE_PATTERN_at (s : str) : option str :=
  if startswith (lit "404") s then Some (lit "404")
  else if startswith (lit "500") s then Some (lit "500")
  else if startswith (lit "503") s then Some (lit "503")
  else
    match s with
    | a :: b :: c :: _ =>
        if is_digit a && is_digit b && is_digit c then Some [a; b; c]
        else None
    | _ => None
    end.

(** [sys.get_int_max_str_digits()], which the program leaves at its
    default. *)
Definition int_max_str_digits : nat := 4300.

(** [int(s)] on a run of decimal digits: a run longer than the limit
    raises [ValueError]. *)
Definition py_int (s : str) : Result Z :=
  if length s <=? int_max_str_digits then Ok (int_of_digits s)
  else Raise ValueError.

(** [int(m.group(1)) if m else None] *)
Definition int_of_group (m : option str) : Result (option Z) :=
  match m with
  | Some g => n <- py_int g ;; Ok (Some n)
  | None => Ok None
  end.

(** [parse_log_line]: the record, [None], or the [ValueError] of one
    of its two calls of [int], which it does not handle. *)
Definition parse_log_line (line : str) : Result (option Entry.t) :=
  match LOG_PATTERN_match (strip line) with
  | None => Ok None
  | Some (ts, lvl, comp, msg) =>
      response_time <- int_of_group (search TIME_PATTERN_at msg) ;;
      user_id <- int_of_group (search USER_ID_PATTERN_at msg) ;;
      Ok (Some {| Entry.timestamp := ts;
                  Entry.level := lvl;
                  Entry.component := comp;
                  Entry.message := msg;
                  Entry.response_time := response_time;
                  Entry.user_id := user_id;
                  Entry.error_code := search ERROR_CODE_PATTERN_at msg |})
  end.

End Parser.

Import Parser.

(** ** Numbers as Python formats them *)

Module Num.

(** [float(n)] for a count.  Exact below 2^53, which is where Python's
    [a / b] on integers is the IEEE quotient of the two conversions. *)
Definition float_of_Z (n : Z) : float := of_uint63 (Uint63.of_Z n).
Definition float_of_nat (n : nat) : float := float_of_Z (Z.of_nat n).

(** [a / b] on two integers. *)
Definition true_div (a b : Z) : float :=
  PrimFloat.div (float_of_Z a) (float_of_Z b).

(** The integer nearest to [num / den], ties to the even one. *)
Definition round_half_even (num den : Z) : Z :=
  let q := (num / den)%Z in
  let r := (num mod den)%Z in
  if (2 * r <? den)%Z then q
  else if (den <? 2 * r)%Z then (q + 1)%Z
  else if Z.even q then q else (q + 1)%Z.

Definition zero_char : ascii := "0"%char.

Definition pad_zeros (width : nat) (s : str) : str :=
  repeat zero_char (width - length s) ++ s.

Definition fixed_digits (d : nat) (n : Z) : str :=
  let scale := (10 ^ Z.of_nat d)%Z in
  str_of_Z (n / scale) ++
  (if (d =? 0)%nat then []
   else "."%char :: pad_zeros d (str_of_Z (n mod scale))).

(** [format(x, ".<d>f")]: the exact value of the double, rounded to [d]
    decimals, ties to even. *)
Definition format_f (d : nat) (x : float) : str :=
  let sign (s : bool) : str := if s then ["-"%char] else [] in
  match Prim2SF x with
  | S754_nan => lit "nan"
  | S754_infinity s => sign s ++ lit "inf"
  | S754_zero s => sign s ++ fixed_digits d 0
  | S754_finite s m e =>
      let scale := (10 ^ Z.of_nat d)%Z in
      let n :=
        if (0 <=? e)%Z then (Zpos m * 2 ^ e * scale)%Z
        else round_half_even (Zpos m * scale) (2 ^ (- e)) in
      sign s ++ fixed_digits d n
  end.

End Num.

Import Num.

(** ** Issue detection *)

Module Detector.

(** [entry["level"] == "ERROR"] *)
Definition is_error (e : Entry.t) : bool :=
  str_eqb (Entry.level e) (lit "ERROR").

(** [entry["response_time"] and entry["response_time"] > 3000] *)
Definition is_slow (e : Entry.t) : bool :=
  match Entry.response_time e with
  | None => false
  | Some t => negb (t =? 0)%Z && (3000 <? t)%Z
  end.

(** [by_component]: a dictionary keeps its keys in insertion order. *)
Definition Groups := list (str * list Entry.t).

Fixpoint add_entry (c : str) (e : Entry.t) (m : Groups) : Groups :=
  match m with
  | [] => [(c, [e])]
  | (k, es) :: m' =>
      if str_eqb k c then (k, es ++ [e]) :: m'
      else (k, es) :: add_entry c e m'
  end.

(** The state of the first loop of [detect_issues]. *)
Record Collected := mkCollected {
  by_component : Groups;
  errors : list Entry.t;
  slow_responses : list Entry.t
}.

Definition collect_step (acc : Collected) (entry : Entry.t) : Collected :=
  {| by_component := add_entry (Entry.component entry) entry (by_component acc);
     errors :=
       if is_error entry then errors acc ++ [entry] else errors acc;
     slow_responses :=
       if is_slow entry then slow_responses acc ++ [entry]
       else slow_responses acc |}.

Definition collect (entries : list Entry.t) : Collected :=
  fold_left collect_step entries
    {| by_component := []; errors := []; slow_responses := [] |}.

Definition HIGH_ERROR_RATE : str := lit "High Error Rate".
Definition DATABASE_TIMEOUT : str := lit "Database Timeout".
Definition SLOW_RESPONSE_TIME : str := lit "Slow Response Time".
Definition AUTHENTICATION_FAILURES : str := lit "Authentication Failures".

Definition HIGH : str := lit "HIGH".
Definition MEDIUM : str := lit "MEDIUM".
Definition CRITICAL : str := lit "CRITICAL".

(** [(error_count / total_count * 100) if total_count > 0 else 0] *)
Definition error_rate (error_count total_count : nat) : float :=
  if (0 <? total_count)%nat then
    PrimFloat.mul (true_div (Z.of_nat error_count) (Z.of_nat total_count)) 100
  else 0%float.

(** ISSUE 1, the body of the loop over [by_component.items()]. *)
Definition high_error_rate_of (group : str * list Entry.t) : list Issue.t :=
  let (component, comp_entries) := group in
  let error_count := length (filter is_error comp_entries) in
  let total_count := length comp_entries in
  let rate := error_rate error_count total_count in
  if PrimFloat.ltb 10 rate then
    [ {| Issue.issue_type := HIGH_ERROR_RATE;
         Issue.severity := if PrimFloat.ltb 20 rate then HIGH else MEDIUM;
         Issue.description :=
           component ++ lit " has " ++ format_f 1 rate
           ++ lit "% error rate (" ++ str_of_nat error_count ++ lit "/"
           ++ str_of_nat total_count ++ lit " entries)";
         Issue.component := component;
         Issue.occurrence_count := Z.of_nat error_count |} ]
  else [].

Definition high_error_rate (groups : Groups) : list Issue.t :=
  flat_map high_error_rate_of groups.

(** ISSUE 2 *)
Definition is_db_timeout (e : Entry.t) : bool :=
  str_eqb (Entry.component e) (lit "Database")
  && contains (lit "timeout") (lower (Entry.message e)).

Definition database_timeout (errors : list Entry.t) : list Issue.t :=
  let db_timeouts := filter is_db_timeout errors in
  if (0 <? length db_timeouts)%nat then
    [ {| Issue.issue_type := DATABASE_TIMEOUT;
         Issue.severity :=
           if (5 <? length db_timeouts)%nat then CRITICAL else HIGH;
         Issue.description :=
           lit "Database timeouts detected: "
           ++ str_of_nat (length db_timeouts) ++ lit " occurrences";
         Issue.component := lit "Database";
         Issue.occurrence_count := Z.of_nat (length db_timeouts) |} ]
  else [].

(** [sum(e["response_time"] for e in slow_responses)] *)
Definition sum_response_time (es : list Entry.t) : Z :=
  fold_left
    (fun acc e =>
       match Entry.response_time e with
       | Some t => (acc + t)%Z
       | None => acc
       end) es 0%Z.

(** ISSUE 3 *)
Definition slow_response_time (slow_responses : list Entry.t) : list Issue.t :=
  if (0 <? length slow_responses)%nat then
    let avg_time :=
      true_div (sum_response_time slow_responses)
               (Z.of_nat (length slow_responses)) in
    [ {| Issue.issue_type := SLOW_RESPONSE_TIME;
         Issue.severity := MEDIUM;
         Issue.description :=
           lit "Slow responses detected: "
           ++ str_of_nat (length slow_responses)
           ++ lit " requests averaging " ++ format_f 0 avg_time ++ lit "ms";
         Issue.component := lit "API";
         Issue.occurrence_count := Z.of_nat (length slow_responses) |} ]
  else [].

(** ISSUE 4 *)
Definition is_auth_failure (e : Entry.t) : bool :=
  str_eqb (Entry.component e) (lit "Auth")
  && (contains (lit "failed") (lower (Entry.message e))
      || contains (lit "invalid") (lower (Entry.message e))).

Definition authentication_failures (errors : list Entry.t) : list Issue.t :=
  let auth_failures := filter is_auth_failure errors in
  if (5 <? length auth_failures)%nat then
    [ {| Issue.issue_type := AUTHENTICATION_FAILURES;
         Issue.severity := HIGH;
         Issue.description :=
           lit "Multiple failed authentication attempts: "
           ++ str_of_nat (length auth_failures) ++ lit " occurrences";
         Issue.component := lit "Auth";
         Issue.occurrence_count := Z.of_nat (length auth_failures) |} ]
  else [].

(** The list [issues_to_insert] when [detect_issues] reaches its last
    statement. *)
Definition issues_to_insert (entries : list Entry.t) : list Issue.t :=
  let c := collect entries in
  high_error_rate (by_component c)
  ++ database_timeout (errors c)
  ++ slow_response_time (slow_responses c)
  ++ authentication_failures (errors c).

End Detector.

Import Detector.

(** ** The issue store *)

Module Store.

(** Modelled from the spec: the table [issues] with the sequence that
    numbers its rows; [INSERT ... RETURNING id] takes the next number. *)
Record Table := mkTable {
  rows : list Row.t;
  next_id : Z
}.

(** [WHERE issue_type = %s AND component = %s AND resolved = FALSE] *)
Definition is_open_for (issue_type component : str) (r : Row.t) : bool :=
  str_eqb (Row.issue_type r) issue_type
  && str_eqb (Row.component r) component
  && negb (Row.resolved r).

(** [ORDER BY last_seen DESC LIMIT 1]; among rows of equal [last_seen]
    the first in table order is taken. *)
Fixpoint latest (rs : list Row.t) : option Row.t :=
  match rs with
  | [] => None
  | r :: rs' =>
      match latest rs' with
      | None => Some r
      | Some r' =>
          if (Row.last_seen r <? Row.last_seen r')%Z then Some r' else Some r
      end
  end.

Definition select_existing (issue : Issue.t) (t : Table) : option Row.t :=
  latest (filter (is_open_for (Issue.issue_type issue) (Issue.component issue))
                 (rows t)).

(** [UPDATE issues SET last_seen = NOW(), occurrence_count = %s,
    severity = %s, description = %s WHERE id = %s] *)
Definition update_row (now : Z) (issue_id new_count : Z) (issue : Issue.t)
    (r : Row.t) : Row.t :=
  if (Row.id r =? issue_id)%Z then
    {| Row.id := Row.id r;
       Row.issue_type := Row.issue_type r;
       Row.severity := Issue.severity issue;
       Row.description := Issue.description issue;
       Row.component := Row.component r;
       Row.first_seen := Row.first_seen r;
       Row.last_seen := now;
       Row.occurrence_count := new_count;
       Row.resolved := Row.resolved r |}
  else r.

(** [INSERT INTO issues (...) VALUES (%s, %s, %s, %s, NOW(), NOW(), %s)] *)
Definition new_row (now : Z) (issue_id : Z) (issue : Issue.t) : Row.t :=
  {| Row.id := issue_id;
     Row.issue_type := Issue.issue_type issue;
     Row.severity := Issue.severity issue;
     Row.description := Issue.description issue;
     Row.component := Issue.component issue;
     Row.first_seen := now;
     Row.last_seen := now;
     Row.occurrence_count := Issue.occurrence_count issue;
     Row.resolved := false |}.

(** The body of the loop of [insert_issues] for one issue.  [now] is
    [NOW()], the start of the transaction that the call runs in. *)
Definition reconcile (now : Z) (t : Table) (issue : Issue.t) : Table :=
  match select_existing issue t with
  | Some existing =>
      let issue_id := Row.id existing in
      let old_count := Row.occurrence_count existing in
      let new_count := (old_count + Issue.occurrence_count issue)%Z in
      {| rows := map (update_row now issue_id new_count issue) (rows t);
         next_id := next_id t |}
  | None =>
      {| rows := rows t ++ [new_row now (next_id t) issue];
         next_id := (next_id t + 1)%Z |}
  end.

Definition insert_issues (now : Z) (issues : list Issue.t) (t : Table)
  : Table :=
  match issues with
  | [] => t
  | _ => fold_left (reconcile now) issues t
  end.

Definition detect_issues (now : Z) (entries : list Entry.t) (t : Table)
  : Table :=
  insert_issues now (issues_to_insert entries) t.

End Store.

Import Store.

(** ** Reading the end of a file *)

Module Tail.

(** The files of the machine: the content at each path that exists. *)
Definition FileSystem := str -> option str.

(** Text mode translates [\r\n] and a lone [\r] to [\n]. *)
Fixpoint translate_newlines (s : str) : str :=
  match s with
  | [] => []
  | c :: s' =>
      if is_char carriage_return c then
        match s' with
        | n :: s'' =>
            if is_char newline n then newline :: translate_newlines s''
            else newline :: translate_newlines s'
        | [] => [newline]
        end
      else c :: translate_newlines s'
  end.

(** Lines keep their line feed; [cur] is the line being read. *)
Fixpoint split_lines (cur : str) (s : str) : list str :=
  match s with
  | [] => match cur with [] => [] | _ => [cur] end
  | c :: s' =>
      if is_char newline c then (cur ++ [c]) :: split_lines [] s'
      else split_lines (cur ++ [c]) s'
  end.

(** [f.readlines()] on what is left of the file. *)
Definition readlines (s : str) : list str :=
  split_lines [] (translate_newlines s).

(** [f.seek(last_position); f.readlines(); f.tell()] on an existing
    file, and the handler of [FileNotFoundError]. *)
Definition tail_file (fs : FileSystem) (filepath : str) (last_position : nat)
  : list str * nat :=
  match fs filepath with
  | Some content =>
      (readlines (skipn last_position content),
       Nat.max last_position (length content))
  | None => ([], last_position)
  end.

(** Appending [data] to the file at [path] (creating it if missing). *)
Definition append_file (fs : FileSystem) (path data : str) : FileSystem :=
  fun q =>
    if str_eqb q path then
      match fs path with
      | Some content => Some (content ++ data)
      | None => Some data
      end
    else fs q.

End Tail.

Import Tail.

(** ** The main loop *)

Module Loop.

(** [CONFIG["logging"]]; the configuration file is not part of the
    sources, its two entries are parameters. *)
Record Config := mkConfig {
  log_directory : str;
  log_file_prefix : str
}.

(** What one cycle of the loop sees of the machine: the names in the
    log directory ([None] when the directory does not exist), the
    files, the clock, and the rows that the database accepts in a bulk
    insert into [log_entries] (its schema is not part of the sources;
    [execute_values] raises on the others). *)
Record World := mkWorld {
  listing : option (list str);
  files : FileSystem;
  now : Z;
  accepts : list Entry.t -> bool
}.

(** [os.path.join(a, b)] for POSIX paths. *)
Definition path_join (a b : str) : str :=
  if startswith (lit "/") b then b
  else
    match a with
    | [] => b
    | _ => if endswith (lit "/") a then a ++ b else a ++ lit "/" ++ b
    end.

(** [log_files.sort(reverse=True)] *)
Fixpoint insert_desc (x : str) (l : list str) : list str :=
  match l with
  | [] => [x]
  | y :: l' => if str_ltb x y then y :: insert_desc x l' else x :: l
  end.

Definition sort_desc (l : list str) : list str := fold_right insert_desc [] l.

Definition get_latest_log_file (cfg : Config) (names : option (list str))
  : option str :=
  match names with
  | None => None
  | Some names =>
      let log_files :=
        filter (fun f => startswith (log_file_prefix cfg) f
                         && endswith (lit ".log") f) names in
      match sort_desc log_files with
      | [] => None
      | f :: _ => Some (path_join (log_directory cfg) f)
      end
  end.

(** The variables of [main] that live across cycles, the database,
    and the exception that left the loop, if one did. *)
Record State := mkState {
  last_position : nat;
  current_file : option str;
  log_entries : list Entry.t;
  issues : Table;
  stopped : option Error
}.

(** What a cycle did: it waited for a log file, or it called
    [tail_file path offset]. *)
Inductive Event :=
| Waiting
| Read (path : str) (offset : nat).

(** [for line in new_lines: parsed = parse_log_line(line); ...]; an
    exception of [parse_log_line] leaves the loop. *)
Fixpoint parse_all (new_lines : list str) : Result (list Entry.t) :=
  match new_lines with
  | [] => Ok []
  | line :: rest =>
      parsed <- parse_log_line line ;;
      parsed_entries <- parse_all rest ;;
      Ok match parsed with
         | Some entry => entry :: parsed_entries
         | None => parsed_entries
         end
  end.

(** [insert_log_entries]: nothing to do for no entries; the bulk
    insert is committed, or an exception of the database is caught and
    the transaction rolled back.  [stored] is the table
    [log_entries]. *)
Definition insert_log_entries (accepted : list Entry.t -> bool)
    (stored entries : list Entry.t) : list Entry.t :=
  match entries with
  | [] => stored
  | _ => if accepted entries then stored ++ entries else stored
  end.

(** [log_file != current_file] *)
Definition differs (log_file : str) (current : option str) : bool :=
  match current with
  | None => true
  | Some c => negb (str_eqb log_file c)
  end.

(** One pass through the body of [while True].  An exception of
    [parse_log_line] is not handled: it leaves the loop with the
    variables as they are then and the database as it was. *)
Definition cycle (cfg : Config) (w : World) (st : State) : State * Event :=
  match get_latest_log_file cfg (listing w) with
  | None | Some [] => (st, Waiting)
  | Some log_file =>
      let (current_file', position) :=
        if differs log_file (current_file st) then (Some log_file, 0)
        else (current_file st, last_position st) in
      let (new_lines, last_position') :=
        tail_file (files w) log_file position in
      let st' :=
        match parse_all new_lines with
        | Raise e =>
            {| last_position := last_position';
               current_file := current_file';
               log_entries := log_entries st;
               issues := issues st;
               stopped := Some e |}
        | Ok [] =>
            {| last_position := last_position';
               current_file := current_file';
               log_entries := log_entries st;
               issues := issues st;
               stopped := stopped st |}
        | Ok parsed_entries =>
            {| last_position := last_position';
               current_file := current_file';
               log_entries :=
                 insert_log_entries (accepts w) (log_entries st)
                                    parsed_entries;
               issues := detect_issues (now w) parsed_entries (issues st);
               stopped := stopped st |}
        end in
      (st', Read log_file position)
  end.

(** One cycle of a run: the state it started from, what it did, the
    state it left. *)
Record Step := mkStep {
  before : State;
  event : Event;
  after : State
}.

(** The cycles of the loop over the successive worlds it meets, up
    to the cycle that an exception leaves. *)
Fixpoint run (cfg : Config) (ws : list World) (st : State) : list Step :=
  match ws with
  | [] => []
  | w :: ws' =>
      let (st', ev) := cycle cfg w st in
      {| before := st; event := ev; after := st' |}
      :: match stopped st' with
         | None => run cfg ws' st'
         | Some _ => []
         end
  end.

Definition initial_state (t : Table) : State :=
  {| last_position := 0; current_file := None;
     log_entries := []; issues := t; stopped := None |}.

End Loop.

Import Loop.

(** ** The log generator ([scripts/log_generator.py])

    The calls to [random] and to the clock are the inputs of the
    model: a draw is a natural number, and each call maps its own draw
    into the range it chooses from. *)

Module Generator.

Definition LOG_DIR : str := lit "./logs".

Definition COMPONENTS : list str :=
  [ lit "Database";
    lit "API";
    lit "Auth";
    lit "Cache";
    lit "Queue";
    lit "Payment" ].

Definition LOG_LEVELS : list str :=
  [ lit "INFO"; lit "WARN"; lit "ERROR"; lit "DEBUG" ].

Definition LEVEL_WEIGHTS : list (str * nat) :=
  [ (lit "INFO", 70);
    (lit "WARN", 20);
    (lit "ERROR", 8);
    (lit "DEBUG", 2) ].

Definition MESSAGES : list (str * list (str * list str)) :=
  [
    (lit "Database",
      [
        (lit "INFO",
         [ lit "Query executed successfully in {time}ms";
           lit "Connection pool: {pool} active connections";
           lit "Index scan completed: {rows} rows" ]);
        (lit "WARN",
         [ lit "Slow query detected: {time}ms for SELECT statement";
           lit "Connection pool reaching limit: {pool}/100 connections";
           lit "Table lock held for {time}ms" ]);
        (lit "ERROR",
         [ lit "Query timeout after {time}ms: {query}";
           lit "Connection failed: Unable to reach database server";
           lit "Deadlock detected on table users";
           lit "Max connections reached: 100/100" ]) ]);
    (lit "API",
      [
        (lit "INFO",
         [ lit "GET /api/users/{id} completed in {time}ms";
           lit "POST /api/orders completed in {time}ms";
           lit "Request processed: user_id={user_id}" ]);
        (lit "WARN",
         [ lit "Slow response: {endpoint} took {time}ms";
           lit "Rate limit approaching: {count} requests in last minute";
           lit "Large payload detected: {size}MB" ]);
        (lit "ERROR",
         [ lit "500 Internal Server Error: {endpoint}";
           lit "404 Not Found: {endpoint}";
           lit "Request validation failed: {error}";
           lit "Authentication failed for user_id={user_id}" ]) ]);
    (lit "Auth",
      [
        (lit "INFO",
         [ lit "User login successful: user_id={user_id}";
           lit "Token generated for user_id={user_id}";
           lit "Password reset email sent to user_id={user_id}" ]);
        (lit "WARN",
         [ lit "Failed login attempt for user_id={user_id}";
           lit "Token expired for user_id={user_id}";
           lit "Multiple login attempts from IP {ip}" ]);
        (lit "ERROR",
         [ lit "Invalid credentials for user_id={user_id}";
           lit "Session hijacking attempt detected";
           lit "Brute force attack detected from IP {ip}" ]) ]);
    (lit "Cache",
      [
        (lit "INFO",
         [ lit "Cache hit: key={key}";
           lit "Cache miss: key={key}";
           lit "Cache size: {size}MB / 512MB" ]);
        (lit "WARN",
         [ lit "Cache eviction: Memory limit reached";
           lit "Cache miss rate high: {rate}%";
           lit "Stale data detected for key={key}" ]);
        (lit "ERROR",
         [ lit "Cache server unreachable";
           lit "Cache corruption detected";
           lit "Out of memory: Cannot allocate cache" ]) ]);
    (lit "Queue",
      [
        (lit "INFO",
         [ lit "Message processed: queue={queue} time={time}ms";
           lit "Queue size: {size} messages pending";
           lit "Worker started: worker_id={worker_id}" ]);
        (lit "WARN",
         [ lit "Queue backlog growing: {size} messages";
           lit "Message processing slow: {time}ms";
           lit "Dead letter queue has {size} messages" ]);
        (lit "ERROR",
         [ lit "Message processing failed: {error}";
           lit "Queue connection lost";
           lit "Worker crashed: worker_id={worker_id}" ]) ]);
    (lit "Payment",
      [
        (lit "INFO",
         [ lit "Payment processed: amount=${amount} user_id={user_id}";
           lit "Refund issued: transaction_id={transaction_id}";
           lit "Payment gateway connected" ]);
        (lit "WARN",
         [ lit "Payment declined: insufficient funds user_id={user_id}";
           lit "Retry attempt {attempt}/3 for transaction_id={transaction_id}";
           lit "Payment gateway latency high: {time}ms" ]);
        (lit "ERROR",
         [ lit "Payment gateway timeout";
           lit "Transaction failed: {error}";
           lit "Fraud detection triggered for user_id={user_id}" ]) ]) ].

(** [d[key]] *)
Fixpoint getitem {V : Type} (d : list (str * V)) (key : str) : Result V :=
  match d with
  | [] => Raise (KeyError key)
  | (k, v) :: d' => if str_eqb k key then Ok v else getitem d' key
  end.

(** [random.randint(a, b)]: one of the [b - a + 1] integers from [a]. *)
Definition randint (a b draw : Z) : Z := (a + draw mod (b - a + 1))%Z.

(** [random.choice(seq)]; an empty sequence raises [IndexError]. *)
Definition choice {A : Type} (seq : list A) (draw : nat) : Result A :=
  match nth_error seq (draw mod length seq) with
  | Some x => Ok x
  | None => Raise IndexError
  end.

(** [random.choices(population, weights=weights)[0]]: the draw, taken
    below the total weight, falls into the share of one element. *)
Fixpoint pick (items : list (str * nat)) (u : nat) : Result str :=
  match items with
  | [] => Raise IndexError
  | (x, w) :: rest => if u <? w then Ok x else pick rest (u - w)
  end.

Definition choices_first (population : list str) (weights : list nat)
    (draw : nat) : Result str :=
  if negb (length population =? length weights) then Raise ValueError
  else if list_sum weights =? 0 then Raise ValueError
  else pick (combine population weights) (draw mod list_sum weights).

(** A point in time, as [datetime] holds it. *)
Record DateTime := mkDateTime {
  year : Z;
  month : Z;
  day : Z;
  hour : Z;
  minute : Z;
  second : Z
}.

(** [%Y], [%m], [%d], [%H], [%M], [%S]: decimal, padded with zeros. *)
Definition zero_padded (width : nat) (n : Z) : str :=
  pad_zeros width (str_of_Z n).

(** [strftime("%Y-%m-%d %H:%M:%S")] *)
Definition strftime_timestamp (t : DateTime) : str :=
  zero_padded 4 (year t) ++ lit "-" ++ zero_padded 2 (month t) ++ lit "-"
  ++ zero_padded 2 (day t) ++ lit " " ++ zero_padded 2 (hour t) ++ lit ":"
  ++ zero_padded 2 (minute t) ++ lit ":" ++ zero_padded 2 (second t).

(** [strftime("%Y%m%d")] *)
Definition strftime_date (t : DateTime) : str :=
  zero_padded 4 (year t) ++ zero_padded 2 (month t) ++ zero_padded 2 (day t).

(** [generate_timestamp]; its argument is the time it formats,
    [datetime.now() - timedelta(seconds=seconds_ago)]. *)
Definition generate_timestamp (timestamp : DateTime) : str :=
  strftime_timestamp timestamp.

(** [choose_log_level] *)
Definition choose_log_level (draw : nat) : Result str :=
  let levels := map fst LEVEL_WEIGHTS in
  let weights := map snd LEVEL_WEIGHTS in
  choices_first levels weights draw.

(** The draws of one call of [generate_log_entry]. *)
Record Draws := mkDraws {
  d_level : nat;
  d_component : nat;
  d_template : nat;
  d_time : Z;
  d_pool : Z;
  d_rows : Z;
  d_user_id : Z;
  d_id : Z;
  d_endpoint : nat;
  d_count : Z;
  d_size : Z;
  d_error : nat;
  d_key : Z;
  d_rate : Z;
  d_queue : nat;
  d_worker_id : Z;
  d_amount : Z;
  d_cents : Z;
  d_transaction_id : Z;
  d_attempt : Z;
  d_ip3 : Z;
  d_ip4 : Z
}.

(** A value of the dictionary of [generate_values]. *)
Inductive Value :=
| VInt (n : Z)
| VStr (s : str).

(** [format(value, '')]: the text of the value. *)
Definition str_of_value (v : Value) : str :=
  match v with
  | VInt n => str_of_Z n
  | VStr s => s
  end.

(** [generate_values] *)
Definition generate_values (d : Draws) : Result (list (str * Value)) :=
  endpoint <-
    choice [lit "/api/users"; lit "/api/orders"; lit "/api/products"]
           (d_endpoint d) ;;
  error <-
    choice [lit "Invalid input"; lit "Connection refused"; lit "Timeout"]
           (d_error d) ;;
  queue <-
    choice [lit "orders"; lit "emails"; lit "notifications"] (d_queue d) ;;
  Ok [ (lit "time", VInt (randint 50 5000 (d_time d)));
       (lit "pool", VInt (randint 10 95 (d_pool d)));
       (lit "rows", VInt (randint 100 10000 (d_rows d)));
       (lit "query", VStr (lit "SELECT * FROM users WHERE id = 12345"));
       (lit "user_id", VInt (randint 1000 9999 (d_user_id d)));
       (lit "id", VInt (randint 1 1000 (d_id d)));
       (lit "endpoint", VStr endpoint);
       (lit "count", VInt (randint 50 95 (d_count d)));
       (lit "size", VInt (randint 5 50 (d_size d)));
       (lit "error", VStr error);
       (lit "key",
        VStr (lit "cache_key_" ++ str_of_Z (randint 1 100 (d_key d))));
       (lit "rate", VInt (randint 40 80 (d_rate d)));
       (lit "queue", VStr queue);
       (lit "worker_id", VInt (randint 1 10 (d_worker_id d)));
       (lit "amount",
        VStr (str_of_Z (randint 10 500 (d_amount d)) ++ lit "."
              ++ zero_padded 2 (randint 0 99 (d_cents d))));
       (lit "transaction_id",
        VStr (lit "TXN"
              ++ str_of_Z (randint 100000 999999 (d_transaction_id d))));
       (lit "attempt", VInt (randint 1 3 (d_attempt d)));
       (lit "ip",
        VStr (lit "192.168." ++ str_of_Z (randint 1 255 (d_ip3 d))
              ++ lit "." ++ str_of_Z (randint 1 255 (d_ip4 d)))) ].

(** The templates the model of [str.format] covers: every brace opens
    or closes a replacement field, and the name of a field is a
    non-empty run of letters, digits and underscores. *)
Fixpoint plain_template_from (field : option str) (s : str) : bool :=
  match s with
  | [] => match field with None => true | Some _ => false end
  | c :: s' =>
      match field with
      | None =>
          if is_char "{"%char c then plain_template_from (Some []) s'
          else negb (is_char "}"%char c) && plain_template_from None s'
      | Some name =>
          if is_char "}"%char c then
            match name with
            | [] => false
            | _ => plain_template_from None s'
            end
          else is_word c && plain_template_from (Some (name ++ [c])) s'
      end
  end.

Definition plain_template (s : str) : bool := plain_template_from None s.

(** [template.format] with [values] as keyword arguments, on a plain
    template: the text, with
    every field replaced by the value of its name; a name that is not
    a key raises [KeyError]. *)
Fixpoint format_from (values : list (str * Value)) (field : option str)
    (s : str) : Result str :=
  match s with
  | [] => match field with None => Ok [] | Some _ => Raise ValueError end
  | c :: s' =>
      match field with
      | None =>
          if is_char "{"%char c then format_from values (Some []) s'
          else if is_char "}"%char c then Raise ValueError
          else r <- format_from values None s' ;; Ok (c :: r)
      | Some name =>
          if is_char "}"%char c then
            v <- getitem values name ;;
            r <- format_from values None s' ;;
            Ok (str_of_value v ++ r)
          else format_from values (Some (name ++ [c])) s'
      end
  end.

Definition format (template : str) (values : list (str * Value))
  : Result str :=
  format_from values None template.

(** [f"{s:<width>}"] for a string: padded with spaces on the right. *)
Definition ljust (width : nat) (s : str) : str :=
  s ++ repeat " "%char (width - length s).

(** [generate_log_entry] *)
Definition generate_log_entry (now : DateTime) (d : Draws) : Result str :=
  let timestamp := generate_timestamp now in
  level <- choose_log_level (d_level d) ;;
  component <- choice COMPONENTS (d_component d) ;;
  by_level <- getitem MESSAGES component ;;
  message_templates <- getitem by_level level ;;
  message_template <- choice message_templates (d_template d) ;;
  values <- generate_values d ;;
  message <- format message_template values ;;
  Ok (timestamp ++ lit " " ++ ljust 5 level ++ lit " ["
      ++ ljust 10 component ++ lit "] " ++ message).

(** [f"{LOG_DIR}/app_{date_str}.log"] *)
Definition log_file_name (today : DateTime) : str :=
  LOG_DIR ++ lit "/app_" ++ strftime_date today ++ lit ".log".

(** The loop of [main], over the entries it gets to write before it is
    interrupted: each entry is appended to the log file with a line
    feed; an exception of [generate_log_entry] ends the loop.  The
    result is the files, [entry_count] and the exception if any. *)
Fixpoint write_entries (inputs : list (DateTime * Draws)) (fs : FileSystem)
    (log_file : str) (entry_count : nat)
  : FileSystem * nat * option Error :=
  match inputs with
  | [] => (fs, entry_count, None)
  | (now, d) :: rest =>
      match generate_log_entry now d with
      | Ok log_entry =>
          write_entries rest
            (append_file fs log_file (log_entry ++ [newline]))
            log_file (S entry_count)
      | Raise e => (fs, entry_count, Some e)
      end
  end.

(** [open(log_file, "a")]: the file exists from then on, with the
    content it had. *)
Definition open_append (fs : FileSystem) (path : str) : FileSystem :=
  append_file fs path [].

(** [main], started on the day [today] and interrupted after the
    entries of [inputs]: the name of the log file is fixed once, the
    file is opened for appending and the loop runs.  Directories are
    not part of the model of the files. *)
Definition main (today : DateTime) (inputs : list (DateTime * Draws))
    (fs : FileSystem) : FileSystem * nat * option Error :=
  let log_file := log_file_name today in
  write_entries inputs (open_append fs log_file) log_file 0.

End Generator.

Import Generator.

(** * Vocabulary of the properties *)

Module Grammar.

(** [p] holds on every character of [s]. *)
Definition all (p : ascii -> bool) (s : str) : Prop :=
  Forall (fun c => p c = true) s.

(** [s] is empty or starts with a character outside [p]. *)
Definition stops (p : ascii -> bool) (s : str) : Prop :=
  match s with
  | [] => True
  | c :: _ => p c = false
  end.

(** One or more characters of the class [p]. *)
Definition some_of (p : ascii -> bool) (s : str) : Prop :=
  s <> [] /\ all p s.

(** [YYYY-MM-DD HH:MM:SS] *)
Definition is_timestamp (ts : str) : Prop :=
  Forall2 (fun p c => p c = true) timestamp_shape ts.

(** The structural grammar [TIMESTAMP LEVEL [COMPONENT] MESSAGE]: a
    time stamp at the start, a level token, a component in one pair of
    brackets and the message, the remainder; white space separates
    them. *)
Definition matches_grammar (s : str) : Prop :=
  exists ts ws1 lvl ws2 comp ws3 msg,
    s = ts ++ ws1 ++ lvl ++ ws2 ++ "["%char :: comp ++ "]"%char :: ws3 ++ msg
    /\ is_timestamp ts
    /\ some_of is_space ws1
    /\ some_of is_word lvl
    /\ some_of is_space ws2
    /\ some_of not_close comp
    /\ some_of is_space ws3.

(** [found] is what the pattern [P] (a relation between the text at a
    position and the group found there) gives at the first position of
    [msg] where it gives anything. *)
Definition first_match (P : str -> str -> Prop) (msg found : str) : Prop :=
  exists pre suf,
    msg = pre ++ suf /\ P suf found /\
    forall pre' suf' g,
      msg = pre' ++ suf' -> length pre' < length pre -> ~ P suf' g.

Definition no_match (P : str -> str -> Prop) (msg : str) : Prop :=
  forall pre suf g, msg = pre ++ suf -> ~ P suf g.

(** Three consecutive digits at the start of [s]. *)
Definition three_digits (s g : str) : Prop :=
  length g = 3 /\ all is_digit g /\ exists rest, s = g ++ rest.

(** An integer at the start of [s], immediately followed by [ms]. *)
Definition digits_ms (s g : str) : Prop :=
  some_of is_digit g /\ exists rest, s = g ++ lit "ms" ++ rest.

(** [user_id=] or [user_id:] at the start of [s], and the integer that
    follows. *)
Definition user_id_token (s g : str) : Prop :=
  some_of is_digit g /\
  exists sep rest,
    (sep = "="%char \/ sep = ":"%char) /\
    s = lit "user_id" ++ sep :: g ++ rest /\ stops is_digit rest.

(** The group, if there is one, is short enough for [int]. *)
Definition within_limit (m : option str) : bool :=
  match m with
  | Some g => length g <=? int_max_str_digits
  | None => true
  end.

(** No run of digits of [s] is longer than [int] accepts. *)
Definition short_numbers (s : str) : Prop :=
  forall pre g post,
    s = pre ++ g ++ post -> all is_digit g ->
    length g <= int_max_str_digits.

End Grammar.

Import Grammar.

(** The vocabulary of the properties of detection. *)
Module Batch.

(** The issues of one type, and those of one type about one component. *)
Definition of_type (ty : str) (l : list Issue.t) : list Issue.t :=
  filter (fun i => str_eqb (Issue.issue_type i) ty) l.

Definition about (ty c : str) (l : list Issue.t) : list Issue.t :=
  filter (fun i => str_eqb (Issue.issue_type i) ty
                   && str_eqb (Issue.component i) c) l.

(** The records of a batch that belong to one component. *)
Definition of_component (c : str) (batch : list Entry.t) : list Entry.t :=
  filter (fun e => str_eqb (Entry.component e) c) batch.

(** The number of ERROR records in a list of records. *)
Definition count_errors (es : list Entry.t) : nat :=
  length (filter is_error es).




(** [lookup c groups]: the value of the dictionary [groups] at key [c]. *)
Fixpoint lookup (c : str) (m : Groups) : option (list Entry.t) :=
  match m with
  | [] => None
  | (k, es) :: m' => if str_eqb k c then Some es else lookup c m'
  end.

(** A record with the given level, component and message, as
    [parse_log_line] builds it from a line with these parts. *)
Definition record (lvl comp msg : str) : Entry.t :=
  {| Entry.timestamp := lit "2024-01-15 10:30:45";
     Entry.level := lvl;
     Entry.component := comp;
     Entry.message := msg;
     Entry.response_time :=
       option_map int_of_digits (search TIME_PATTERN_at msg);
     Entry.user_id :=
       option_map int_of_digits (search USER_ID_PATTERN_at msg);
     Entry.error_code := search ERROR_CODE_PATTERN_at msg |}.

(** A batch of [total] records of component [X], [errs] of them ERROR. *)
Definition batch_of_X (errs total : nat) : list Entry.t :=
  repeat (record (lit "ERROR") (lit "X") (lit "Request failed")) errs
  ++ repeat (record (lit "INFO") (lit "X") (lit "Request processed"))
       (total - errs).

(** ERROR records of two components. *)
Definition batch_two_components : list Entry.t :=
  [ record (lit "ERROR") (lit "Cache") (lit "Cache server unreachable");
    record (lit "ERROR") (lit "Queue") (lit "Queue connection lost") ].


End Batch.

Import Batch.

(** The two threshold tests of the error rate, compared with the exact
    ones on the counts: [100 * e / t > 10] is [t < 10 * e] and
    [100 * e / t > 20] is [t < 5 * e]. *)
Module RateCheck.





End RateCheck.

Import RateCheck.

(** The vocabulary of the properties of the table of issues. *)
Module Inv.

(** At most one unresolved row for each pair of issue type and
    component. *)
Definition dedup (t : Table) : Prop :=
  forall ty c, length (filter (is_open_for ty c) (rows t)) <= 1.

(** [id] is a key of the table, and the sequence is ahead of it. *)
Definition fresh_ids (t : Table) : Prop :=
  NoDup (map Row.id (rows t))
  /\ Forall (fun r => (Row.id r < next_id t)%Z) (rows t).

(** A sequence of reconciliations, each with its own time. *)
Definition reconcile_all (ops : list (Z * Issue.t)) (t : Table) : Table :=
  fold_left (fun t op => reconcile (fst op) t (snd op)) ops t.

(** The row [existing] after it has been merged with [issue] at [now]. *)
Definition merged (now : Z) (issue : Issue.t) (existing : Row.t) : Row.t :=
  {| Row.id := Row.id existing;
     Row.issue_type := Row.issue_type existing;
     Row.severity := Issue.severity issue;
     Row.description := Issue.description issue;
     Row.component := Row.component existing;
     Row.first_seen := Row.first_seen existing;
     Row.last_seen := now;
     Row.occurrence_count :=
       (Row.occurrence_count existing + Issue.occurrence_count issue)%Z;
     Row.resolved := Row.resolved existing |}.

(** An observation of database timeouts. *)
Definition timeout_observation (sev : str) (count : Z) : Issue.t :=
  {| Issue.issue_type := DATABASE_TIMEOUT;
     Issue.severity := sev;
     Issue.description := lit "Database timeouts detected";
     Issue.component := lit "Database";
     Issue.occurrence_count := count |}.

Definition empty_table : Table := {| rows := []; next_id := 1 |}.

End Inv.

Import Inv.

(** Lines of a log file. *)
Definition line_with_fields : str :=
  lit "2024-01-15 10:30:45 ERROR [Database] Query timeout after 5231ms user_id=4521".

Definition line_without_bracket : str :=
  lit "2024-01-15 10:30:45 ERROR Database is down".

Definition line_indented : str :=
  lit "  2024-01-15 10:30:45 INFO [API] Request processed".

Definition line_empty_message : str :=
  lit "2024-01-15 10:30:45 INFO [API] ".

Definition line_long_number : str :=
  lit "2024-01-15 10:30:45 INFO [API] took "
  ++ repeat "1"%char 4301 ++ lit "ms".

(** The vocabulary of the properties of tailing and of the loop. *)
Module Lines.

(** The text of a line without its end: no line feed, no carriage
    return. *)
Definition plain_line (l : str) : Prop :=
  ~ In newline l /\ ~ In carriage_return l.

Definition with_newline (l : str) : str := l ++ [newline].

(** What writing the lines [ls], each ended by a line feed, appends. *)
Definition file_text (ls : list str) : str :=
  List.concat (map with_newline ls).

(** A file system with one log file. *)
Definition one_file (path content : str) : FileSystem :=
  fun q => if str_eqb q path then Some content else None.

Definition config : Config :=
  {| log_directory := lit "./logs"; log_file_prefix := lit "app_" |}.

Definition day1 : str := lit "./logs/app_2024-01-15.log".
Definition day2 : str := lit "./logs/app_2024-01-16.log".

(** The world on the first day, and after the file of the second day
    has appeared. *)
Definition world1 : World :=
  {| listing := Some [lit "app_2024-01-15.log"];
     files := one_file day1 (file_text [line_with_fields]);
     now := 10;
     accepts := fun _ => true |}.

Definition world2 : World :=
  {| listing := Some [lit "app_2024-01-15.log"; lit "app_2024-01-16.log"];
     files := one_file day2 (file_text [line_with_fields; line_with_fields]);
     now := 20;
     accepts := fun _ => true |}.

(** The cycle made the event [ev] and left [tracked] as the current
    file. *)
Definition event_of_cycle_is (result : State * Event) (ev : Event)
    (tracked : option str) : Prop :=
  snd result = ev /\ current_file (fst result) = tracked.

End Lines.

Import Lines.

(** More vocabulary: the records the other heuristics count, and the
    key of an issue. *)
Module Counted.


(** The pair that [insert_issues] looks an issue up by. *)
Definition issue_key (i : Issue.t) : str * str :=
  (Issue.issue_type i, Issue.component i).


(** The sum of the counts of a list of issues, and of the rows of a
    table. *)
Definition total_observed (l : list Issue.t) : Z :=
  fold_right (fun i acc => (Issue.occurrence_count i + acc)%Z) 0%Z l.

Definition total_stored (rs : list Row.t) : Z :=
  fold_right (fun r acc => (Row.occurrence_count r + acc)%Z) 0%Z rs.

(** Every row was first seen no later than it was last seen, and last
    seen no later than [now]. *)
Definition times_ordered (now : Z) (t : Table) : Prop :=
  Forall (fun r => (Row.first_seen r <= Row.last_seen r <= now)%Z) (rows t).

(** The columns that no statement of [insert_issues] writes to an
    existing row. *)
Definition fixed_columns (r : Row.t) : Z * str * str * Z * bool :=
  (Row.id r, Row.issue_type r, Row.component r, Row.first_seen r,
   Row.resolved r).


(** A table with one resolved row about database timeouts. *)
Definition resolved_row : Row.t :=
  {| Row.id := 1;
     Row.issue_type := DATABASE_TIMEOUT;
     Row.severity := HIGH;
     Row.description := lit "Database timeouts detected";
     Row.component := lit "Database";
     Row.first_seen := 1;
     Row.last_seen := 2;
     Row.occurrence_count := 4;
     Row.resolved := true |}.

Definition table_with_resolved : Table :=
  {| rows := [resolved_row]; next_id := 2 |}.


(** The names that [get_latest_log_file] keeps. *)
Definition is_log_name (cfg : Config) (f : str) : bool :=
  startswith (log_file_prefix cfg) f && endswith (lit ".log") f.

(** The head of a list that is no less than every other element. *)
Definition headed (l : list str) : Prop :=
  match l with
  | [] => True
  | f :: rest => forall g, In g rest -> str_ltb f g = false
  end.

(** [plain_line] as a test. *)
Definition is_plain (l : str) : bool :=
  forallb (fun c => negb (is_char newline c)
                    && negb (is_char carriage_return c)) l.

(** A line in two parts, as a reader meets it while it is written. *)
Definition line_part1 : str :=
  lit "2024-01-15 10:30:45 ERROR [Database] Query time".
Definition line_part2 : str := lit "out after 5231ms".

End Counted.

Import Counted.

(** The vocabulary of the properties of the generator. *)
Module Generated.

(** One step of [int_of_digits], and the characters of a decimal
    numeral. *)
Definition step (acc : Z) (c : ascii) : Z := (10 * acc + digit_value c)%Z.

Definition chars (d : Decimal.uint) : str :=
  lit (NilEmpty.string_of_uint d).

(** The level whose share of the hundred weights holds [u]. *)
Definition level_of (u : nat) : str :=
  if u <? 70 then lit "INFO"
  else if u <? 90 then lit "WARN"
  else if u <? 98 then lit "ERROR"
  else lit "DEBUG".

(** The levels that every component has templates for. *)
Definition templated_levels : list str :=
  [ lit "INFO"; lit "WARN"; lit "ERROR" ].

(** The keys of the dictionary of [generate_values]. *)
Definition value_keys : list str :=
  [ lit "time"; lit "pool"; lit "rows"; lit "query"; lit "user_id";
    lit "id"; lit "endpoint"; lit "count"; lit "size"; lit "error";
    lit "key"; lit "rate"; lit "queue"; lit "worker_id"; lit "amount";
    lit "transaction_id"; lit "attempt"; lit "ip" ].

(** Every field of the template names one of [keys]. *)
Fixpoint fields_known (keys : list str) (field : option str) (s : str)
  : bool :=
  match s with
  | [] => match field with None => true | Some _ => false end
  | c :: s' =>
      match field with
      | None =>
          if is_char "{"%char c then fields_known keys (Some []) s'
          else negb (is_char "}"%char c) && fields_known keys None s'
      | Some name =>
          if is_char "}"%char c then
            existsb (str_eqb name) keys && fields_known keys None s'
          else fields_known keys (Some (name ++ [c])) s'
      end
  end.

(** The text ends with a character that is not white space. *)
Definition ends_solid (s : str) : Prop :=
  exists s' c, s = s' ++ [c] /\ is_space c = false.

Definition ends_solid_b (s : str) : bool :=
  match rev s with
  | [] => false
  | c :: _ => negb (is_space c)
  end.

(** Neither a line feed nor a carriage return. *)
Definition inline (c : ascii) : bool :=
  negb (is_char newline c) && negb (is_char carriage_return c).

(** A text that fits on one line and ends with something visible. *)
Definition solid (s : str) : Prop := all inline s /\ ends_solid s.

Definition solid_b (s : str) : bool := forallb inline s && ends_solid_b s.

(** The template starts with a character of its own, not white
    space. *)
Definition starts_literal (s : str) : bool :=
  match s with
  | [] => false
  | c :: _ => negb (is_space c) && negb (is_char "{"%char c)
  end.

(** What the properties need of a template. *)
Definition template_ok (t : str) : bool :=
  plain_template t && fields_known value_keys None t && solid_b t
  && starts_literal t && (length t <=? 100).

(** A date and a time of day of the years with four digits. *)
Definition valid_datetime (t : DateTime) : Prop :=
  (1000 <= year t <= 9999 /\ 1 <= month t <= 12 /\ 1 <= day t <= 31
   /\ 0 <= hour t <= 23 /\ 0 <= minute t <= 59 /\ 0 <= second t <= 59)%Z.

(** [line] is what [generate_log_entry] returns at the time and with
    the draws of [input]. *)
Definition generates (input : DateTime * Draws) (line : str) : Prop :=
  generate_log_entry (fst input) (snd input) = Ok line.

(** The draw of the level is not in the share of [DEBUG]. *)
Definition templated (input : DateTime * Draws) : Prop :=
  d_level (snd input) mod 100 < 98.

(** The content of a file, nothing if it does not exist. *)
Definition content_of (fs : FileSystem) (path : str) : str :=
  match fs path with
  | Some content => content
  | None => []
  end.

(** The files after the lines were appended, each with its line
    feed. *)
Definition write_lines (fs : FileSystem) (path : str) (lines : list str)
  : FileSystem :=
  fold_left (fun fs' l => append_file fs' path (with_newline l)) lines fs.

(** A time, draws and the line they give. *)
Definition sample_now : DateTime :=
  {| year := 2024; month := 1; day := 15;
     hour := 10; minute := 30; second := 45 |}.

Definition sample_draws (level : nat) : Draws :=
  {| d_level := level; d_component := 0; d_template := 0;
     d_time := 4181; d_pool := 0; d_rows := 0; d_user_id := 0; d_id := 0;
     d_endpoint := 0; d_count := 0; d_size := 0; d_error := 0; d_key := 0;
     d_rate := 0; d_queue := 0; d_worker_id := 0; d_amount := 0;
     d_cents := 0; d_transaction_id := 0; d_attempt := 0; d_ip3 := 0;
     d_ip4 := 0 |}.

Definition sample_line : str :=
  lit "2024-01-15 10:30:45 ERROR [Database  ] Query timeout after 4231ms: SELECT * FROM users WHERE id = 12345".

(** The day as one number, [YYYYMMDD]. *)
Definition date_number (t : DateTime) : Z :=
  (year t * 10000 + month t * 100 + day t)%Z.

(** The name of the file of a day inside the log directory. *)
Definition base_name (t : DateTime) : str :=
  lit "app_" ++ strftime_date t ++ lit ".log".

(** Another day. *)
Definition sample_next_day : DateTime :=
  {| year := 2024; month := 1; day := 16;
     hour := 0; minute := 0; second := 5 |}.

End Generated.

Import Generated.

(** * Properties *)

(** ** Text *)

Section TextFacts.

Lemma str_eqb_refl (a : str) : str_eqb a a = true.
Proof.
  induction a as [|c a IH]; simpl; [reflexivity|].
  now rewrite Ascii.eqb_refl, IH.
Qed.

Lemma str_eqb_eq (a b : str) : str_eqb a b = true <-> a = b.
Proof.
  split; [|intros ->; apply str_eqb_refl].
  revert b; induction a as [|x a IH]; intros [|y b]; simpl; try easy.
  intros H. apply andb_true_iff in H as [Hc Hs].
  apply Ascii.eqb_eq in Hc. apply IH in Hs. now subst.
Qed.

Lemma str_eqb_neq (a b : str) : str_eqb a b = false <-> a <> b.
Proof.
  split.
  - intros H E. apply str_eqb_eq in E. congruence.
  - intros H. destruct (str_eqb a b) eqn:E; [|reflexivity].
    apply str_eqb_eq in E. contradiction.
Qed.

Lemma span_spec p s a b :
  span p s = (a, b) -> s = a ++ b /\ all p a /\ stops p b.
Proof.
  revert a b; induction s as [|c s IH]; simpl; intros a b H.
  - inversion H; subst. repeat split; constructor.
  - destruct (p c) eqn:Hc.
    + destruct (span p s) as [a' b'] eqn:Hs. inversion H; subst.
      destruct (IH _ _ eq_refl) as (-> & Ha & Hb).
      repeat split; auto. constructor; auto.
    + inversion H; subst. repeat split; [constructor | exact Hc].
Qed.

Lemma span_intro p a b : all p a -> stops p b -> span p (a ++ b) = (a, b).
Proof.
  intros Ha Hb. induction Ha as [|c a Hc Ha IH]; simpl.
  - destruct b as [|c b]; simpl in *; [reflexivity|]. now rewrite Hb.
  - now rewrite Hc, IH.
Qed.

Lemma span_unique p a b a' b' :
  all p a -> stops p b -> all p a' -> stops p b' ->
  a ++ b = a' ++ b' -> a = a' /\ b = b'.
Proof.
  intros Ha Hb Ha' Hb' E.
  pose proof (span_intro p a b Ha Hb) as H1.
  pose proof (span_intro p a' b' Ha' Hb') as H2.
  rewrite E in H1. rewrite H1 in H2. now inversion H2.
Qed.

(** A run that starts with [a] is found at least as long as [a]. *)
Lemma span_extends p a b :
  all p a ->
  exists a' b', span p (a ++ b) = (a ++ a', b') /\ b = a' ++ b'.
Proof.
  intros Ha. induction Ha as [|c a Hc Ha IH]; simpl.
  - destruct (span p b) as [a' b'] eqn:E. exists a', b'. split; [reflexivity|].
    now apply span_spec in E.
  - destruct IH as (a' & b' & E & ->). exists a', b'. now rewrite Hc, E.
Qed.

Lemma drop_while_stops p s : stops p (drop_while p s).
Proof.
  induction s as [|c s IH]; simpl; [exact I|].
  destruct (p c) eqn:Hc; [exact IH | exact Hc].
Qed.

Lemma drop_while_fixed p s : stops p s -> drop_while p s = s.
Proof. destruct s as [|c s]; simpl; [reflexivity|]. now intros ->. Qed.

Lemma drop_while_snoc p s c :
  p c = false -> drop_while p (s ++ [c]) = drop_while p s ++ [c].
Proof.
  intros Hc. induction s as [|x s IH]; simpl.
  - now rewrite Hc.
  - destruct (p x); [exact IH | reflexivity].
Qed.

(** What [strip] returns neither starts nor ends with white space. *)
Lemma lstrip_stops s : stops is_space (lstrip s).
Proof. apply drop_while_stops. Qed.

Lemma rstrip_stops s : stops is_space (rev (rstrip s)).
Proof. unfold rstrip. rewrite rev_involutive. apply drop_while_stops. Qed.

Lemma rstrip_fixed s : stops is_space (rev s) -> rstrip s = s.
Proof.
  intros H. unfold rstrip. rewrite (drop_while_fixed _ _ H).
  apply rev_involutive.
Qed.

Lemma rstrip_keeps_head s : stops is_space s -> stops is_space (rstrip s).
Proof.
  destruct s as [|c s]; simpl; intros H; [exact I|].
  unfold rstrip. simpl. rewrite (drop_while_snoc _ _ _ H).
  rewrite rev_app_distr. simpl. exact H.
Qed.

Lemma strip_stops s : stops is_space (strip s) /\ stops is_space (rev (strip s)).
Proof.
  unfold strip. split.
  - apply rstrip_keeps_head, lstrip_stops.
  - apply rstrip_stops.
Qed.

Lemma strip_fixed s :
  stops is_space s -> stops is_space (rev s) -> strip s = s.
Proof.
  intros H1 H2. unfold strip, lstrip.
  rewrite (drop_while_fixed _ _ H1). now apply rstrip_fixed.
Qed.

Lemma strip_idempotent s : strip (strip s) = strip s.
Proof. destruct (strip_stops s). now apply strip_fixed. Qed.

Lemma strip_prefix_spec p s r : strip_prefix p s = Some r <-> s = p ++ r.
Proof.
  revert s; induction p as [|a p IH]; intros s; simpl.
  - split; congruence.
  - destruct s as [|c s]; [split; discriminate|].
    destruct (Ascii.eqb a c) eqn:E.
    + apply Ascii.eqb_eq in E; subst. rewrite IH. split; congruence.
    + apply Ascii.eqb_neq in E. split; [discriminate | congruence].
Qed.

Lemma startswith_spec p s : startswith p s = true <-> exists r, s = p ++ r.
Proof.
  unfold startswith. destruct (strip_prefix p s) as [r|] eqn:E.
  - apply strip_prefix_spec in E. split; eauto.
  - split; [discriminate|]. intros [r Hr]. apply strip_prefix_spec in Hr.
    congruence.
Qed.


End TextFacts.

(** ** The parser *)

Section ParserFacts.

Lemma match_fixed_sound shape s m r :
  match_fixed shape s = Some (m, r) ->
  s = m ++ r /\ Forall2 (fun p c => p c = true) shape m.
Proof.
  revert s m r; induction shape as [|p shape IH]; intros s m r; simpl.
  - intros H; inversion H; subst. split; [reflexivity | constructor].
  - destruct s as [|c s]; [discriminate|].
    destruct (p c) eqn:Hc; [|discriminate].
    destruct (match_fixed shape s) as [[m' r']|] eqn:Hm; [|discriminate].
    intros H; inversion H; subst.
    apply IH in Hm as [-> Hm]. split; [reflexivity | now constructor].
Qed.

Lemma match_fixed_complete shape m r :
  Forall2 (fun p c => p c = true) shape m ->
  match_fixed shape (m ++ r) = Some (m, r).
Proof.
  induction 1 as [|p c shape m Hc H IH]; simpl; [reflexivity|].
  now rewrite Hc, IH.
Qed.

Lemma word_not_space c : is_word c = true -> is_space c = false.
Proof.
  unfold is_word, is_space, is_digit, is_upper, is_lower.
  intros H.
  repeat rewrite orb_true_iff in H. repeat rewrite andb_true_iff in H.
  repeat rewrite Nat.leb_le in H. rewrite Nat.eqb_eq in H.
  repeat rewrite orb_false_iff. repeat rewrite andb_false_iff.
  repeat rewrite Nat.leb_gt. rewrite Nat.eqb_neq. lia.
Qed.

Lemma space_not_word c : is_space c = true -> is_word c = false.
Proof.
  intros H. destruct (is_word c) eqn:E; [|reflexivity].
  apply word_not_space in E. congruence.
Qed.

Lemma space_is_not_dot c : is_dot c = false -> is_space c = true.
Proof.
  unfold is_dot, is_char. intros H. apply negb_false_iff in H.
  apply Ascii.eqb_eq in H. now subst.
Qed.

Lemma some_of_head p s : some_of p s -> exists c s', s = c :: s' /\ p c = true.
Proof.
  intros [Hne Hall]. destruct s as [|c s']; [contradiction|].
  inversion Hall; subst. eauto.
Qed.

(** What a successful match of [LOG_PATTERN] tells about the text. *)
Lemma LOG_PATTERN_match_sound s ts lvl comp msg :
  LOG_PATTERN_match s = Some (ts, lvl, comp, msg) ->
  exists ws1 ws2 ws3 rest,
    s = ts ++ ws1 ++ lvl ++ ws2 ++ "["%char :: comp ++ "]"%char :: ws3
           ++ msg ++ rest
    /\ is_timestamp ts
    /\ some_of is_space ws1
    /\ some_of is_word lvl
    /\ some_of is_space ws2
    /\ some_of not_close comp
    /\ some_of is_space ws3
    /\ stops is_space (msg ++ rest)
    /\ all is_dot msg
    /\ stops is_dot rest.
Proof.
  unfold LOG_PATTERN_match. intros H.
  destruct (match_fixed timestamp_shape s) as [[ts' r1]|] eqn:Hts;
    [|discriminate].
  apply match_fixed_sound in Hts as [-> Hts].
  destruct (span is_space r1) as [ws1 r2] eqn:H1.
  apply span_spec in H1 as (-> & Hw1 & _).
  destruct ws1 as [|w1 ws1]; [discriminate|].
  destruct (span is_word r2) as [lvl' r3] eqn:H2.
  apply span_spec in H2 as (-> & Hl & _).
  destruct lvl' as [|l0 lvl']; [discriminate|].
  destruct (span is_space r3) as [ws2 r4] eqn:H3.
  apply span_spec in H3 as (-> & Hw2 & _).
  destruct ws2 as [|w2 ws2]; [discriminate|].
  destruct r4 as [|open r4]; [discriminate|].
  destruct (is_char "["%char open) eqn:Ho; [|discriminate].
  apply Ascii.eqb_eq in Ho; subst open.
  destruct (span not_close r4) as [comp' r5] eqn:H4.
  apply span_spec in H4 as (-> & Hc & Hstop).
  destruct comp' as [|c0 comp']; [discriminate|].
  destruct r5 as [|close r5]; [discriminate|].
  simpl in Hstop. unfold not_close, is_char in Hstop.
  apply negb_false_iff, Ascii.eqb_eq in Hstop; subst close.
  destruct (span is_space r5) as [ws3 r6] eqn:H5.
  apply span_spec in H5 as (-> & Hw3 & Hstop3).
  destruct ws3 as [|w3 ws3]; [discriminate|].
  destruct (span is_dot r6) as [msg' rest] eqn:H6.
  apply span_spec in H6 as (-> & Hm & Hrest).
  simpl in H. inversion H; subst.
  exists (w1 :: ws1), (w2 :: ws2), (w3 :: ws3), rest.
  repeat split; auto; discriminate.
Qed.

(** A text of the grammar is matched. *)
Lemma LOG_PATTERN_match_complete s :
  matches_grammar s -> LOG_PATTERN_match s <> None.
Proof.
  intros (ts & ws1 & lvl & ws2 & comp & ws3 & msg & -> & Hts & H1 & Hl & H2
          & Hc & H3).
  unfold LOG_PATTERN_match.
  rewrite (match_fixed_complete _ _ _ Hts).
  destruct (some_of_head _ _ Hl) as (l0 & lvl' & El & Hl0).
  destruct (some_of_head _ _ H2) as (w2 & ws2' & E2 & Hw2).
  rewrite (span_intro is_space ws1 _ (proj2 H1)).
  2:{ rewrite El. simpl. now apply word_not_space. }
  destruct ws1 as [|w1 ws1]; [now destruct H1|].
  rewrite (span_intro is_word lvl _ (proj2 Hl)).
  2:{ rewrite E2. simpl. now apply space_not_word. }
  rewrite El at 1.
  rewrite (span_intro is_space ws2 _ (proj2 H2)) by reflexivity.
  rewrite E2 at 1. simpl (is_char _ _).
  rewrite (span_intro not_close comp _ (proj2 Hc)) by reflexivity.
  destruct comp as [|c0 comp]; [now destruct Hc|].
  destruct (span_extends is_space ws3 msg (proj2 H3)) as (a & b & E & _).
  rewrite E.
  destruct ws3 as [|w3 ws3]; [now destruct H3|].
  simpl. discriminate.
Qed.

Lemma LOG_PATTERN_match_iff s :
  LOG_PATTERN_match s <> None <-> matches_grammar s.
Proof.
  split; [|apply LOG_PATTERN_match_complete].
  destruct (LOG_PATTERN_match s) as [[[[ts lvl] comp] msg]|] eqn:E;
    [|congruence].
  intros _. apply LOG_PATTERN_match_sound in E
    as (ws1 & ws2 & ws3 & rest & -> & Hts & H1 & Hl & H2 & Hc & H3 & _).
  exists ts, ws1, lvl, ws2, comp, ws3, (msg ++ rest).
  unfold some_of in *. repeat split; try reflexivity; tauto.
Qed.

(** After [strip], the message of a match is not empty: what follows
    the white space after the bracket is not white space, and a text
    that [strip] returns does not end there. *)
Lemma stripped_message_nonempty line ts lvl comp msg :
  LOG_PATTERN_match (strip line) = Some (ts, lvl, comp, msg) -> msg <> [].
Proof.
  intros H.
  apply LOG_PATTERN_match_sound in H
    as (ws1 & ws2 & ws3 & rest & E & _ & _ & _ & _ & _ & H3 & Hs & _ & Hr).
  intros ->. simpl in Hs.
  destruct rest as [|c rest].
  - destruct (strip_stops line) as [_ Hend].
    destruct H3 as [Hne H3].
    destruct (exists_last Hne) as (ws & w & ->).
    apply Forall_app in H3 as [_ H3]. inversion H3; subst.
    assert (Ex : strip line
                 = (ts ++ ws1 ++ lvl ++ ws2 ++ "["%char :: comp
                       ++ "]"%char :: ws) ++ [w]).
    { rewrite E. repeat (rewrite <- app_assoc || simpl). reflexivity. }
    rewrite Ex, rev_app_distr in Hend. simpl in Hend. congruence.
  - simpl in Hs, Hr. apply space_is_not_dot in Hr. congruence.
Qed.

(** The three patterns of the secondary extraction, tried at one
    position. *)
Lemma digit_chars_3 a b c :
  all is_digit [a; b; c] <->
  is_digit a && is_digit b && is_digit c = true.
Proof.
  unfold all. split.
  - intros H. inversion H as [|? ? Ha H']; subst.
    inversion H' as [|? ? Hb H'']; subst.
    inversion H'' as [|? ? Hc _]; subst. now rewrite Ha, Hb, Hc.
  - intros H. apply andb_true_iff in H as [H Hc].
    apply andb_true_iff in H as [Ha Hb]. repeat constructor; assumption.
Qed.

Lemma ERROR_CODE_PATTERN_at_spec s g :
  ERROR_CODE_PATTERN_at s = Some g <-> three_digits s g.
Proof.
  unfold ERROR_CODE_PATTERN_at, three_digits. split.
  - destruct (startswith (lit "404") s) eqn:E1;
      [apply startswith_spec in E1; intros H; inversion H; subst;
       repeat split; [repeat constructor | exact E1]|].
    destruct (startswith (lit "500") s) eqn:E2;
      [apply startswith_spec in E2; intros H; inversion H; subst;
       repeat split; [repeat constructor | exact E2]|].
    destruct (startswith (lit "503") s) eqn:E3;
      [apply startswith_spec in E3; intros H; inversion H; subst;
       repeat split; [repeat constructor | exact E3]|].
    destruct s as [|a [|b [|c rest]]]; try discriminate.
    destruct (is_digit a && is_digit b && is_digit c) eqn:Hd; [|discriminate].
    intros H; inversion H; subst. repeat split.
    + now apply digit_chars_3.
    + now exists rest.
  - intros (Hlen & Hd & rest & ->).
    destruct g as [|a [|b [|c [|? ?]]]]; try discriminate.
    apply digit_chars_3 in Hd.
    destruct (startswith (lit "404") ([a; b; c] ++ rest)) eqn:E1.
    { apply startswith_spec in E1 as [r E1]. inversion E1; subst.
      reflexivity. }
    destruct (startswith (lit "500") ([a; b; c] ++ rest)) eqn:E2.
    { apply startswith_spec in E2 as [r E2]. inversion E2; subst.
      reflexivity. }
    destruct (startswith (lit "503") ([a; b; c] ++ rest)) eqn:E3.
    { apply startswith_spec in E3 as [r E3]. inversion E3; subst.
      reflexivity. }
    simpl. now rewrite Hd.
Qed.

Lemma TIME_PATTERN_at_spec s g :
  TIME_PATTERN_at s = Some g <-> digits_ms s g.
Proof.
  unfold TIME_PATTERN_at, digits_ms, some_of. split.
  - destruct (span is_digit s) as [ds r] eqn:E.
    apply span_spec in E as (-> & Hd & _).
    destruct ds as [|d ds]; [discriminate|].
    destruct (startswith (lit "ms") r) eqn:Hms; [|discriminate].
    apply startswith_spec in Hms as [rest ->].
    intros H; inversion H; subst. repeat split; [discriminate | exact Hd |].
    now exists rest.
  - intros ((Hne & Hd) & rest & ->).
    rewrite (span_intro is_digit g _ Hd) by reflexivity.
    destruct g as [|d g]; [contradiction|].
    replace (startswith (lit "ms") (lit "ms" ++ rest)) with true; [reflexivity|].
    symmetry. apply startswith_spec. now exists rest.
Qed.

Lemma USER_ID_PATTERN_at_spec s g :
  USER_ID_PATTERN_at s = Some g <-> user_id_token s g.
Proof.
  unfold USER_ID_PATTERN_at, user_id_token, some_of. split.
  - destruct (strip_prefix (lit "user_id") s) as [[|c r]|] eqn:E;
      try discriminate.
    apply strip_prefix_spec in E; subst s.
    destruct (is_char "="%char c || is_char ":"%char c) eqn:Hc; [|discriminate].
    destruct (span is_digit r) as [ds rest] eqn:Hs.
    apply span_spec in Hs as (-> & Hd & Hstop).
    destruct ds as [|d ds]; [discriminate|].
    intros H; inversion H; subst. repeat split; [discriminate | exact Hd |].
    exists c, rest. repeat split; auto.
    apply orb_true_iff in Hc as [Hc | Hc]; apply Ascii.eqb_eq in Hc; auto.
  - intros ((Hne & Hd) & sep & rest & Hsep & -> & Hstop).
    assert (E : strip_prefix (lit "user_id") (lit "user_id" ++ sep :: g ++ rest)
                = Some (sep :: g ++ rest)) by now apply strip_prefix_spec.
    rewrite E.
    replace (is_char "="%char sep || is_char ":"%char sep) with true
      by (destruct Hsep; subst; reflexivity).
    rewrite (span_intro is_digit g rest Hd Hstop).
    destruct g; [contradiction | reflexivity].
Qed.

(** [search] finds the first position where the pattern matches. *)
Lemma search_spec (P : str -> str -> Prop) (at_start : str -> option str) :
  (forall s g, at_start s = Some g <-> P s g) ->
  forall msg,
    (forall g, search at_start msg = Some g <-> first_match P msg g)
    /\ (search at_start msg = None <-> no_match P msg).
Proof.
  intros Hat. induction msg as [|c msg [IHs IHn]].
  - simpl. split.
    + intros g. destruct (at_start []) as [r|] eqn:E.
      * split.
        -- intros H; inversion H; subst. exists [], [].
           repeat split; [now apply Hat|]. simpl. intros; lia.
        -- intros (pre & suf & Hm & HP & _).
           destruct pre; [|discriminate]. simpl in Hm; subst suf.
           apply Hat in HP. congruence.
      * split; [discriminate|].
        intros (pre & suf & Hm & HP & _).
        destruct pre; [|discriminate]. simpl in Hm; subst suf.
        apply Hat in HP. congruence.
    + destruct (at_start []) as [r|] eqn:E.
      * split; [discriminate|]. intros H. exfalso.
        apply (H [] [] r eq_refl). now apply Hat.
      * split; [|reflexivity]. intros _ pre suf g Hm HP.
        destruct pre; [|discriminate]. simpl in Hm; subst suf.
        apply Hat in HP. congruence.
  - simpl. destruct (at_start (c :: msg)) as [r|] eqn:E.
    + split.
      * intros g. split.
        -- intros H; inversion H; subst. exists [], (c :: msg).
           repeat split; [now apply Hat|]. simpl. intros; lia.
        -- intros (pre & suf & Hm & HP & Hfirst).
           destruct pre as [|x pre].
           ++ simpl in Hm; subst suf. apply Hat in HP. congruence.
           ++ exfalso. apply (Hfirst [] (c :: msg) r eq_refl).
              ** simpl; lia.
              ** now apply Hat.
      * split; [discriminate|]. intros H. exfalso.
        apply (H [] (c :: msg) r eq_refl). now apply Hat.
    + split.
      * intros g. rewrite IHs. split.
        -- intros (pre & suf & -> & HP & Hfirst).
           exists (c :: pre), suf. repeat split; auto.
           intros pre' suf' g' Hm Hlt HP'.
           destruct pre' as [|x pre'].
           ++ simpl in Hm; subst suf'. apply Hat in HP'. congruence.
           ++ simpl in Hm. injection Hm as Hx Hm.
              apply (Hfirst pre' suf' g'); auto. simpl in Hlt; lia.
        -- intros (pre & suf & Hm & HP & Hfirst).
           destruct pre as [|x pre].
           ++ simpl in Hm; subst suf. apply Hat in HP. congruence.
           ++ simpl in Hm. injection Hm as Hx Hm. subst x.
              exists pre, suf. repeat split; auto.
              intros pre' suf' g' Hm' Hlt HP'.
              apply (Hfirst (c :: pre') suf' g'); auto.
              ** simpl. congruence.
              ** simpl. lia.
      * rewrite IHn. split.
        -- intros H pre suf g Hm HP. destruct pre as [|x pre].
           ++ simpl in Hm; subst suf. apply Hat in HP. congruence.
           ++ simpl in Hm. injection Hm as Hx Hm. now apply (H pre suf g).
        -- intros H pre suf g Hm HP.
           apply (H (c :: pre) suf g); auto. simpl. now rewrite Hm.
Qed.

End ParserFacts.

Section ParseOutcomes.

Lemma parse_log_line_unfold line :
  parse_log_line line =
  match LOG_PATTERN_match (strip line) with
  | None => Ok None
  | Some (ts, lvl, comp, msg) =>
      response_time <- int_of_group (search TIME_PATTERN_at msg) ;;
      user_id <- int_of_group (search USER_ID_PATTERN_at msg) ;;
      Ok (Some (Entry.make ts lvl comp msg response_time user_id
                  (search ERROR_CODE_PATTERN_at msg)))
  end.
Proof. reflexivity. Qed.

Lemma int_of_group_cases m :
  int_of_group m
  = if within_limit m then Ok (option_map int_of_digits m)
    else Raise ValueError.
Proof.
  destruct m as [g|]; [|reflexivity].
  unfold int_of_group, py_int, within_limit.
  now destruct (length g <=? int_max_str_digits).
Qed.

(** The three outcomes of [parse_log_line]. *)
Lemma parse_log_line_cases line :
  parse_log_line line =
  match LOG_PATTERN_match (strip line) with
  | None => Ok None
  | Some (ts, lvl, comp, msg) =>
      if within_limit (search TIME_PATTERN_at msg)
         && within_limit (search USER_ID_PATTERN_at msg)
      then
        Ok (Some (Entry.make ts lvl comp msg
                    (option_map int_of_digits (search TIME_PATTERN_at msg))
                    (option_map int_of_digits
                       (search USER_ID_PATTERN_at msg))
                    (search ERROR_CODE_PATTERN_at msg)))
      else Raise ValueError
  end.
Proof.
  rewrite parse_log_line_unfold.
  destruct (LOG_PATTERN_match (strip line)) as [[[[ts lvl] comp] msg]|];
    [|reflexivity].
  rewrite !int_of_group_cases.
  destruct (within_limit (search TIME_PATTERN_at msg)); [|reflexivity].
  now destruct (within_limit (search USER_ID_PATTERN_at msg)).
Qed.

(** What a record that [parse_log_line] returned is made of. *)
Lemma parse_log_line_record line r :
  parse_log_line line = Ok (Some r) ->
  exists ts lvl comp msg,
    LOG_PATTERN_match (strip line) = Some (ts, lvl, comp, msg)
    /\ r = Entry.make ts lvl comp msg
              (option_map int_of_digits (search TIME_PATTERN_at msg))
              (option_map int_of_digits (search USER_ID_PATTERN_at msg))
              (search ERROR_CODE_PATTERN_at msg).
Proof.
  rewrite parse_log_line_cases.
  destruct (LOG_PATTERN_match (strip line)) as [[[[ts lvl] comp] msg]|];
    [|discriminate].
  destruct (within_limit (search TIME_PATTERN_at msg)
            && within_limit (search USER_ID_PATTERN_at msg));
    [|discriminate].
  intros H. injection H as <-. now exists ts, lvl, comp, msg.
Qed.

(** A group that a search found is a part of the text. *)
Lemma search_part (at_start : str -> option str) :
  (forall s g, at_start s = Some g -> exists a b, s = a ++ g ++ b) ->
  forall s g, search at_start s = Some g -> exists a b, s = a ++ g ++ b.
Proof.
  intros Hat. induction s as [|c s IH]; intros g; simpl.
  - destruct (at_start []) as [g'|] eqn:E; [|discriminate].
    intros H. injection H as <-. now apply Hat.
  - destruct (at_start (c :: s)) as [g'|] eqn:E.
    + intros H. injection H as <-. now apply Hat.
    + intros H. destruct (IH g H) as (a & b & ->).
      now exists (c :: a), b.
Qed.

Lemma TIME_PATTERN_at_part s g :
  TIME_PATTERN_at s = Some g ->
  all is_digit g /\ exists a b, s = a ++ g ++ b.
Proof.
  unfold TIME_PATTERN_at.
  destruct (span is_digit s) as [ds r] eqn:E.
  apply span_spec in E as (-> & Hd & _).
  destruct ds as [|d ds]; [discriminate|].
  destruct (startswith (lit "ms") r); [|discriminate].
  intros H. injection H as <-. split; [exact Hd|]. now exists [], r.
Qed.

Lemma USER_ID_PATTERN_at_part s g :
  USER_ID_PATTERN_at s = Some g ->
  all is_digit g /\ exists a b, s = a ++ g ++ b.
Proof.
  unfold USER_ID_PATTERN_at.
  destruct (strip_prefix (lit "user_id") s) as [[|c r]|] eqn:E;
    try discriminate.
  apply strip_prefix_spec in E. subst s.
  destruct (is_char "="%char c || is_char ":"%char c); [|discriminate].
  destruct (span is_digit r) as [ds r'] eqn:E.
  apply span_spec in E as (-> & Hd & _).
  destruct ds as [|d ds]; [discriminate|].
  intros H. injection H as <-. split; [exact Hd|].
  exists (lit "user_id" ++ [c]), r'. now rewrite <- app_assoc.
Qed.

Lemma search_digits (at_start : str -> option str) :
  (forall s g, at_start s = Some g ->
               all is_digit g /\ exists a b, s = a ++ g ++ b) ->
  forall s g, search at_start s = Some g ->
              all is_digit g /\ exists a b, s = a ++ g ++ b.
Proof.
  intros Hat s g H. split.
  - revert H. induction s as [|c s IH]; simpl.
    + destruct (at_start []) as [g'|] eqn:E; [|discriminate].
      intros H. injection H as <-. now apply (Hat []).
    + destruct (at_start (c :: s)) as [g'|] eqn:E; [|exact IH].
      intros H. injection H as <-. now apply (Hat (c :: s)).
  - apply (search_part at_start); [|exact H].
    intros s' g' H'. now apply Hat.
Qed.

(** In a text without long runs of digits the groups are short. *)
Lemma short_numbers_within s prefix suffix :
  short_numbers (prefix ++ s ++ suffix) ->
  within_limit (search TIME_PATTERN_at s) = true
  /\ within_limit (search USER_ID_PATTERN_at s) = true.
Proof.
  intros Hs.
  assert (Hg : forall at_start,
             (forall s g, at_start s = Some g ->
                          all is_digit g /\ exists a b, s = a ++ g ++ b) ->
             within_limit (search at_start s) = true).
  { intros at_start Hat.
    destruct (search at_start s) as [g|] eqn:E; [|reflexivity].
    destruct (search_digits at_start Hat s g E) as (Hd & a & b & ->).
    apply Nat.leb_le.
    apply (Hs (prefix ++ a) g (b ++ suffix)); [|exact Hd].
    now rewrite <- !app_assoc. }
  split; apply Hg;
    [apply TIME_PATTERN_at_part | apply USER_ID_PATTERN_at_part].
Qed.

End ParseOutcomes.

(** C5, as amended.  A line whose text without the surrounding white
    space matches the structural grammar and has no run of more than
    4300 digits is parsed into a record whose level, component and
    message are not empty, each field being the part of the text the
    grammar names (the message up to the end of its line); a line
    whose stripped text does not match gives no record, and no
    exception. *)
Theorem parse_log_line_total (line : str) :
  (matches_grammar (strip line) ->
   short_numbers (strip line) ->
   exists r,
     parse_log_line line = Ok (Some r)
     /\ Entry.level r <> [] /\ Entry.component r <> []
     /\ Entry.message r <> []
     /\ exists ws1 ws2 ws3 rest,
          strip line =
            Entry.timestamp r ++ ws1 ++ Entry.level r ++ ws2
              ++ "["%char :: Entry.component r ++ "]"%char :: ws3
              ++ Entry.message r ++ rest
          /\ is_timestamp (Entry.timestamp r)
          /\ some_of is_word (Entry.level r)
          /\ some_of not_close (Entry.component r)
          /\ all is_dot (Entry.message r) /\ stops is_dot rest)
  /\ (~ matches_grammar (strip line) -> parse_log_line line = Ok None).
Proof.
  rewrite parse_log_line_cases. split.
  - intros Hg Hshort. apply LOG_PATTERN_match_iff in Hg.
    destruct (LOG_PATTERN_match (strip line)) as [[[[ts lvl] comp] msg]|] eqn:E;
      [|congruence].
    pose proof (stripped_message_nonempty _ _ _ _ _ E) as Hmsg.
    apply LOG_PATTERN_match_sound in E
      as (ws1 & ws2 & ws3 & rest & E & Hts & H1 & Hl & H2 & Hc & H3 & _ & Hd
          & Hr).
    assert (Hw : within_limit (search TIME_PATTERN_at msg) = true
                 /\ within_limit (search USER_ID_PATTERN_at msg) = true).
    { apply (short_numbers_within msg
               (ts ++ ws1 ++ lvl ++ ws2 ++ "["%char :: comp
                   ++ "]"%char :: ws3) rest).
      rewrite E in Hshort.
      repeat (rewrite <- app_assoc || rewrite <- app_comm_cons).
      exact Hshort. }
    destruct Hw as [-> ->]. cbn [andb].
    eexists. split; [reflexivity|]. simpl.
    repeat split; try apply Hl; try apply Hc; auto.
    exists ws1, ws2, ws3, rest. repeat split; try apply Hl; try apply Hc; auto.
  - intros Hg.
    destruct (LOG_PATTERN_match (strip line)) as [[[[ts lvl] comp] msg]|] eqn:E;
      [|reflexivity].
    exfalso. apply Hg, LOG_PATTERN_match_iff. congruence.
Qed.



Lemma short_numbers_short s :
  length s <= int_max_str_digits -> short_numbers s.
Proof.
  intros H pre g post -> _. rewrite !length_app in H. lia.
Qed.

Lemma parse_log_line_total_witness :
  (exists r, parse_log_line line_with_fields = Ok (Some r)
             /\ Entry.message r
                = lit "Query timeout after 5231ms user_id=4521")
  /\ parse_log_line line_without_bracket = Ok None.
Proof.
  split.
  - destruct (proj1 (parse_log_line_total line_with_fields))
      as (r & Hr & _).
    + apply LOG_PATTERN_match_iff. vm_compute. discriminate.
    + apply short_numbers_short, Nat.leb_le. vm_compute. reflexivity.
    + exists r. split; [exact Hr|].
      vm_compute in Hr. injection Hr as <-. reflexivity.
  - apply (proj2 (parse_log_line_total line_without_bracket)).
    intros H. apply LOG_PATTERN_match_iff in H. vm_compute in H.
    now apply H.
Defined.



(** C5, as stated, fails on the text of the line itself: a line that
    starts with white space does not match the grammar, whose time
    stamp is at the start, and yet it is parsed into a record. *)
Lemma parse_log_line_indented_counterexample :
  ~ matches_grammar line_indented
  /\ parse_log_line line_indented
     = Ok (Some {| Entry.timestamp := lit "2024-01-15 10:30:45";
                   Entry.level := lit "INFO";
                   Entry.component := lit "API";
                   Entry.message := lit "Request processed";
                   Entry.response_time := None;
                   Entry.user_id := None;
                   Entry.error_code := None |}).
Proof.
  split.
  - intros H. apply LOG_PATTERN_match_iff in H. vm_compute in H.
    now apply H.
  - vm_compute. reflexivity.
Qed.

(** A line that ends with the white space after the bracket is not
    parsed: [strip] removes that white space, and the pattern asks for
    some before the message. *)
Example parse_log_line_empty_message :
  LOG_PATTERN_match line_empty_message <> None
  /\ parse_log_line line_empty_message = Ok None.
Proof. split; vm_compute; [discriminate | reflexivity]. Qed.

(** The line of the example: the three extractions side by side. *)
Example parse_log_line_fields :
  parse_log_line line_with_fields
  = Ok (Some {| Entry.timestamp := lit "2024-01-15 10:30:45";
                Entry.level := lit "ERROR";
                Entry.component := lit "Database";
                Entry.message :=
                  lit "Query timeout after 5231ms user_id=4521";
                Entry.response_time := Some 5231%Z;
                Entry.user_id := Some 4521%Z;
                Entry.error_code := Some (lit "523") |}).
Proof. vm_compute. reflexivity. Qed.

(** A response time of 4301 digits: the line matches the grammar, and
    [int] raises. *)
Example parse_log_line_long_number :
  matches_grammar line_long_number
  /\ parse_log_line line_long_number = Raise ValueError.
Proof.
  split.
  - apply LOG_PATTERN_match_iff. vm_compute. discriminate.
  - vm_compute. reflexivity.
Qed.

Section SurroundingSpace.

Lemma drop_while_all p a b : all p a -> drop_while p (a ++ b) = drop_while p b.
Proof.
  induction 1 as [|c a Hc _ IH]; [reflexivity|]. simpl. now rewrite Hc.
Qed.

Lemma drop_while_split p s :
  exists a, s = a ++ drop_while p s /\ all p a.
Proof.
  induction s as [|c s (a & E & Ha)]; simpl.
  - exists []. split; [reflexivity | constructor].
  - destruct (p c) eqn:Hc.
    + exists (c :: a). split; [simpl; congruence | now constructor].
    + exists []. split; [reflexivity | constructor].
Qed.

Lemma all_rev p s : all p s -> all p (rev s).
Proof. intros H. apply Forall_forall. intros c Hc.
       apply in_rev in Hc. now apply (proj1 (Forall_forall _ _) H). Qed.

Lemma rstrip_suffix s ws : all is_space ws -> rstrip (s ++ ws) = rstrip s.
Proof.
  intros H. unfold rstrip. rewrite rev_app_distr.
  now rewrite (drop_while_all is_space (rev ws) (rev s) (all_rev _ _ H)).
Qed.

Lemma strip_surrounded ws1 s ws2 :
  all is_space ws1 -> all is_space ws2 -> strip (ws1 ++ s ++ ws2) = strip s.
Proof.
  intros H1 H2. unfold strip, lstrip.
  rewrite (drop_while_all is_space ws1 _ H1).
  induction s as [|c s IH]; simpl.
  - rewrite <- (app_nil_r ws2), (drop_while_all is_space ws2 [] H2).
    reflexivity.
  - destruct (is_space c); [exact IH|].
    change (c :: s ++ ws2) with ((c :: s) ++ ws2).
    now apply rstrip_suffix.
Qed.

(** What [strip] removes is white space at the two ends, all of it. *)
Lemma strip_spec s :
  exists ws1 ws2,
    s = ws1 ++ strip s ++ ws2
    /\ all is_space ws1 /\ all is_space ws2
    /\ stops is_space (strip s) /\ stops is_space (rev (strip s)).
Proof.
  destruct (drop_while_split is_space s) as (ws1 & E1 & H1).
  destruct (drop_while_split is_space (rev (lstrip s))) as (ws2 & E2 & H2).
  exists ws1, (rev ws2). unfold strip, rstrip.
  split; [|split; [exact H1|split; [now apply all_rev|apply strip_stops]]].
  rewrite <- rev_app_distr, <- E2, rev_involutive. exact E1.
Qed.

End SurroundingSpace.

(** C10.  White space around a line changes nothing: a line with
    white space added in front and behind, a line with the line feed
    that reading leaves at its end, and the line without its
    surrounding white space all give what the line gives, be it a
    record with its fields, no record, or an exception; and the line
    without its surrounding white space is the line less the white
    space at its two ends. *)
Theorem parse_log_line_strip (ws1 line ws2 : str) :
  all is_space ws1 -> all is_space ws2 ->
  parse_log_line (ws1 ++ line ++ ws2) = parse_log_line line
  /\ parse_log_line (with_newline line) = parse_log_line line
  /\ parse_log_line (strip line) = parse_log_line line
  /\ exists before behind,
       line = before ++ strip line ++ behind
       /\ all is_space before /\ all is_space behind
       /\ stops is_space (strip line)
       /\ stops is_space (rev (strip line)).
Proof.
  intros H1 H2. rewrite !parse_log_line_unfold.
  split; [now rewrite strip_surrounded|].
  split; [|split; [now rewrite strip_idempotent | apply strip_spec]].
  unfold with_newline.
  change (line ++ [newline]) with ([] ++ line ++ [newline]).
  rewrite (strip_surrounded [] line [newline]);
    [reflexivity | constructor | now repeat constructor].
Qed.

Lemma parse_log_line_strip_witness :
  parse_log_line (lit "  " ++ line_with_fields
                  ++ [" "%char; carriage_return; newline])
  = parse_log_line line_with_fields
  /\ parse_log_line (with_newline line_with_fields)
     = parse_log_line line_with_fields
  /\ parse_log_line (strip line_with_fields)
     = parse_log_line line_with_fields
  /\ exists before behind,
       line_with_fields = before ++ strip line_with_fields ++ behind
       /\ all is_space before /\ all is_space behind
       /\ stops is_space (strip line_with_fields)
       /\ stops is_space (rev (strip line_with_fields)).
Proof.
  apply (parse_log_line_strip (lit "  ") line_with_fields
           [" "%char; carriage_return; newline]);
    repeat constructor.
Defined.

(** C7.  In the record of a parsed line the error code is the first
    run of three digits of the message, and is missing exactly when
    the message has no three consecutive digits; the response time is
    the first integer immediately followed by [ms]; the user id is the
    first integer after [user_id=] or [user_id:].  Each of the three is
    fixed by the message alone. *)
Theorem extraction_spec (line : str) (r : Entry.t) :
  parse_log_line line = Ok (Some r) ->
  (forall g, Entry.error_code r = Some g
             <-> first_match three_digits (Entry.message r) g)
  /\ (Entry.error_code r = None
      <-> no_match three_digits (Entry.message r))
  /\ (forall n, Entry.response_time r = Some n
                <-> exists g, first_match digits_ms (Entry.message r) g
                              /\ n = int_of_digits g)
  /\ (Entry.response_time r = None
      <-> no_match digits_ms (Entry.message r))
  /\ (forall n, Entry.user_id r = Some n
                <-> exists g, first_match user_id_token (Entry.message r) g
                              /\ n = int_of_digits g)
  /\ (Entry.user_id r = None
      <-> no_match user_id_token (Entry.message r)).
Proof.
  intros H.
  apply parse_log_line_record in H as (ts & lvl & comp & msg & _ & ->).
  simpl.
  destruct (search_spec three_digits ERROR_CODE_PATTERN_at
              ERROR_CODE_PATTERN_at_spec msg) as [Hc1 Hc2].
  destruct (search_spec digits_ms TIME_PATTERN_at
              TIME_PATTERN_at_spec msg) as [Ht1 Ht2].
  destruct (search_spec user_id_token USER_ID_PATTERN_at
              USER_ID_PATTERN_at_spec msg) as [Hu1 Hu2].
  repeat split; try apply Hc1; try apply Hc2.
  - destruct (search TIME_PATTERN_at msg) as [g|] eqn:E; [|discriminate].
    simpl. intros H; injection H as <-. exists g. split; [now apply Ht1|auto].
  - intros (g & Hg & ->). apply Ht1 in Hg. now rewrite Hg.
  - intros H. apply Ht2. now destruct (search TIME_PATTERN_at msg).
  - intros H. apply Ht2 in H. now rewrite H.
  - destruct (search USER_ID_PATTERN_at msg) as [g|] eqn:E; [|discriminate].
    simpl. intros H; injection H as <-. exists g. split; [now apply Hu1|auto].
  - intros (g & Hg & ->). apply Hu1 in Hg. now rewrite Hg.
  - intros H. apply Hu2. now destruct (search USER_ID_PATTERN_at msg).
  - intros H. apply Hu2 in H. now rewrite H.
Qed.

Lemma extraction_spec_witness :
  exists r,
    parse_log_line line_with_fields = Ok (Some r)
    /\ first_match three_digits (Entry.message r) (lit "523")
    /\ Entry.response_time r = Some 5231%Z
    /\ Entry.user_id r = Some 4521%Z.
Proof.
  destruct (parse_log_line line_with_fields) as [[r|]|] eqn:E;
    try (vm_compute in E; discriminate).
  exists r. split; [reflexivity|].
  pose proof (extraction_spec line_with_fields r E) as (Hc & _).
  split; [apply Hc|]; vm_compute in E; injection E as <-;
    repeat split; reflexivity.
Defined.

(** ** Detection *)

Section DetectorFacts.

Lemma collect_snoc b e : collect (b ++ [e]) = collect_step (collect b) e.
Proof. unfold collect. now rewrite fold_left_app. Qed.

Lemma collect_errors b : errors (collect b) = filter is_error b.
Proof.
  induction b as [|e b IH] using rev_ind; [reflexivity|].
  rewrite collect_snoc, filter_app. simpl. rewrite IH.
  destruct (is_error e); [reflexivity | now rewrite app_nil_r].
Qed.

Lemma collect_slow_responses b : slow_responses (collect b) = filter is_slow b.
Proof.
  induction b as [|e b IH] using rev_ind; [reflexivity|].
  rewrite collect_snoc, filter_app. simpl. rewrite IH.
  destruct (is_slow e); [reflexivity | now rewrite app_nil_r].
Qed.

Lemma lookup_add_same c e m :
  lookup c (add_entry c e m) =
  Some (match lookup c m with Some es => es ++ [e] | None => [e] end).
Proof.
  induction m as [|[k es] m IH]; simpl.
  - now rewrite str_eqb_refl.
  - destruct (str_eqb k c) eqn:E; simpl; rewrite E; [reflexivity | exact IH].
Qed.

Lemma lookup_add_other c k e m :
  str_eqb c k = false -> lookup k (add_entry c e m) = lookup k m.
Proof.
  intros Hck. induction m as [|[k' es] m IH]; simpl.
  - now rewrite Hck.
  - destruct (str_eqb k' c) eqn:E; simpl.
    + apply str_eqb_eq in E; subst k'. now rewrite Hck.
    + now rewrite IH.
Qed.

Lemma lookup_None c m : lookup c m = None <-> ~ In c (map fst m).
Proof.
  induction m as [|[k es] m IH]; simpl; [tauto|].
  destruct (str_eqb k c) eqn:E.
  - apply str_eqb_eq in E. split; [discriminate | tauto].
  - apply str_eqb_neq in E. tauto.
Qed.

Lemma add_entry_keys c e m :
  map fst (add_entry c e m) =
  if existsb (str_eqb c) (map fst m) then map fst m else map fst m ++ [c].
Proof.
  induction m as [|[k es] m IH]; simpl; [reflexivity|].
  destruct (str_eqb k c) eqn:E; simpl.
  - apply str_eqb_eq in E; subst. now rewrite str_eqb_refl.
  - assert (E' : str_eqb c k = false).
    { apply str_eqb_neq. apply str_eqb_neq in E. congruence. }
    rewrite E', IH. simpl. now destruct (existsb (str_eqb c) (map fst m)).
Qed.

Lemma add_entry_NoDup c e m :
  NoDup (map fst m) -> NoDup (map fst (add_entry c e m)).
Proof.
  intros H. rewrite add_entry_keys.
  destruct (existsb (str_eqb c) (map fst m)) eqn:E; [exact H|].
  apply NoDup_app; [exact H | repeat constructor; easy |].
  intros x Hx [<- | []].
  assert (existsb (str_eqb c) (map fst m) = true); [|congruence].
  apply existsb_exists. exists c. split; [exact Hx | apply str_eqb_refl].
Qed.

(** The dictionary [by_component] maps every component of the batch to
    the records of that component, in their order, and has no other
    key. *)
Lemma by_component_spec b :
  NoDup (map fst (by_component (collect b)))
  /\ forall c,
       lookup c (by_component (collect b)) =
       match of_component c b with
       | [] => None
       | es => Some es
       end.
Proof.
  induction b as [|e b [IHn IHl]] using rev_ind.
  - split; [constructor | reflexivity].
  - rewrite collect_snoc. simpl. split; [now apply add_entry_NoDup|].
    intros c. unfold of_component. rewrite filter_app. simpl.
    destruct (str_eqb (Entry.component e) c) eqn:E.
    + apply str_eqb_eq in E; subst c.
      rewrite lookup_add_same, IHl. unfold of_component.
      destruct (filter _ b); reflexivity.
    + rewrite (lookup_add_other _ _ _ _ E), IHl, app_nil_r. reflexivity.
Qed.

(** The issue that the loop over the components appends for the
    component [c] with records [es]. *)
Lemma high_error_rate_of_cases c es :
  exists d,
    high_error_rate_of (c, es) =
    if PrimFloat.ltb 10 (error_rate (count_errors es) (length es)) then
      [ {| Issue.issue_type := HIGH_ERROR_RATE;
           Issue.severity :=
             if PrimFloat.ltb 20 (error_rate (count_errors es) (length es))
             then HIGH else MEDIUM;
           Issue.description := d;
           Issue.component := c;
           Issue.occurrence_count := Z.of_nat (count_errors es) |} ]
    else [].
Proof.
  eexists. unfold high_error_rate_of, count_errors.
  destruct (PrimFloat.ltb 10 _); reflexivity.
Qed.

Lemma high_error_rate_of_In c es i :
  In i (high_error_rate_of (c, es)) ->
  Issue.issue_type i = HIGH_ERROR_RATE /\ Issue.component i = c.
Proof.
  destruct (high_error_rate_of_cases c es) as [d ->].
  destruct (PrimFloat.ltb 10 _); [|intros []].
  intros [<- | []]. split; reflexivity.
Qed.

Lemma high_error_rate_In m i :
  In i (high_error_rate m) ->
  Issue.issue_type i = HIGH_ERROR_RATE /\ In (Issue.component i) (map fst m).
Proof.
  unfold high_error_rate. intros H. apply in_flat_map in H as ([k es] & Hk & Hi).
  apply high_error_rate_of_In in Hi as [Ht Hc]. split; [exact Ht|].
  subst k. apply in_map_iff. now exists (Issue.component i, es).
Qed.

Lemma filter_all {A} (f : A -> bool) l :
  (forall x, In x l -> f x = true) -> filter f l = l.
Proof.
  induction l as [|x l IH]; simpl; intros H; [reflexivity|].
  rewrite (H x (or_introl eq_refl)), IH; auto.
Qed.

Lemma filter_none {A} (f : A -> bool) l :
  (forall x, In x l -> f x = false) -> filter f l = [].
Proof.
  induction l as [|x l IH]; simpl; intros H; [reflexivity|].
  rewrite (H x (or_introl eq_refl)), IH; auto.
Qed.

Lemma about_high_error_rate c m :
  NoDup (map fst m) ->
  about HIGH_ERROR_RATE c (high_error_rate m) =
  match lookup c m with
  | Some es => high_error_rate_of (c, es)
  | None => []
  end.
Proof.
  unfold about, high_error_rate.
  induction m as [|[k es] m IH]; simpl; intros Hnd; [reflexivity|].
  inversion Hnd as [|? ? Hk Hnd']; subst. rewrite filter_app.
  destruct (str_eqb k c) eqn:E.
  - apply str_eqb_eq in E; subst k.
    rewrite filter_all, (IH Hnd').
    + apply lookup_None in Hk. rewrite Hk. apply app_nil_r.
    + intros i Hi. apply high_error_rate_of_In in Hi as [-> ->].
      now rewrite !str_eqb_refl.
  - rewrite filter_none, (IH Hnd'); [reflexivity|].
    intros i Hi. apply high_error_rate_of_In in Hi as [_ ->].
    rewrite E. apply andb_false_r.
Qed.


Lemma of_type_other_high_error_rate ty m :
  str_eqb HIGH_ERROR_RATE ty = false -> of_type ty (high_error_rate m) = [].
Proof.
  intros H. apply filter_none. intros i Hi.
  apply high_error_rate_In in Hi as [-> _]. exact H.
Qed.

Lemma of_type_app ty l1 l2 :
  of_type ty (l1 ++ l2) = of_type ty l1 ++ of_type ty l2.
Proof. apply filter_app. Qed.

Lemma of_type_database_timeout ty es :
  of_type ty (database_timeout es) =
  if str_eqb DATABASE_TIMEOUT ty then database_timeout es else [].
Proof.
  unfold database_timeout, of_type.
  destruct (0 <? _)%nat; cbn [filter Issue.issue_type];
    now destruct (str_eqb DATABASE_TIMEOUT ty).
Qed.

Lemma of_type_slow_response_time ty es :
  of_type ty (slow_response_time es) =
  if str_eqb SLOW_RESPONSE_TIME ty then slow_response_time es else [].
Proof.
  unfold slow_response_time, of_type.
  destruct (0 <? _)%nat; cbn [filter Issue.issue_type];
    now destruct (str_eqb SLOW_RESPONSE_TIME ty).
Qed.

Lemma of_type_authentication_failures ty es :
  of_type ty (authentication_failures es) =
  if str_eqb AUTHENTICATION_FAILURES ty then authentication_failures es
  else [].
Proof.
  unfold authentication_failures, of_type.
  destruct (5 <? _)%nat; cbn [filter Issue.issue_type];
    now destruct (str_eqb AUTHENTICATION_FAILURES ty).
Qed.

Lemma of_type_issues_to_insert ty b :
  of_type ty (issues_to_insert b) =
  of_type ty (high_error_rate (by_component (collect b)))
  ++ (if str_eqb DATABASE_TIMEOUT ty
      then database_timeout (filter is_error b) else [])
  ++ (if str_eqb SLOW_RESPONSE_TIME ty
      then slow_response_time (filter is_slow b) else [])
  ++ (if str_eqb AUTHENTICATION_FAILURES ty
      then authentication_failures (filter is_error b) else []).
Proof.
  unfold issues_to_insert. rewrite !of_type_app.
  now rewrite of_type_database_timeout, of_type_slow_response_time,
    of_type_authentication_failures, collect_errors, collect_slow_responses.
Qed.

Lemma about_of_type ty c l :
  about ty c l = filter (fun i => str_eqb (Issue.component i) c) (of_type ty l).
Proof.
  unfold about, of_type. induction l as [|i l IH]; simpl; [reflexivity|].
  destruct (str_eqb (Issue.issue_type i) ty); simpl; rewrite IH;
    reflexivity.
Qed.





Lemma about_issues_to_insert c b :
  about HIGH_ERROR_RATE c (issues_to_insert b)
  = high_error_rate_of (c, of_component c b).
Proof.
  destruct (by_component_spec b) as [Hnd Hl].
  rewrite about_of_type, of_type_issues_to_insert.
  cbn [str_eqb DATABASE_TIMEOUT SLOW_RESPONSE_TIME AUTHENTICATION_FAILURES
       HIGH_ERROR_RATE lit list_ascii_of_string Ascii.eqb Bool.eqb andb].
  rewrite !app_nil_r, <- about_of_type, (about_high_error_rate _ _ Hnd), Hl.
  destruct (of_component c b) eqn:E; [|reflexivity].
  destruct (high_error_rate_of_cases c []) as [d ->]. reflexivity.
Qed.


Lemma filter_filter {A} (f g : A -> bool) l :
  filter g (filter f l) = filter (fun x => f x && g x) l.
Proof.
  induction l as [|x l IH]; simpl; [reflexivity|].
  destruct (f x); simpl; [destruct (g x)|]; now rewrite IH.
Qed.



Lemma of_type_authentication b :
  of_type AUTHENTICATION_FAILURES (issues_to_insert b)
  = authentication_failures (filter is_error b).
Proof.
  rewrite of_type_issues_to_insert.
  rewrite of_type_other_high_error_rate by reflexivity. reflexivity.
Qed.

Lemma of_type_database b :
  of_type DATABASE_TIMEOUT (issues_to_insert b)
  = database_timeout (filter is_error b).
Proof.
  rewrite of_type_issues_to_insert.
  rewrite of_type_other_high_error_rate by reflexivity.
  cbn [str_eqb DATABASE_TIMEOUT SLOW_RESPONSE_TIME AUTHENTICATION_FAILURES
       lit list_ascii_of_string Ascii.eqb Bool.eqb andb].
  now rewrite !app_nil_r.
Qed.

Lemma of_type_slow b :
  of_type SLOW_RESPONSE_TIME (issues_to_insert b)
  = slow_response_time (filter is_slow b).
Proof.
  rewrite of_type_issues_to_insert.
  rewrite of_type_other_high_error_rate by reflexivity.
  cbn [str_eqb DATABASE_TIMEOUT SLOW_RESPONSE_TIME AUTHENTICATION_FAILURES
       lit list_ascii_of_string Ascii.eqb Bool.eqb andb].
  now rewrite !app_nil_r.
Qed.

Lemma authentication_failures_cases es :
  exists d,
    authentication_failures es =
    if 5 <? length (filter is_auth_failure es) then
      [ {| Issue.issue_type := AUTHENTICATION_FAILURES;
           Issue.severity := HIGH;
           Issue.description := d;
           Issue.component := lit "Auth";
           Issue.occurrence_count :=
             Z.of_nat (length (filter is_auth_failure es)) |} ]
    else [].
Proof.
  eexists. unfold authentication_failures.
  destruct (5 <? _); reflexivity.
Qed.

End DetectorFacts.




(** The text of the issue for 11 ERROR records out of 100. *)
Example high_error_rate_description :
  map Issue.description (issues_to_insert (batch_of_X 11 100))
  = [ lit "X has 11.0% error rate (11/100 entries)" ].
Proof. vm_compute. reflexivity. Qed.



(** C6, as amended.  A batch gets at most one issue of each of the
    types Database Timeout, Slow Response Time and Authentication
    Failures, and at most one issue of type High Error Rate for each
    component; every issue is of one of the four types. *)
Theorem one_issue_per_heuristic (batch : list Entry.t) :
  length (of_type DATABASE_TIMEOUT (issues_to_insert batch)) <= 1
  /\ length (of_type SLOW_RESPONSE_TIME (issues_to_insert batch)) <= 1
  /\ length (of_type AUTHENTICATION_FAILURES (issues_to_insert batch)) <= 1
  /\ (forall c,
        length (about HIGH_ERROR_RATE c (issues_to_insert batch)) <= 1)
  /\ (forall i,
        In i (issues_to_insert batch) ->
        In (Issue.issue_type i)
           [HIGH_ERROR_RATE; DATABASE_TIMEOUT; SLOW_RESPONSE_TIME;
            AUTHENTICATION_FAILURES]).
Proof.
  repeat split.
  - rewrite of_type_database. unfold database_timeout.
    destruct (0 <? _); simpl; lia.
  - rewrite of_type_slow. unfold slow_response_time.
    destruct (0 <? _); simpl; lia.
  - rewrite of_type_authentication. unfold authentication_failures.
    destruct (5 <? _); simpl; lia.
  - intros c. rewrite about_issues_to_insert.
    destruct (high_error_rate_of_cases c (of_component c batch)) as [d ->].
    destruct (PrimFloat.ltb 10 _); simpl; lia.
  - intros i Hi. unfold issues_to_insert in Hi.
    repeat (apply in_app_or in Hi as [Hi | Hi]).
    + apply high_error_rate_In in Hi as [-> _]. simpl; auto.
    + unfold database_timeout in Hi.
      destruct (0 <? _); [|destruct Hi]. destruct Hi as [<- | []].
      simpl; auto.
    + unfold slow_response_time in Hi.
      destruct (0 <? _); [|destruct Hi]. destruct Hi as [<- | []].
      simpl; auto.
    + unfold authentication_failures in Hi.
      destruct (5 <? _); [|destruct Hi]. destruct Hi as [<- | []].
      simpl; auto.
Qed.

Lemma one_issue_per_heuristic_witness :
  length (about HIGH_ERROR_RATE (lit "Cache")
            (issues_to_insert batch_two_components)) <= 1
  /\ match issues_to_insert batch_two_components with
     | i :: _ =>
         In (Issue.issue_type i)
            [HIGH_ERROR_RATE; DATABASE_TIMEOUT; SLOW_RESPONSE_TIME;
             AUTHENTICATION_FAILURES]
     | [] => False
     end.
Proof.
  pose proof (one_issue_per_heuristic batch_two_components)
    as (_ & _ & _ & Hc & Hi).
  split; [apply Hc|].
  destruct (issues_to_insert batch_two_components) as [|i l] eqn:E.
  - vm_compute in E. discriminate.
  - apply Hi. now left.
Defined.

(** C6, as stated, fails: a batch with ERROR records of two components
    gets two issues of type High Error Rate. *)
Lemma two_high_error_rate_issues :
  map Issue.component
      (of_type HIGH_ERROR_RATE (issues_to_insert batch_two_components))
  = [ lit "Cache"; lit "Queue" ].
Proof. vm_compute. reflexivity. Qed.

(** ** The table of issues *)

Section StoreFacts.

Lemma latest_None rs : latest rs = None <-> rs = [].
Proof.
  destruct rs as [|r rs]; simpl; [tauto|].
  split; [|discriminate].
  destruct (latest rs) as [r'|]; [|discriminate].
  destruct (Row.last_seen r <? Row.last_seen r')%Z; discriminate.
Qed.

(** [latest] returns a row of the list, and none of the list was seen
    later. *)
Lemma latest_Some rs r :
  latest rs = Some r ->
  In r rs /\ forall r', In r' rs -> (Row.last_seen r' <= Row.last_seen r)%Z.
Proof.
  revert r; induction rs as [|x rs IH]; simpl; intros r H; [discriminate|].
  destruct (latest rs) as [m|] eqn:E.
  - destruct (IH m eq_refl) as [Hin Hmax].
    destruct (Row.last_seen x <? Row.last_seen m)%Z eqn:Hlt;
      injection H as <-.
    + apply Z.ltb_lt in Hlt. split; [now right|].
      intros r' [<- | Hr']; [lia | now apply Hmax].
    + apply Z.ltb_ge in Hlt. split; [now left|].
      intros r' [<- | Hr']; [lia|]. specialize (Hmax r' Hr'). lia.
  - injection H as <-. apply latest_None in E; subst rs.
    split; [now left|]. intros r' [<- | []]. lia.
Qed.

Lemma select_existing_None issue t :
  select_existing issue t = None <->
  filter (is_open_for (Issue.issue_type issue) (Issue.component issue))
         (rows t) = [].
Proof. apply latest_None. Qed.

Lemma select_existing_Some issue t r :
  select_existing issue t = Some r ->
  In r (rows t)
  /\ is_open_for (Issue.issue_type issue) (Issue.component issue) r = true
  /\ forall r',
       In r' (rows t) ->
       is_open_for (Issue.issue_type issue) (Issue.component issue) r' = true ->
       (Row.last_seen r' <= Row.last_seen r)%Z.
Proof.
  intros H. apply latest_Some in H as [Hin Hmax].
  apply filter_In in Hin as [Hin Hopen]. repeat split; auto.
  intros r' Hr' Ho. apply Hmax. apply filter_In. now split.
Qed.

Lemma update_row_open now id n issue ty c r :
  is_open_for ty c (update_row now id n issue r) = is_open_for ty c r.
Proof. unfold update_row. now destruct (Row.id r =? id)%Z. Qed.

Lemma filter_map_same {A} (f : A -> bool) (g : A -> A) l :
  (forall x, f (g x) = f x) -> filter f (map g l) = map g (filter f l).
Proof.
  intros H. induction l as [|x l IH]; simpl; [reflexivity|].
  rewrite H. destruct (f x); simpl; now rewrite IH.
Qed.

Lemma is_open_for_keys ty c r :
  is_open_for ty c r = true ->
  Row.issue_type r = ty /\ Row.component r = c /\ Row.resolved r = false.
Proof.
  unfold is_open_for. rewrite !andb_true_iff, !str_eqb_eq, negb_true_iff.
  tauto.
Qed.

Lemma reconcile_dedup now t issue : dedup t -> dedup (reconcile now t issue).
Proof.
  intros Hd ty c. unfold reconcile.
  destruct (select_existing issue t) as [existing|] eqn:E; simpl.
  - rewrite filter_map_same by (intros; apply update_row_open).
    rewrite length_map. apply Hd.
  - apply select_existing_None in E. rewrite filter_app, length_app. simpl.
    destruct (is_open_for ty c (new_row now (next_id t) issue)) eqn:Hn.
    + apply is_open_for_keys in Hn as (<- & <- & _). simpl.
      rewrite E. simpl. lia.
    + simpl. specialize (Hd ty c). lia.
Qed.

Lemma reconcile_all_dedup ops t : dedup t -> dedup (reconcile_all ops t).
Proof.
  unfold reconcile_all. revert t.
  induction ops as [|[now issue] ops IH]; simpl; intros t H; [exact H|].
  apply IH. now apply reconcile_dedup.
Qed.

Lemma insert_issues_fold now issues t :
  insert_issues now issues t = fold_left (reconcile now) issues t.
Proof. now destruct issues. Qed.

Lemma insert_issues_dedup now issues t :
  dedup t -> dedup (insert_issues now issues t).
Proof.
  rewrite insert_issues_fold. revert t.
  induction issues as [|i issues IH]; simpl; intros t H; [exact H|].
  apply IH. now apply reconcile_dedup.
Qed.

(** Updating by [id] touches one row when [id] is a key. *)
Lemma map_update_row_absent now id n issue l :
  ~ In id (map Row.id l) -> map (update_row now id n issue) l = l.
Proof.
  induction l as [|r l IH]; simpl; intros H; [reflexivity|].
  rewrite IH by tauto. unfold update_row.
  destruct (Row.id r =? id)%Z eqn:E; [|reflexivity].
  apply Z.eqb_eq in E. tauto.
Qed.

Lemma update_row_self now issue existing :
  update_row now (Row.id existing)
    (Row.occurrence_count existing + Issue.occurrence_count issue) issue
    existing
  = merged now issue existing.
Proof. unfold update_row. now rewrite Z.eqb_refl. Qed.

Lemma reconcile_fresh_ids now t issue :
  fresh_ids t -> fresh_ids (reconcile now t issue).
Proof.
  intros [Hnd Hlt]. unfold reconcile.
  destruct (select_existing issue t) as [existing|]; simpl.
  - assert (Hid : forall l,
              map Row.id (map (update_row now (Row.id existing)
                (Row.occurrence_count existing + Issue.occurrence_count issue)
                issue) l) = map Row.id l).
    { induction l as [|r l IH]; simpl; [reflexivity|]. rewrite IH.
      unfold update_row. now destruct (Row.id r =? Row.id existing)%Z. }
    split; simpl.
    + now rewrite Hid.
    + apply Forall_map. eapply Forall_impl; [|exact Hlt].
      intros r Hr. unfold update_row.
      now destruct (Row.id r =? Row.id existing)%Z.
  - split; simpl.
    + rewrite map_app. simpl. apply NoDup_app; [exact Hnd | repeat constructor; easy |].
      intros x Hx [<- | []]. apply in_map_iff in Hx as (r & Hr & Hin).
      rewrite Forall_forall in Hlt. specialize (Hlt r Hin). lia.
    + apply Forall_app. split.
      * eapply Forall_impl; [|exact Hlt]. simpl. intros; lia.
      * repeat constructor. simpl. lia.
Qed.

End StoreFacts.

Lemma reconcile_existing now t issue existing :
  select_existing issue t = Some existing ->
  reconcile now t issue =
  {| rows :=
       map (update_row now (Row.id existing)
              (Row.occurrence_count existing + Issue.occurrence_count issue)
              issue) (rows t);
     next_id := next_id t |}.
Proof. unfold reconcile. now intros ->. Qed.

Lemma reconcile_missing now t issue :
  select_existing issue t = None ->
  reconcile now t issue =
  {| rows := rows t ++ [new_row now (next_id t) issue];
     next_id := (next_id t + 1)%Z |}.
Proof. unfold reconcile. now intros ->. Qed.

(** C1.  When the table, of which [id] is a key, has an unresolved row
    with the issue type and component of the observation, [reconcile]
    adds no row: the most
    recently seen such row gets its count increased by the count of the
    observation, its last-seen time set to the current time and its
    severity and description replaced by those of the observation; its
    id, issue type, component, first-seen time and resolved flag stay,
    and so does every other row.  Two observations of database
    timeouts with counts 3 and 2, reconciled one after the other into
    a table without such a row, leave one new row with count 5, first
    seen at the first time and last seen at the second. *)
Theorem reconcile_merges :
  (forall now t issue,
     NoDup (map Row.id (rows t)) ->
     filter (is_open_for (Issue.issue_type issue) (Issue.component issue))
            (rows t) <> [] ->
     exists pre existing post,
       rows t = pre ++ existing :: post
       /\ is_open_for (Issue.issue_type issue) (Issue.component issue)
            existing = true
       /\ (forall r,
             In r (rows t) ->
             is_open_for (Issue.issue_type issue) (Issue.component issue) r
               = true ->
             (Row.last_seen r <= Row.last_seen existing)%Z)
       /\ rows (reconcile now t issue)
          = pre ++ merged now issue existing :: post
       /\ next_id (reconcile now t issue) = next_id t)
  /\ (forall now1 now2 t o1 o2,
        fresh_ids t ->
        filter (is_open_for DATABASE_TIMEOUT (lit "Database")) (rows t) = [] ->
        Issue.issue_type o1 = DATABASE_TIMEOUT ->
        Issue.component o1 = lit "Database" ->
        Issue.occurrence_count o1 = 3%Z ->
        Issue.issue_type o2 = DATABASE_TIMEOUT ->
        Issue.component o2 = lit "Database" ->
        Issue.occurrence_count o2 = 2%Z ->
        rows (reconcile now2 (reconcile now1 t o1) o2)
        = rows t ++
          [ {| Row.id := next_id t;
               Row.issue_type := DATABASE_TIMEOUT;
               Row.severity := Issue.severity o2;
               Row.description := Issue.description o2;
               Row.component := lit "Database";
               Row.first_seen := now1;
               Row.last_seen := now2;
               Row.occurrence_count := 5;
               Row.resolved := false |} ]).
Proof.
  split.
  - intros now t issue Hnd Hopen.
    destruct (select_existing issue t) as [existing|] eqn:E;
      [|apply select_existing_None in E; contradiction].
    destruct (select_existing_Some _ _ _ E) as (Hin & Ho & Hmax).
    destruct (in_split _ _ Hin) as (pre & post & Hrows).
    exists pre, existing, post. rewrite (reconcile_existing now _ _ _ E).
    simpl. repeat split; auto.
    rewrite Hrows in Hnd |- *. rewrite map_app in Hnd. simpl in Hnd.
    pose proof (NoDup_remove_2 _ _ _ Hnd) as Hnot.
    rewrite map_app. simpl. rewrite update_row_self.
    rewrite !map_update_row_absent; [reflexivity | |];
      intros H; apply Hnot, in_or_app; auto.
  - intros now1 now2 t o1 o2 [Hnd Hlt] Hnone Ht1 Hc1 Hn1 Ht2 Hc2 Hn2.
    assert (E1 : select_existing o1 t = None)
      by (apply select_existing_None; now rewrite Ht1, Hc1).
    rewrite (reconcile_missing now1 _ _ E1).
    assert (E2 : select_existing o2
                   {| rows := rows t ++ [new_row now1 (next_id t) o1];
                      next_id := (next_id t + 1)%Z |}
                 = Some (new_row now1 (next_id t) o1)).
    { unfold select_existing. simpl. rewrite filter_app, Ht2, Hc2, Hnone.
      simpl. unfold is_open_for. simpl. rewrite Ht1, Hc1.
      now rewrite !str_eqb_refl. }
    rewrite (reconcile_existing now2 _ _ _ E2). cbn [rows].
    rewrite map_app. cbn [map]. rewrite update_row_self.
    rewrite map_update_row_absent.
    + unfold merged. simpl. now rewrite Ht1, Hc1, Hn1, Hn2.
    + simpl. intros H. apply in_map_iff in H as (r & Hr & Hin).
      rewrite Forall_forall in Hlt. specialize (Hlt r Hin). lia.
Qed.

Lemma empty_table_fresh : fresh_ids empty_table.
Proof. split; constructor. Qed.

Lemma reconcile_merges_witness :
  rows (reconcile 20 (reconcile 10 empty_table (timeout_observation HIGH 3))
          (timeout_observation CRITICAL 2))
  = [ {| Row.id := 1;
         Row.issue_type := DATABASE_TIMEOUT;
         Row.severity := CRITICAL;
         Row.description := lit "Database timeouts detected";
         Row.component := lit "Database";
         Row.first_seen := 10;
         Row.last_seen := 20;
         Row.occurrence_count := 5;
         Row.resolved := false |} ]
  /\ exists pre existing post,
       rows (reconcile 10 empty_table (timeout_observation HIGH 3))
       = pre ++ existing :: post
       /\ rows (reconcile 20
                  (reconcile 10 empty_table (timeout_observation HIGH 3))
                  (timeout_observation CRITICAL 2))
          = pre ++ merged 20 (timeout_observation CRITICAL 2) existing :: post.
Proof.
  split.
  - apply (proj2 reconcile_merges 10%Z 20%Z empty_table
             (timeout_observation HIGH 3) (timeout_observation CRITICAL 2));
      try reflexivity.
    apply empty_table_fresh.
  - destruct (proj1 reconcile_merges 20%Z
                (reconcile 10 empty_table (timeout_observation HIGH 3))
                (timeout_observation CRITICAL 2))
      as (pre & existing & post & H1 & _ & _ & H2 & _).
    + vm_compute. repeat constructor. intros [].
    + vm_compute. discriminate.
    + now exists pre, existing, post.
Defined.

(** C2.  Starting from a table with at most one unresolved row for each
    issue type and component, every sequence of reconciliations leaves
    a table with that property.  One reconciliation adds a row only
    when the table has no unresolved row with the issue type and
    component of the observation; otherwise it updates rows in place
    and the table keeps its length. *)
Theorem reconcile_keeps_dedup (t : Table) :
  dedup t ->
  (forall ops, dedup (reconcile_all ops t))
  /\ (forall now issues, dedup (insert_issues now issues t))
  /\ (forall now issue,
        (filter (is_open_for (Issue.issue_type issue) (Issue.component issue))
                (rows t) = [] ->
         rows (reconcile now t issue)
         = rows t ++ [new_row now (next_id t) issue])
        /\ (filter (is_open_for (Issue.issue_type issue)
                                (Issue.component issue)) (rows t) <> [] ->
            exists existing,
              In existing (rows t)
              /\ is_open_for (Issue.issue_type issue) (Issue.component issue)
                   existing = true
              /\ rows (reconcile now t issue)
                 = map (update_row now (Row.id existing)
                          (Row.occurrence_count existing
                           + Issue.occurrence_count issue) issue) (rows t)
              /\ length (rows (reconcile now t issue)) = length (rows t))).
Proof.
  intros Hd. split; [|split].
  - intros ops. now apply reconcile_all_dedup.
  - intros now issues. now apply insert_issues_dedup.
  - intros now issue. split; intros H.
    + apply select_existing_None in H.
      now rewrite (reconcile_missing now _ _ H).
    + destruct (select_existing issue t) as [existing|] eqn:E;
        [|apply select_existing_None in E; contradiction].
      destruct (select_existing_Some _ _ _ E) as (Hin & Ho & _).
      exists existing. rewrite (reconcile_existing now _ _ _ E). simpl.
      repeat split; auto. apply length_map.
Qed.

Lemma empty_table_dedup : dedup empty_table.
Proof. intros ty c. simpl. lia. Qed.

Lemma reconcile_keeps_dedup_witness :
  dedup (reconcile_all
           [ (10%Z, timeout_observation HIGH 3);
             (20%Z, timeout_observation CRITICAL 2) ] empty_table)
  /\ rows (reconcile 10 empty_table (timeout_observation HIGH 3))
     = [ new_row 10 1 (timeout_observation HIGH 3) ].
Proof.
  split.
  - apply (proj1 (reconcile_keeps_dedup empty_table empty_table_dedup)).
  - apply (proj1 (proj2 (proj2 (reconcile_keeps_dedup empty_table
                                  empty_table_dedup))
                    10%Z (timeout_observation HIGH 3))).
    reflexivity.
Defined.

(** ** Tailing *)

Section TailFacts.

Lemma translate_newlines_cons c s :
  translate_newlines (c :: s) =
  if is_char carriage_return c then
    match s with
    | n :: s'' =>
        if is_char newline n then newline :: translate_newlines s''
        else newline :: translate_newlines s
    | [] => [newline]
    end
  else c :: translate_newlines s.
Proof. reflexivity. Qed.

Lemma split_lines_cons cur c s :
  split_lines cur (c :: s) =
  if is_char newline c then (cur ++ [c]) :: split_lines [] s
  else split_lines (cur ++ [c]) s.
Proof. reflexivity. Qed.

Lemma translate_newlines_plain s :
  ~ In carriage_return s -> translate_newlines s = s.
Proof.
  induction s as [|c s IH]; intros H; [reflexivity|].
  rewrite translate_newlines_cons.
  destruct (is_char carriage_return c) eqn:E.
  - apply Ascii.eqb_eq in E. exfalso. apply H. now left.
  - rewrite IH; [reflexivity|]. intros Hin. apply H. now right.
Qed.

Lemma split_lines_line cur l rest :
  ~ In newline l ->
  split_lines cur (l ++ newline :: rest)
  = (cur ++ l ++ [newline]) :: split_lines [] rest.
Proof.
  revert cur; induction l as [|c l IH]; intros cur H.
  - cbn [app]. rewrite split_lines_cons. unfold is_char.
    now rewrite Ascii.eqb_refl.
  - cbn [app]. rewrite split_lines_cons.
    destruct (is_char newline c) eqn:E.
    + apply Ascii.eqb_eq in E. exfalso. apply H. now left.
    + rewrite IH by (intros Hin; apply H; now right).
      now rewrite <- app_assoc.
Qed.

Lemma file_text_no_cr ls :
  Forall plain_line ls -> ~ In carriage_return (file_text ls).
Proof.
  unfold file_text. induction 1 as [|l ls [_ Hl] _ IH]; simpl; [tauto|].
  unfold with_newline. rewrite !in_app_iff. simpl.
  intros [[H | [H | []]] | H]; try tauto. discriminate.
Qed.

Lemma readlines_file_text ls :
  Forall plain_line ls -> readlines (file_text ls) = map with_newline ls.
Proof.
  intros H. unfold readlines.
  rewrite translate_newlines_plain by now apply file_text_no_cr.
  unfold file_text. induction H as [|l ls [Hl _] _ IH]; simpl; [reflexivity|].
  unfold with_newline at 1. rewrite <- app_assoc. simpl.
  rewrite split_lines_line by exact Hl. now rewrite IH.
Qed.

Lemma file_text_length ls : ls <> [] -> 0 < length (file_text ls).
Proof.
  destruct ls as [|l ls]; [contradiction|]. intros _.
  unfold file_text, with_newline. simpl. rewrite !length_app. simpl. lia.
Qed.

End TailFacts.

(** C8.  [tail_file] at an offset within an existing file returns the
    lines of the text after the offset and the size of the file.
    Called at the end of the file it returns no line and the same
    offset; called at that offset after lines have been appended it
    returns exactly these lines and the new size, which is larger.  On
    a path with no file it returns no line and the offset it was
    given. *)
Theorem tail_file_spec (fs : FileSystem) (path content : str)
    (ls : list str) :
  fs path = Some content ->
  Forall plain_line ls ->
  (forall offset,
     offset <= length content ->
     tail_file fs path offset
     = (readlines (skipn offset content), length content))
  /\ tail_file fs path (length content) = ([], length content)
  /\ tail_file (append_file fs path (file_text ls)) path (length content)
     = (map with_newline ls, length content + length (file_text ls))
  /\ (ls <> [] -> length content < length content + length (file_text ls))
  /\ (forall missing offset,
        fs missing = None -> tail_file fs missing offset = ([], offset)).
Proof.
  intros Hfs Hls. repeat split.
  - intros offset Ho. unfold tail_file. rewrite Hfs.
    now rewrite Nat.max_r.
  - unfold tail_file. rewrite Hfs, skipn_all, Nat.max_id. reflexivity.
  - unfold tail_file, append_file. rewrite str_eqb_refl, Hfs.
    rewrite skipn_app, skipn_all, Nat.sub_diag. simpl.
    rewrite readlines_file_text by exact Hls.
    rewrite length_app. f_equal. lia.
  - intros Hne. pose proof (file_text_length ls Hne). lia.
  - intros missing offset Hm. unfold tail_file. now rewrite Hm.
Qed.

Lemma tail_file_spec_witness :
  tail_file (one_file day1 (file_text [line_with_fields])) day1 77
  = ([], 77)
  /\ tail_file (append_file (one_file day1 (file_text [line_with_fields]))
                  day1
                  (file_text [line_without_bracket; line_indented;
                              line_with_fields]))
       day1 77
     = ([with_newline line_without_bracket; with_newline line_indented;
         with_newline line_with_fields], 248)
  /\ tail_file (one_file day1 (file_text [line_with_fields])) day2 77
     = ([], 77).
Proof.
  destruct (tail_file_spec (one_file day1 (file_text [line_with_fields]))
              day1 (file_text [line_with_fields])
              [line_without_bracket; line_indented; line_with_fields])
    as (_ & H1 & H2 & _ & H3).
  - reflexivity.
  - repeat constructor; vm_compute; intros H;
      repeat (destruct H as [H | H]; [discriminate|]); exact H.
  - split; [exact H1 | split; [exact H2 | now apply H3]].
Defined.

(** ** The loop *)

Section LoopFacts.

Variable cfg : Config.

(** The offset that a cycle reads from. *)
Lemma cycle_reads (w : World) (st : State) (log_file : str) :
  get_latest_log_file cfg (listing w) = Some log_file ->
  log_file <> [] ->
  event_of_cycle_is
    (cycle cfg w st)
    (Read log_file
       (if differs log_file (current_file st) then 0 else last_position st))
    (if differs log_file (current_file st) then Some log_file
     else current_file st).
Proof.
  intros Hlatest Hne. unfold cycle, event_of_cycle_is. rewrite Hlatest.
  destruct log_file as [|c log_file]; [contradiction|].
  destruct (differs (c :: log_file) (current_file st));
    destruct (tail_file _ _ _) as [new_lines pos];
    destruct (parse_all new_lines) as [[|e es]|]; split; reflexivity.
Qed.

Lemma cycle_waits_or_reads (w : World) (st : State) :
  (snd (cycle cfg w st) = Waiting /\ fst (cycle cfg w st) = st)
  \/ exists log_file,
       get_latest_log_file cfg (listing w) = Some log_file
       /\ log_file <> [].
Proof.
  unfold cycle.
  destruct (get_latest_log_file cfg (listing w)) as [[|c p]|];
    [now left | right | now left].
  exists (c :: p). split; [reflexivity | discriminate].
Qed.

Lemma differs_spec log_file current :
  differs log_file current = true <-> current <> Some log_file.
Proof.
  destruct current as [c|]; simpl.
  - rewrite negb_true_iff, str_eqb_neq. split; congruence.
  - split; [discriminate | reflexivity].
Qed.

Lemma run_steps (ws : list World) (st : State) :
  Forall (fun step =>
            exists w,
              cycle cfg w (before step) = (after step, event step))
         (run cfg ws st).
Proof.
  revert st; induction ws as [|w ws IH]; intros st; simpl; [constructor|].
  destruct (cycle cfg w st) as [st' ev] eqn:E.
  constructor; [simpl; now exists w|].
  destruct (stopped st'); [constructor | apply IH].
Qed.

End LoopFacts.

(** C9.  In a cycle in which the latest log file is not the file the
    loop was tracking, [tail_file] is called on the latest file with
    offset 0 and the latest file becomes the tracked one, whatever the
    offset was before.  So in every run of the loop, a read of a file
    that was not the tracked one starts at offset 0; the stored offset
    is used only for the file it belongs to. *)
Theorem rotation_resets_offset (cfg : Config) :
  (forall w st log_file,
     get_latest_log_file cfg (listing w) = Some log_file ->
     log_file <> [] ->
     current_file st <> Some log_file ->
     snd (cycle cfg w st) = Read log_file 0
     /\ current_file (fst (cycle cfg w st)) = Some log_file)
  /\ (forall ws st,
        Forall (fun step =>
                  forall path offset,
                    event step = Read path offset ->
                    (current_file (before step) <> Some path ->
                     offset = 0 /\ current_file (after step) = Some path)
                    /\ (current_file (before step) = Some path ->
                        offset = last_position (before step)))
               (run cfg ws st)).
Proof.
  split.
  - intros w st log_file Hlatest Hne Hdiff.
    pose proof (cycle_reads cfg w st log_file Hlatest Hne) as H.
    apply differs_spec in Hdiff. rewrite Hdiff in H. exact H.
  - intros ws st. eapply Forall_impl; [|apply run_steps].
    intros step [w Hw] path offset Hev.
    destruct (cycle_waits_or_reads cfg w (before step))
      as [[Hwait _] | (log_file & Hlatest & Hne)].
    + rewrite Hw in Hwait. simpl in Hwait. congruence.
    + destruct (cycle_reads cfg w (before step) log_file Hlatest Hne)
        as [Hread Htracked].
      rewrite Hw in Hread, Htracked. simpl in Hread, Htracked.
      rewrite Hev in Hread. injection Hread as -> ->.
      split; intros Hcur.
      * apply differs_spec in Hcur. rewrite Hcur in *. now split.
      * destruct (differs log_file (current_file (before step))) eqn:Hd;
          [|reflexivity].
        apply differs_spec in Hd. contradiction.
Qed.

Lemma rotation_resets_offset_witness :
  last_position (fst (cycle config world1 (initial_state empty_table))) = 77
  /\ snd (cycle config world2
            (fst (cycle config world1 (initial_state empty_table))))
     = Read day2 0.
Proof.
  split; [vm_compute; reflexivity|].
  apply (proj1 (rotation_resets_offset config) world2
           (fst (cycle config world1 (initial_state empty_table))) day2).
  - vm_compute. reflexivity.
  - discriminate.
  - vm_compute. discriminate.
Defined.

(** The two cycles of the example: the first stores the record of the
    line and its issue, the second reads the new file from its start. *)
Example run_two_days :
  map event (run config [world1; world2] (initial_state empty_table))
  = [Read day1 0; Read day2 0]
  /\ map (fun s => last_position (after s))
         (run config [world1; world2] (initial_state empty_table))
     = [77; 154].
Proof. vm_compute. split; reflexivity. Qed.

(** ** Small checks of the model *)

Example readlines_universal_newlines :
  readlines (lit "x" ++ [carriage_return] ++ lit "y"
             ++ [carriage_return; newline] ++ lit "z")
  = [lit "x" ++ [newline]; lit "y" ++ [newline]; lit "z"].
Proof. reflexivity. Qed.

Example tail_file_past_the_end :
  tail_file (one_file day1 (lit "ab")) day1 100 = ([], 100).
Proof. reflexivity. Qed.

Example get_latest_log_file_sorted :
  get_latest_log_file config
    (Some [lit "app_2024-01-15.log"; lit "notes.txt";
           lit "app_2024-01-16.log"; lit "sys_2024-01-17.log";
           lit "app_2024-01-09.log"])
  = Some day2.
Proof. reflexivity. Qed.

Example get_latest_log_file_no_directory :
  get_latest_log_file config None = None
  /\ get_latest_log_file config (Some [lit "notes.txt"]) = None.
Proof. split; reflexivity. Qed.

Example strip_line :
  strip (lit "  a b " ++ [newline]) = lit "a b".
Proof. reflexivity. Qed.

(** * Further properties *)

(** ** Detection: the other heuristics *)

Section MoreDetectorFacts.

(** With no ERROR record the rate is zero or not a number, and is not
    greater than 10, whatever the number of records. *)
Lemma error_rate_zero_errors total :
  PrimFloat.ltb 10 (error_rate 0 total) = false.
Proof.
  unfold error_rate. destruct (0 <? total); [|reflexivity].
  unfold true_div, float_of_Z.
  rewrite ltb_spec, mul_spec, div_spec.
  change (Prim2SF (of_uint63 (of_Z (Z.of_nat 0)))) with (S754_zero false).
  destruct (Prim2SF (of_uint63 (of_Z (Z.of_nat total)))); reflexivity.
Qed.

Lemma high_error_rate_of_no_errors c es :
  count_errors es = 0 -> high_error_rate_of (c, es) = [].
Proof.
  intros H. destruct (high_error_rate_of_cases c es) as [d ->].
  now rewrite H, error_rate_zero_errors.
Qed.

Lemma database_timeout_cases es :
  exists d,
    database_timeout es =
    if 0 <? length (filter is_db_timeout es) then
      [ {| Issue.issue_type := DATABASE_TIMEOUT;
           Issue.severity :=
             if 5 <? length (filter is_db_timeout es) then CRITICAL
             else HIGH;
           Issue.description := d;
           Issue.component := lit "Database";
           Issue.occurrence_count :=
             Z.of_nat (length (filter is_db_timeout es)) |} ]
    else [].
Proof.
  eexists. unfold database_timeout. destruct (0 <? _); reflexivity.
Qed.

Lemma slow_response_time_cases es :
  exists d,
    slow_response_time es =
    if 0 <? length es then
      [ {| Issue.issue_type := SLOW_RESPONSE_TIME;
           Issue.severity := MEDIUM;
           Issue.description := d;
           Issue.component := lit "API";
           Issue.occurrence_count := Z.of_nat (length es) |} ]
    else [].
Proof.
  eexists. unfold slow_response_time. destruct (0 <? _); reflexivity.
Qed.



End MoreDetectorFacts.



(** X3.  Every issue that detection builds counts at least one record:
    the count of an issue is positive.  In particular a component
    without ERROR records gets no High Error Rate issue, however many
    records it has. *)
Theorem issue_counts_positive (batch : list Entry.t) (i : Issue.t) :
  In i (issues_to_insert batch) -> (1 <= Issue.occurrence_count i)%Z.
Proof.
  unfold issues_to_insert. intros Hi.
  repeat (apply in_app_or in Hi as [Hi | Hi]).
  - unfold high_error_rate in Hi.
    apply in_flat_map in Hi as ([k es] & _ & Hi).
    destruct (count_errors es) as [|n] eqn:E.
    + rewrite (high_error_rate_of_no_errors k es E) in Hi. destruct Hi.
    + destruct (high_error_rate_of_cases k es) as [d Hd]. rewrite Hd in Hi.
      destruct (PrimFloat.ltb 10 _); [|destruct Hi].
      destruct Hi as [<- | []]. simpl. lia.
  - destruct (database_timeout_cases (errors (collect batch))) as [d Hd].
    rewrite Hd in Hi. destruct (0 <? _) eqn:E; [|destruct Hi].
    apply Nat.ltb_lt in E. destruct Hi as [<- | []]. simpl. lia.
  - destruct (slow_response_time_cases (slow_responses (collect batch)))
      as [d Hd].
    rewrite Hd in Hi. destruct (0 <? _) eqn:E; [|destruct Hi].
    apply Nat.ltb_lt in E. destruct Hi as [<- | []]. simpl. lia.
  - destruct (authentication_failures_cases (errors (collect batch)))
      as [d Hd].
    rewrite Hd in Hi. destruct (5 <? _) eqn:E; [|destruct Hi].
    apply Nat.ltb_lt in E. destruct Hi as [<- | []]. simpl. lia.
Qed.

Lemma issue_counts_positive_witness :
  match issues_to_insert batch_two_components with
  | i :: _ => (1 <= Issue.occurrence_count i)%Z
  | [] => False
  end.
Proof.
  pose proof (issue_counts_positive batch_two_components) as H.
  destruct (issues_to_insert batch_two_components) as [|i l] eqn:E.
  - vm_compute in E. discriminate.
  - apply H. now left.
Defined.

Section IssueKeyFacts.

Lemma flat_map_nil_all {A B} (f : A -> list B) l :
  (forall x, In x l -> f x = []) -> flat_map f l = [].
Proof.
  induction l as [|x l IH]; simpl; intros H; [reflexivity|].
  rewrite (H x (or_introl eq_refl)), IH; auto.
Qed.

Lemma lookup_In k es (m : Groups) :
  NoDup (map fst m) -> In (k, es) m -> lookup k m = Some es.
Proof.
  induction m as [|[k' es'] m IH]; simpl; intros Hnd Hin; [destruct Hin|].
  inversion Hnd as [|? ? Hk Hnd']; subst.
  destruct Hin as [E | Hin].
  - injection E as -> ->. now rewrite str_eqb_refl.
  - destruct (str_eqb k' k) eqn:E.
    + apply str_eqb_eq in E; subst k'. exfalso. apply Hk.
      apply in_map_iff. now exists (k, es).
    + now apply IH.
Qed.

Lemma by_component_groups b k es :
  In (k, es) (by_component (collect b)) -> es = of_component k b.
Proof.
  intros Hin. destruct (by_component_spec b) as [Hnd Hl].
  pose proof (lookup_In k es _ Hnd Hin) as H. rewrite Hl in H.
  destruct (of_component k b); [discriminate | now injection H].
Qed.

Lemma high_error_rate_components_NoDup (m : Groups) :
  NoDup (map fst m) -> NoDup (map Issue.component (high_error_rate m)).
Proof.
  induction m as [|[k es] m IH]; intros Hnd; [constructor|].
  cbn [map fst] in Hnd. inversion Hnd as [|? ? Hk Hnd']; subst.
  unfold high_error_rate in *. cbn [flat_map]. rewrite map_app.
  destruct (high_error_rate_of_cases k es) as [d ->].
  destruct (PrimFloat.ltb 10 _); cbn [map app Issue.component];
    [|now apply IH].
  constructor; [|now apply IH].
  intros Hin. apply in_map_iff in Hin as (i & Hi & Hin).
  apply (high_error_rate_In m) in Hin as [_ Hin]. rewrite Hi in Hin.
  contradiction.
Qed.

Lemma NoDup_map_finer {A B C} (f : A -> B) (g : A -> C) l :
  (forall x y, g x = g y -> f x = f y) ->
  NoDup (map f l) -> NoDup (map g l).
Proof.
  intros Hfg. induction l as [|x l IH]; simpl; intros H; [constructor|].
  inversion H as [|? ? Hx Hl]; subst. constructor; [|now apply IH].
  intros Hin. apply Hx. apply in_map_iff in Hin as (y & Hy & Hin).
  apply in_map_iff. exists y. split; [now apply Hfg | exact Hin].
Qed.

Lemma NoDup_app_types (l1 l2 : list Issue.t) (ty : str) :
  NoDup (map issue_key l1) ->
  NoDup (map issue_key l2) ->
  (forall i, In i l1 -> Issue.issue_type i <> ty) ->
  (forall i, In i l2 -> Issue.issue_type i = ty) ->
  NoDup (map issue_key (l1 ++ l2)).
Proof.
  intros H1 H2 Hne Heq. rewrite map_app. apply NoDup_app; auto.
  intros key Hk1 Hk2.
  apply in_map_iff in Hk1 as (i1 & E1 & Hi1).
  apply in_map_iff in Hk2 as (i2 & E2 & Hi2).
  apply (Hne i1 Hi1). rewrite <- (Heq i2 Hi2).
  unfold issue_key in *. congruence.
Qed.

(** No two issues of a batch have the same type and component. *)
Lemma issues_to_insert_keys_NoDup batch :
  NoDup (map issue_key (issues_to_insert batch)).
Proof.
  unfold issues_to_insert.
  set (H := high_error_rate (by_component (collect batch))).
  set (D := database_timeout (errors (collect batch))).
  set (S := slow_response_time (slow_responses (collect batch))).
  set (A := authentication_failures (errors (collect batch))).
  assert (HH : forall i, In i H -> Issue.issue_type i = HIGH_ERROR_RATE)
    by (intros i Hi; now apply high_error_rate_In in Hi).
  assert (HD : forall i, In i D -> Issue.issue_type i = DATABASE_TIMEOUT).
  { intros i Hi. subst D.
    destruct (database_timeout_cases (errors (collect batch))) as [d Hd].
    rewrite Hd in Hi. destruct (0 <? _); [|destruct Hi].
    now destruct Hi as [<- | []]. }
  assert (HS : forall i, In i S -> Issue.issue_type i = SLOW_RESPONSE_TIME).
  { intros i Hi. subst S.
    destruct (slow_response_time_cases (slow_responses (collect batch)))
      as [d Hd].
    rewrite Hd in Hi. destruct (0 <? _); [|destruct Hi].
    now destruct Hi as [<- | []]. }
  assert (HA : forall i,
             In i A -> Issue.issue_type i = AUTHENTICATION_FAILURES).
  { intros i Hi. subst A.
    destruct (authentication_failures_cases (errors (collect batch)))
      as [d Hd].
    rewrite Hd in Hi. destruct (5 <? _); [|destruct Hi].
    now destruct Hi as [<- | []]. }
  assert (ND : NoDup (map issue_key D)).
  { subst D.
    destruct (database_timeout_cases (errors (collect batch))) as [d ->].
    destruct (0 <? _); repeat constructor; simpl; tauto. }
  assert (NS : NoDup (map issue_key S)).
  { subst S.
    destruct (slow_response_time_cases (slow_responses (collect batch)))
      as [d ->].
    destruct (0 <? _); repeat constructor; simpl; tauto. }
  assert (NA : NoDup (map issue_key A)).
  { subst A.
    destruct (authentication_failures_cases (errors (collect batch)))
      as [d ->].
    destruct (5 <? _); repeat constructor; simpl; tauto. }
  assert (NH : NoDup (map issue_key H)).
  { apply (NoDup_map_finer Issue.component issue_key).
    - unfold issue_key. congruence.
    - apply high_error_rate_components_NoDup, by_component_spec. }
  rewrite !app_assoc.
  apply (NoDup_app_types _ A AUTHENTICATION_FAILURES); auto.
  - apply (NoDup_app_types _ S SLOW_RESPONSE_TIME); auto.
    + apply (NoDup_app_types _ D DATABASE_TIMEOUT); auto.
      intros i Hi. rewrite (HH i Hi). discriminate.
    + intros i Hi. apply in_app_or in Hi as [Hi | Hi].
      * rewrite (HH i Hi). discriminate.
      * rewrite (HD i Hi). discriminate.
  - intros i Hi. apply in_app_or in Hi as [Hi | Hi];
      [apply in_app_or in Hi as [Hi | Hi]|].
    + rewrite (HH i Hi). discriminate.
    + rewrite (HD i Hi). discriminate.
    + rewrite (HS i Hi). discriminate.
Qed.

Lemma count_errors_of_component c b :
  filter is_error b = [] -> count_errors (of_component c b) = 0.
Proof.
  intros H. unfold count_errors, of_component.
  rewrite filter_filter.
  assert (E : filter (fun x => str_eqb (Entry.component x) c && is_error x) b
              = filter (fun x => str_eqb (Entry.component x) c)
                       (filter is_error b)).
  { rewrite filter_filter. apply filter_ext. intros x. apply andb_comm. }
  now rewrite E, H.
Qed.

End IssueKeyFacts.

(** X4.  The issues of one batch have pairwise different keys: no two
    of them have the same issue type and the same component, so no two
    of them are reconciled with the same row. *)
Theorem issue_keys_distinct (batch : list Entry.t) :
  NoDup (map issue_key (issues_to_insert batch)).
Proof. apply issues_to_insert_keys_NoDup. Qed.

(** X5.  A batch without ERROR records gets no High Error Rate, no
    Database Timeout and no Authentication Failures issue: its issues
    are those of the slow-response heuristic, and it gets none at all
    when it has no slow response either. *)
Theorem no_errors_no_error_issues (batch : list Entry.t) :
  filter is_error batch = [] ->
  issues_to_insert batch = slow_response_time (filter is_slow batch)
  /\ (filter is_slow batch = [] -> issues_to_insert batch = []).
Proof.
  intros Hne.
  assert (E : issues_to_insert batch
              = slow_response_time (filter is_slow batch)).
  { unfold issues_to_insert.
    rewrite collect_errors, collect_slow_responses, Hne.
    assert (HH : high_error_rate (by_component (collect batch)) = []).
    { unfold high_error_rate. apply flat_map_nil_all.
      intros [k es] Hin. apply by_component_groups in Hin. subst es.
      apply high_error_rate_of_no_errors.
      now apply count_errors_of_component. }
    rewrite HH. cbn [app database_timeout authentication_failures filter
                     Datatypes.length Nat.ltb Nat.leb].
    apply app_nil_r. }
  split; [exact E|]. intros Hs. now rewrite E, Hs.
Qed.

Lemma no_errors_no_error_issues_witness :
  issues_to_insert (batch_of_X 0 3) = [].
Proof.
  apply (proj2 (no_errors_no_error_issues (batch_of_X 0 3) eq_refl)).
  reflexivity.
Defined.

(** ** The table of issues: what a call keeps *)

Section MoreStoreFacts.



(** With [id] a key, the update replaces the selected row and nothing
    else. *)
Lemma reconcile_split now t issue existing :
  NoDup (map Row.id (rows t)) ->
  select_existing issue t = Some existing ->
  exists pre post,
    rows t = pre ++ existing :: post
    /\ rows (reconcile now t issue)
       = pre ++ merged now issue existing :: post.
Proof.
  intros Hnd E.
  destruct (select_existing_Some _ _ _ E) as (Hin & _ & _).
  destruct (in_split _ _ Hin) as (pre & post & Hrows).
  exists pre, post. split; [exact Hrows|].
  rewrite (reconcile_existing now _ _ _ E). cbn [rows].
  rewrite Hrows in Hnd |- *. rewrite map_app in Hnd. cbn [map] in Hnd.
  pose proof (NoDup_remove_2 _ _ _ Hnd) as Hnot.
  rewrite map_app. cbn [map]. rewrite update_row_self.
  rewrite !map_update_row_absent; [reflexivity | |];
    intros H; apply Hnot, in_or_app; auto.
Qed.

Lemma insert_issues_fresh_ids now issues t :
  fresh_ids t -> fresh_ids (insert_issues now issues t).
Proof.
  rewrite insert_issues_fold. revert t.
  induction issues as [|i issues IH]; simpl; intros t H; [exact H|].
  apply IH. now apply reconcile_fresh_ids.
Qed.

Lemma update_row_fixed_columns now id n issue r :
  fixed_columns (update_row now id n issue r) = fixed_columns r.
Proof. unfold update_row. now destruct (Row.id r =? id)%Z. Qed.

Lemma reconcile_fixed_columns now t issue :
  exists added,
    map fixed_columns (rows (reconcile now t issue))
    = map fixed_columns (rows t) ++ added.
Proof.
  unfold reconcile. destruct (select_existing issue t) as [existing|];
    cbn [rows].
  - exists []. rewrite app_nil_r, map_map. apply map_ext.
    intros r. apply update_row_fixed_columns.
  - eexists. rewrite map_app. reflexivity.
Qed.

Lemma total_stored_app l1 l2 :
  total_stored (l1 ++ l2) = (total_stored l1 + total_stored l2)%Z.
Proof.
  induction l1 as [|r l1 IH]; simpl; [reflexivity|]. rewrite IH. lia.
Qed.

Lemma reconcile_total now t issue :
  NoDup (map Row.id (rows t)) ->
  total_stored (rows (reconcile now t issue))
  = (total_stored (rows t) + Issue.occurrence_count issue)%Z.
Proof.
  intros Hnd. destruct (select_existing issue t) as [existing|] eqn:E.
  - destruct (reconcile_split now t issue existing Hnd E)
      as (pre & post & -> & ->).
    rewrite !total_stored_app. simpl. lia.
  - rewrite (reconcile_missing now _ _ E). cbn [rows].
    rewrite total_stored_app. simpl. lia.
Qed.

Lemma reconcile_times_ordered now0 now t issue :
  (now0 <= now)%Z -> times_ordered now0 t ->
  times_ordered now (reconcile now t issue).
Proof.
  intros Hle H. unfold times_ordered in *. unfold reconcile.
  destruct (select_existing issue t) as [existing|]; cbn [rows].
  - apply Forall_map. eapply Forall_impl; [|exact H].
    intros r Hr. unfold update_row. cbv beta in Hr.
    destruct (Row.id r =? Row.id existing)%Z; simpl; lia.
  - apply Forall_app. split.
    + eapply Forall_impl; [|exact H]. cbv beta. intros; lia.
    + repeat constructor; simpl; lia.
Qed.

End MoreStoreFacts.

(** X6.  A call of [insert_issues] deletes no row and moves none, and
    it leaves the id, issue type, component, first-seen time and
    resolved flag of every row as they were: on these columns the
    table after the call is the table before it followed by the new
    rows. *)
Theorem insert_issues_keeps_rows (now : Z) (issues : list Issue.t)
    (t : Table) :
  exists added,
    map fixed_columns (rows (insert_issues now issues t))
    = map fixed_columns (rows t) ++ added.
Proof.
  rewrite insert_issues_fold. revert t.
  induction issues as [|i issues IH]; simpl; intros t.
  - exists []. now rewrite app_nil_r.
  - destruct (IH (reconcile now t i)) as [added2 H2].
    destruct (reconcile_fixed_columns now t i) as [added1 H1].
    exists (added1 ++ added2). now rewrite H2, H1, app_assoc.
Qed.

(** X7.  When [id] is a key of the table and the sequence is ahead of
    every id, this is still so after a call of [insert_issues], and
    the sequence has not gone back. *)
Theorem insert_issues_keeps_ids (now : Z) (issues : list Issue.t)
    (t : Table) :
  fresh_ids t ->
  fresh_ids (insert_issues now issues t)
  /\ (next_id t <= next_id (insert_issues now issues t))%Z.
Proof.
  intros H. split; [now apply insert_issues_fresh_ids|].
  rewrite insert_issues_fold. clear H. revert t.
  induction issues as [|i issues IH]; simpl; intros t; [lia|].
  specialize (IH (reconcile now t i)).
  assert (next_id t <= next_id (reconcile now t i))%Z; [|lia].
  unfold reconcile. destruct (select_existing i t); simpl; lia.
Qed.

Lemma insert_issues_keeps_ids_witness :
  fresh_ids (insert_issues 10 [timeout_observation HIGH 3] empty_table)
  /\ (next_id empty_table
      <= next_id (insert_issues 10 [timeout_observation HIGH 3] empty_table))%Z.
Proof.
  apply (insert_issues_keeps_ids 10 [timeout_observation HIGH 3] empty_table).
  split; constructor.
Defined.

(** X8.  A resolved row is never written: when [id] is a key of the
    table, every resolved row is in the table after a call of
    [insert_issues] exactly as it was before. *)
Theorem insert_issues_keeps_resolved (now : Z) (issues : list Issue.t)
    (t : Table) (r : Row.t) :
  fresh_ids t ->
  In r (rows t) -> Row.resolved r = true ->
  In r (rows (insert_issues now issues t)).
Proof.
  rewrite insert_issues_fold. revert t.
  induction issues as [|i issues IH]; simpl; intros t Hf Hin Hres;
    [exact Hin|].
  apply IH; auto; [now apply reconcile_fresh_ids|].
  destruct (select_existing i t) as [existing|] eqn:E.
  - destruct (select_existing_Some _ _ _ E) as (_ & Hopen & _).
    apply is_open_for_keys in Hopen as (_ & _ & Hopen).
    destruct (reconcile_split now t i existing (proj1 Hf) E)
      as (pre & post & Hrows & ->).
    rewrite Hrows in Hin. apply in_app_or in Hin as [Hin | [<- | Hin]].
    + apply in_or_app. now left.
    + congruence.
    + apply in_or_app. right. now right.
  - rewrite (reconcile_missing now _ _ E). cbn [rows].
    apply in_or_app. now left.
Qed.

(** X9.  No observed occurrence is lost or counted twice: when [id] is
    a key of the table, a call of [insert_issues] raises the sum of the
    counts of the table by the sum of the counts of the issues. *)
Theorem insert_issues_adds_counts (now : Z) (issues : list Issue.t)
    (t : Table) :
  fresh_ids t ->
  total_stored (rows (insert_issues now issues t))
  = (total_stored (rows t) + total_observed issues)%Z.
Proof.
  rewrite insert_issues_fold. revert t.
  induction issues as [|i issues IH]; simpl; intros t Hf; [lia|].
  rewrite IH by now apply reconcile_fresh_ids.
  rewrite (reconcile_total now t i (proj1 Hf)). lia.
Qed.

Lemma insert_issues_adds_counts_witness :
  total_stored
    (rows (insert_issues 10
             [timeout_observation HIGH 3; timeout_observation CRITICAL 2]
             empty_table))
  = 5%Z.
Proof.
  apply (insert_issues_adds_counts 10
           [timeout_observation HIGH 3; timeout_observation CRITICAL 2]
           empty_table).
  split; constructor.
Defined.

(** X10.  Times stay in order: when every row was first seen no later
    than last seen and last seen no later than some time, a call of
    [insert_issues] at that time or later leaves every row first seen
    no later than last seen, and last seen no later than the time of
    the call. *)
Theorem insert_issues_keeps_times (now0 now : Z) (issues : list Issue.t)
    (t : Table) :
  (now0 <= now)%Z ->
  times_ordered now0 t ->
  times_ordered now (insert_issues now issues t).
Proof.
  intros Hle H. rewrite insert_issues_fold.
  assert (H0 : times_ordered now t).
  { unfold times_ordered in *. eapply Forall_impl; [|exact H].
    cbv beta. intros; lia. }
  clear H. revert t H0.
  induction issues as [|i issues IH]; simpl; intros t H; [exact H|].
  apply IH. apply (reconcile_times_ordered now now); [lia | exact H].
Qed.

Lemma insert_issues_keeps_times_witness :
  times_ordered 20
    (insert_issues 20 [timeout_observation CRITICAL 2]
       (insert_issues 10 [timeout_observation HIGH 3] empty_table)).
Proof.
  apply (insert_issues_keeps_times 10 20); [lia|].
  apply (insert_issues_keeps_times 0 10); [lia | constructor].
Defined.

Lemma table_with_resolved_fresh : fresh_ids table_with_resolved.
Proof.
  split; simpl.
  - repeat constructor. intros [].
  - repeat constructor.
Qed.

Lemma insert_issues_keeps_resolved_witness :
  In resolved_row
     (rows (insert_issues 20 [timeout_observation HIGH 3] table_with_resolved)).
Proof.
  apply insert_issues_keeps_resolved.
  - exact table_with_resolved_fresh.
  - now left.
  - reflexivity.
Defined.

Section ReconcileKeys.







Lemma fold_reconcile_fresh now issues t :
  fresh_ids t -> fresh_ids (fold_left (reconcile now) issues t).
Proof.
  intros H. rewrite <- insert_issues_fold.
  now apply insert_issues_fresh_ids.
Qed.







End ReconcileKeys.




(** ** Finding the latest log file *)

Section OrderFacts.

Lemma code_inj a b : code a = code b -> a = b.
Proof.
  unfold code. intros H.
  rewrite <- (ascii_nat_embedding a), <- (ascii_nat_embedding b).
  now rewrite H.
Qed.

Lemma str_ltb_cons x a y b :
  str_ltb (x :: a) (y :: b) =
  if code x <? code y then true
  else if code y <? code x then false
  else str_ltb a b.
Proof. reflexivity. Qed.

Lemma str_ltb_asym a b : str_ltb a b = true -> str_ltb b a = false.
Proof.
  revert b; induction a as [|x a IH]; intros [|y b]; try easy.
  rewrite !str_ltb_cons.
  destruct (code x <? code y) eqn:E1; destruct (code y <? code x) eqn:E2;
    try easy.
  - apply Nat.ltb_lt in E1, E2. lia.
  - apply IH.
Qed.

Lemma str_ltb_trans a b c :
  str_ltb a b = true -> str_ltb b c = true -> str_ltb a c = true.
Proof.
  revert b c; induction a as [|x a IH]; intros [|y b] [|z c]; try easy.
  rewrite !str_ltb_cons.
  destruct (code x <? code y) eqn:E1; destruct (code y <? code x) eqn:E2;
    destruct (code y <? code z) eqn:E3; destruct (code z <? code y) eqn:E4;
    destruct (code x <? code z) eqn:E5; destruct (code z <? code x) eqn:E6;
    try easy;
    repeat match goal with
           | H : (_ <? _) = true |- _ => apply Nat.ltb_lt in H
           | H : (_ <? _) = false |- _ => apply Nat.ltb_ge in H
           end; try lia.
  apply IH.
Qed.

Lemma str_ltb_total a b :
  str_ltb a b = false -> str_ltb b a = false -> a = b.
Proof.
  revert b; induction a as [|x a IH]; intros [|y b]; try easy.
  rewrite !str_ltb_cons.
  destruct (code x <? code y) eqn:E1; destruct (code y <? code x) eqn:E2;
    try easy.
  intros H1 H2. apply Nat.ltb_ge in E1, E2.
  assert (x = y) by (apply code_inj; lia). subst y.
  f_equal. now apply IH.
Qed.

Lemma str_ltb_irrefl a : str_ltb a a = false.
Proof.
  induction a as [|x a IH]; [reflexivity|].
  rewrite str_ltb_cons, Nat.ltb_irrefl. exact IH.
Qed.

(** "Not less" is transitive. *)
Lemma str_geb_trans x y z :
  str_ltb x y = false -> str_ltb y z = false -> str_ltb x z = false.
Proof.
  intros Hxy Hyz. destruct (str_ltb x z) eqn:Hxz; [|reflexivity].
  destruct (str_ltb y x) eqn:Hyx.
  - rewrite (str_ltb_trans y x z Hyx Hxz) in Hyz. discriminate.
  - rewrite (str_ltb_total x y Hxy Hyx) in Hxz. congruence.
Qed.

Lemma insert_desc_In x l g : In g (insert_desc x l) <-> g = x \/ In g l.
Proof.
  induction l as [|y l IH]; simpl.
  - split; intros [H | H]; auto.
  - destruct (str_ltb x y); simpl; [rewrite IH|]; split; intuition auto.
Qed.

Lemma insert_desc_headed x l : headed l -> headed (insert_desc x l).
Proof.
  destruct l as [|y l]; simpl; intros H; [intros g []|].
  destruct (str_ltb x y) eqn:E; simpl.
  - intros g Hg. apply insert_desc_In in Hg as [-> | Hg].
    + now apply str_ltb_asym.
    + now apply H.
  - intros g [<- | Hg]; [exact E|].
    apply (str_geb_trans x y g E). now apply H.
Qed.

Lemma sort_desc_In l g : In g (sort_desc l) <-> In g l.
Proof.
  induction l as [|x l IH]; simpl; [tauto|].
  rewrite insert_desc_In, IH. split; intros [H | H]; auto.
Qed.

Lemma sort_desc_headed l : headed (sort_desc l).
Proof.
  induction l as [|x l IH]; simpl; [exact I|].
  now apply insert_desc_headed.
Qed.

(** The first name after sorting is a name of the list that no name of
    the list is greater than. *)
Lemma sort_desc_first l f rest :
  sort_desc l = f :: rest ->
  In f l /\ forall g, In g l -> str_ltb f g = false.
Proof.
  intros E. split.
  - apply sort_desc_In. rewrite E. now left.
  - intros g Hg. apply sort_desc_In in Hg. rewrite E in Hg.
    destruct Hg as [<- | Hg]; [apply str_ltb_irrefl|].
    pose proof (sort_desc_headed l) as H. rewrite E in H. now apply H.
Qed.

Lemma sort_desc_nil l : sort_desc l = [] <-> l = [].
Proof.
  split; [|now intros ->]. intros E. destruct l as [|x l]; [reflexivity|].
  assert (H : In x (sort_desc (x :: l))) by (apply sort_desc_In; now left).
  rewrite E in H. destruct H.
Qed.

Lemma path_join_ends a b : exists d, path_join a b = d ++ b.
Proof.
  unfold path_join. destruct (startswith (lit "/") b).
  - now exists [].
  - destruct a as [|c a]; [now exists []|].
    destruct (endswith (lit "/") (c :: a)).
    + now exists (c :: a).
    + exists ((c :: a) ++ lit "/"). now rewrite <- app_assoc.
Qed.

Lemma get_latest_log_file_Some cfg listing p :
  get_latest_log_file cfg (Some listing) = Some p <->
  exists f,
    In f listing /\ is_log_name cfg f = true
    /\ (forall g, In g listing -> is_log_name cfg g = true ->
                  str_ltb f g = false)
    /\ p = path_join (log_directory cfg) f.
Proof.
  unfold get_latest_log_file. fold (is_log_name cfg).
  destruct (sort_desc (filter (is_log_name cfg) listing)) as [|f rest] eqn:E.
  - split; [discriminate|]. intros (f & Hin & Hf & _).
    apply (proj1 (sort_desc_nil _)) in E.
    assert (H : In f (filter (is_log_name cfg) listing))
      by (apply filter_In; now split).
    rewrite E in H. destruct H.
  - apply sort_desc_first in E as [Hin Hmax].
    apply filter_In in Hin as [Hin Hf]. split.
    + intros H; injection H as <-. exists f. repeat split; auto.
      intros g Hg Hgn. apply Hmax. apply filter_In. now split.
    + intros (f' & Hin' & Hf' & Hmax' & ->). do 2 f_equal.
      apply str_ltb_total.
      * apply Hmax. apply filter_In. now split.
      * now apply Hmax'.
Qed.

End OrderFacts.

Lemma endswith_spec p s : endswith p s = true <-> exists r, s = r ++ p.
Proof.
  unfold endswith. rewrite startswith_spec. split.
  - intros [r H]. exists (rev r).
    rewrite <- (rev_involutive s), H, rev_app_distr.
    now rewrite rev_involutive.
  - intros [r ->]. exists (rev r). apply rev_app_distr.
Qed.

Lemma is_log_name_spec cfg f :
  is_log_name cfg f = true <->
  (exists r, f = log_file_prefix cfg ++ r) /\ (exists r, f = r ++ lit ".log").
Proof.
  unfold is_log_name.
  now rewrite andb_true_iff, startswith_spec, endswith_spec.
Qed.

Lemma get_latest_log_file_None cfg listing :
  get_latest_log_file cfg (Some listing) = None <->
  forall f, In f listing -> is_log_name cfg f = false.
Proof.
  unfold get_latest_log_file. fold (is_log_name cfg).
  destruct (sort_desc (filter (is_log_name cfg) listing)) as [|f rest] eqn:E.
  - apply (proj1 (sort_desc_nil _)) in E. split; [|reflexivity].
    intros _ f Hin. destruct (is_log_name cfg f) eqn:Hf; [|reflexivity].
    assert (H : In f (filter (is_log_name cfg) listing))
      by (apply filter_In; now split).
    rewrite E in H. destruct H.
  - split; [discriminate|]. intros H.
    apply sort_desc_first in E as [Hin _].
    apply filter_In in Hin as [Hin Hf]. rewrite (H f Hin) in Hf.
    discriminate.
Qed.

(** X13.  [get_latest_log_file] returns the path, under the log
    directory, of the name of the directory that starts with the
    prefix, ends with [.log] and is the greatest such name in the order
    of strings; it returns nothing exactly when the directory does not
    exist or has no such name.  The path it returns ends with that
    name and is never empty. *)
Theorem get_latest_log_file_spec (cfg : Config) (names : option (list str)) :
  (forall f,
     is_log_name cfg f = true <->
     (exists r, f = log_file_prefix cfg ++ r)
     /\ (exists r, f = r ++ lit ".log"))
  /\ (forall p,
        get_latest_log_file cfg names = Some p <->
        exists listing f,
          names = Some listing
          /\ In f listing /\ is_log_name cfg f = true
          /\ (forall g, In g listing -> is_log_name cfg g = true ->
                        str_ltb f g = false)
          /\ p = path_join (log_directory cfg) f)
  /\ (get_latest_log_file cfg names = None <->
      names = None
      \/ exists listing,
           names = Some listing
           /\ forall f, In f listing -> is_log_name cfg f = false)
  /\ (forall p, get_latest_log_file cfg names = Some p -> p <> []).
Proof.
  split; [apply is_log_name_spec|].
  destruct names as [listing|].
  - split; [|split].
    + intros p. rewrite get_latest_log_file_Some. split.
      * intros (f & H). now exists listing, f.
      * intros (l & f & E & H). injection E as <-. now exists f.
    + rewrite get_latest_log_file_None. split.
      * intros H. right. now exists listing.
      * intros [E | (l & E & H)]; [discriminate|]. now injection E as <-.
    + intros p Hp. apply get_latest_log_file_Some in Hp
        as (f & _ & Hf & _ & ->).
      apply is_log_name_spec in Hf as [_ [r ->]].
      destruct (path_join_ends (log_directory cfg) (r ++ lit ".log"))
        as [d ->].
      intros E. apply app_eq_nil in E as [_ E].
      apply app_eq_nil in E as [_ E]. discriminate.
  - split; [|split].
    + intros p. split; [discriminate|].
      intros (l & f & E & _). discriminate.
    + split; [now left | reflexivity].
    + discriminate.
Qed.

(** X14.  The result of [get_latest_log_file] does not depend on the
    order in which the directory lists its names: two listings with
    the same names give the same result. *)
Theorem get_latest_log_file_order (cfg : Config) (l l' : list str) :
  (forall f, In f l <-> In f l') ->
  get_latest_log_file cfg (Some l) = get_latest_log_file cfg (Some l').
Proof.
  intros Hsame.
  destruct (get_latest_log_file cfg (Some l')) as [p'|] eqn:E'.
  - apply get_latest_log_file_Some in E' as (f & Hin & Hf & Hmax & ->).
    apply get_latest_log_file_Some. exists f. repeat split; auto.
    + now apply Hsame.
    + intros g Hg. apply Hmax. now apply Hsame.
  - apply get_latest_log_file_None. intros f Hin.
    apply (proj1 (get_latest_log_file_None cfg l') E'). now apply Hsame.
Qed.

Lemma get_latest_log_file_order_witness :
  get_latest_log_file config
    (Some [lit "app_2024-01-15.log"; lit "app_2024-01-16.log"])
  = get_latest_log_file config
      (Some [lit "app_2024-01-16.log"; lit "app_2024-01-15.log"]).
Proof.
  apply get_latest_log_file_order. intros f. simpl. tauto.
Defined.

Lemma get_latest_log_file_spec_witness :
  get_latest_log_file config
    (Some [lit "app_2024-01-15.log"; lit "notes.txt";
           lit "app_2024-01-16.log"])
  = Some day2
  /\ day2 <> [].
Proof.
  assert (H : get_latest_log_file config
                (Some [lit "app_2024-01-15.log"; lit "notes.txt";
                       lit "app_2024-01-16.log"]) = Some day2).
  { apply (proj1 (proj2 (get_latest_log_file_spec config _))).
    exists [lit "app_2024-01-15.log"; lit "notes.txt";
            lit "app_2024-01-16.log"], (lit "app_2024-01-16.log").
    repeat split.
    - simpl. tauto.
    - intros g [<- | [<- | [<- | []]]] Hn; try reflexivity.
      vm_compute in Hn. discriminate. }
  split; [exact H|].
  exact (proj2 (proj2 (proj2 (get_latest_log_file_spec config _))) day2 H).
Defined.

(** ** Tailing: what the lines are *)

Section MoreTailFacts.

Lemma not_In_snoc (c x : ascii) (l : str) :
  ~ In c l -> x <> c -> ~ In c (l ++ [x]).
Proof.
  intros Hl Hx Hin. apply in_app_or in Hin as [Hin | [Hin | []]]; auto.
Qed.

(** The lines that [split_lines] cuts: lines that end with a line
    feed and have no other, then possibly a last line without line
    feed; put together they are the text. *)
Lemma split_lines_spec cur s :
  ~ In newline cur ->
  exists complete last,
    split_lines cur s = map with_newline complete ++ last
    /\ Forall (fun l => ~ In newline l) complete
    /\ (last = [] \/ exists l, last = [l] /\ l <> [] /\ ~ In newline l)
    /\ cur ++ s = file_text complete ++ List.concat last.
Proof.
  revert cur; induction s as [|c s IH]; intros cur Hcur.
  - destruct cur as [|x cur].
    + exists [], []. split; [reflexivity|]. split; [constructor|].
      split; [now left | reflexivity].
    + exists [], [x :: cur]. split; [reflexivity|]. split; [constructor|].
      split.
      * right. exists (x :: cur). split; [reflexivity|].
        split; [discriminate | exact Hcur].
      * simpl. now rewrite !app_nil_r.
  - rewrite split_lines_cons. destruct (is_char newline c) eqn:E.
    + apply Ascii.eqb_eq in E; subst c.
      destruct (IH [] (fun H => H)) as (complete & last & Hs & Hc & Hl & Ht).
      exists (cur :: complete), last. rewrite Hs.
      split; [reflexivity|]. split; [now constructor|].
      split; [exact Hl|].
      simpl in Ht. unfold file_text in *. simpl.
      unfold with_newline at 1. rewrite <- !app_assoc. simpl.
      now rewrite Ht.
    + assert (Hc' : ~ In newline (cur ++ [c])).
      { apply not_In_snoc; [exact Hcur|]. intros ->.
        unfold is_char in E. now rewrite Ascii.eqb_refl in E. }
      destruct (IH (cur ++ [c]) Hc') as (complete & last & Hs & Hc & Hl & Ht).
      exists complete, last. split; [exact Hs|]. split; [exact Hc|].
      split; [exact Hl|].
      rewrite <- Ht, <- app_assoc. reflexivity.
Qed.

Lemma split_lines_partial cur l :
  ~ In newline l -> cur ++ l <> [] -> split_lines cur l = [cur ++ l].
Proof.
  revert cur; induction l as [|c l IH]; intros cur Hl Hne.
  - rewrite app_nil_r in *. simpl. destruct cur; [contradiction|reflexivity].
  - rewrite split_lines_cons. destruct (is_char newline c) eqn:E.
    + apply Ascii.eqb_eq in E. exfalso. apply Hl. now left.
    + rewrite IH.
      * now rewrite <- app_assoc.
      * intros H. apply Hl. now right.
      * rewrite <- app_assoc. exact Hne.
Qed.

End MoreTailFacts.

(** X15.  [tail_file] neither loses nor invents text: on an existing
    file the lines it returns, put together, are the text after the
    offset with its line ends translated to line feeds.  Every line
    but the last ends with its only line feed; the last one ends with
    a line feed or, when the file does not, is a non-empty line
    without any. *)
Theorem tail_file_lines (fs : FileSystem) (path content : str)
    (offset : nat) :
  fs path = Some content ->
  exists complete last,
    fst (tail_file fs path offset) = map with_newline complete ++ last
    /\ Forall (fun l => ~ In newline l) complete
    /\ (last = [] \/ exists l, last = [l] /\ l <> [] /\ ~ In newline l)
    /\ List.concat (fst (tail_file fs path offset))
       = translate_newlines (skipn offset content).
Proof.
  intros Hfs. unfold tail_file. rewrite Hfs. cbn [fst]. unfold readlines.
  destruct (split_lines_spec [] (translate_newlines (skipn offset content))
              (fun H => H))
    as (complete & last & Hs & Hc & Hl & Ht).
  exists complete, last. repeat split; auto.
  rewrite Hs, concat_app. simpl in Ht. rewrite Ht. reflexivity.
Qed.

Lemma tail_file_lines_witness :
  exists complete last,
    fst (tail_file (one_file day1 (lit "ab" ++ [newline] ++ lit "cd"))
           day1 1)
    = map with_newline complete ++ last
    /\ List.concat
         (fst (tail_file (one_file day1 (lit "ab" ++ [newline] ++ lit "cd"))
                 day1 1))
       = lit "b" ++ [newline] ++ lit "cd".
Proof.
  destruct (tail_file_lines (one_file day1 (lit "ab" ++ [newline] ++ lit "cd"))
              day1 (lit "ab" ++ [newline] ++ lit "cd") 1 eq_refl)
    as (complete & last & H1 & _ & _ & H2).
  exists complete, last. split; [exact H1 | exact H2].
Defined.

(** X16.  The offset never goes back: the offset [tail_file] returns is
    at least the one it was given, and at least the size of the file
    when there is one.  A file that is not longer than the offset (one
    that was cut or replaced by a shorter one) gives no line and the
    same offset: nothing of it is read until it has grown beyond the
    offset. *)
Theorem tail_file_offset (fs : FileSystem) (path : str) (offset : nat) :
  offset <= snd (tail_file fs path offset)
  /\ (forall content,
        fs path = Some content ->
        length content <= snd (tail_file fs path offset))
  /\ (forall content,
        fs path = Some content ->
        length content <= offset ->
        tail_file fs path offset = ([], offset)).
Proof.
  unfold tail_file. repeat split.
  - destruct (fs path); simpl; lia.
  - intros content ->. simpl. lia.
  - intros content -> Hle. rewrite skipn_all2 by exact Hle.
    now rewrite Nat.max_l.
Qed.

Lemma tail_file_offset_witness :
  tail_file (one_file day1 (lit "ab")) day1 100 = ([], 100)
  /\ 2 <= snd (tail_file (one_file day1 (lit "ab")) day1 0).
Proof.
  split.
  - apply (proj2 (proj2 (tail_file_offset (one_file day1 (lit "ab")) day1 100))
             (lit "ab") eq_refl).
    simpl. lia.
  - apply (proj1 (proj2 (tail_file_offset (one_file day1 (lit "ab")) day1 0))
             (lit "ab") eq_refl).
Defined.

(** X17.  A line that is only partly written when the file is read is
    returned in pieces: the read returns the part that is there as a
    line without line feed and moves the offset past it, and the read
    after the rest has been written returns the rest alone.  The
    whole line is never returned. *)
Theorem tail_file_splits_partial_line (fs : FileSystem)
    (path content l1 l2 : str) :
  fs path = Some content ->
  plain_line l1 -> plain_line l2 -> l1 <> [] ->
  tail_file (append_file fs path l1) path (length content)
  = ([l1], length content + length l1)
  /\ tail_file (append_file (append_file fs path l1) path (with_newline l2))
       path (length content + length l1)
     = ([with_newline l2],
        length content + length l1 + length (with_newline l2)).
Proof.
  intros Hfs [Hn1 Hc1] [Hn2 Hc2] Hne.
  assert (E1 : append_file fs path l1 path = Some (content ++ l1)).
  { unfold append_file. now rewrite str_eqb_refl, Hfs. }
  assert (E2 : append_file (append_file fs path l1) path (with_newline l2)
                 path = Some ((content ++ l1) ++ with_newline l2)).
  { unfold append_file at 1. now rewrite str_eqb_refl, E1. }
  split.
  - unfold tail_file. rewrite E1.
    rewrite skipn_app, skipn_all, Nat.sub_diag. cbn [skipn app].
    unfold readlines. rewrite translate_newlines_plain by exact Hc1.
    rewrite (split_lines_partial [] l1 Hn1 Hne). simpl.
    rewrite length_app. f_equal. lia.
  - unfold tail_file. rewrite E2.
    rewrite <- length_app, skipn_app, skipn_all, Nat.sub_diag.
    cbn [skipn app].
    assert (H : readlines (file_text [l2]) = map with_newline [l2])
      by (apply readlines_file_text; repeat constructor; assumption).
    unfold file_text in H. cbn [map List.concat] in H.
    rewrite app_nil_r in H. rewrite H.
    rewrite !length_app. f_equal. simpl. lia.
Qed.

Lemma is_plain_spec l : is_plain l = true -> plain_line l.
Proof.
  unfold is_plain, plain_line. rewrite forallb_forall. intros H.
  split; intros Hin; apply H in Hin; unfold is_char in Hin;
    rewrite Ascii.eqb_refl in Hin; simpl in Hin; discriminate.
Qed.

Lemma tail_file_splits_partial_line_witness :
  tail_file (append_file (one_file day1 (file_text [line_with_fields]))
               day1 line_part1) day1 77
  = ([line_part1], 124)
  /\ tail_file (append_file
                  (append_file (one_file day1 (file_text [line_with_fields]))
                     day1 line_part1)
                  day1 (with_newline line_part2)) day1 124
     = ([with_newline line_part2], 141).
Proof.
  apply (tail_file_splits_partial_line
           (one_file day1 (file_text [line_with_fields])) day1
           (file_text [line_with_fields]) line_part1 line_part2).
  - reflexivity.
  - apply is_plain_spec. reflexivity.
  - apply is_plain_spec. reflexivity.
  - discriminate.
Defined.

(** The two pieces of a line cut by a read: the first is stored as a
    record with a cut message, the second is dropped. *)
Example cut_line_is_stored_cut :
  (exists r, parse_log_line line_part1 = Ok (Some r)
             /\ Entry.message r = lit "Query time"
             /\ Entry.response_time r = None)
  /\ parse_log_line (with_newline line_part2) = Ok None.
Proof.
  split; [|vm_compute; reflexivity].
  eexists. split; [vm_compute; reflexivity|]. split; reflexivity.
Qed.

(** ** The loop: what a cycle keeps *)

Section MoreLoopFacts.

Variable cfg : Config.

Lemma cycle_unfold (w : World) (st : State) c log_file :
  get_latest_log_file cfg (listing w) = Some (c :: log_file) ->
  cycle cfg w st =
  let position :=
    if differs (c :: log_file) (current_file st) then 0
    else last_position st in
  let tracked :=
    if differs (c :: log_file) (current_file st) then Some (c :: log_file)
    else current_file st in
  let read := tail_file (files w) (c :: log_file) position in
  (match parse_all (fst read) with
   | Raise e =>
       {| last_position := snd read;
          current_file := tracked;
          log_entries := log_entries st;
          issues := issues st;
          stopped := Some e |}
   | Ok parsed =>
       {| last_position := snd read;
          current_file := tracked;
          log_entries :=
            insert_log_entries (accepts w) (log_entries st) parsed;
          issues :=
            match parsed with
            | [] => issues st
            | _ => detect_issues (now w) parsed (issues st)
            end;
          stopped := stopped st |}
   end,
   Read (c :: log_file) position).
Proof.
  intros H. unfold cycle. rewrite H. cbv zeta.
  destruct (differs (c :: log_file) (current_file st));
    destruct (tail_file _ _ _) as [new_lines pos]; cbn [fst snd];
    destruct (parse_all new_lines) as [[|e es]|]; reflexivity.
Qed.

Lemma cycle_cases (w : World) (st : State) :
  cycle cfg w st = (st, Waiting)
  \/ exists c log_file,
       get_latest_log_file cfg (listing w) = Some (c :: log_file).
Proof.
  unfold cycle.
  destruct (get_latest_log_file cfg (listing w)) as [[|c p]|];
    [now left | right | now left].
  now exists c, p.
Qed.

Lemma cycle_keeps_table (w : World) (st : State) :
  dedup (issues st) -> fresh_ids (issues st) ->
  dedup (issues (fst (cycle cfg w st)))
  /\ fresh_ids (issues (fst (cycle cfg w st))).
Proof.
  intros Hd Hf. destruct (cycle_cases w st) as [-> | (c & p & H)];
    [now split|].
  rewrite (cycle_unfold w st c p H). cbv zeta. cbn [fst].
  destruct (parse_all _) as [[|e es]|]; cbn [issues]; try now split.
  unfold detect_issues. split.
  - now apply insert_issues_dedup.
  - now apply insert_issues_fresh_ids.
Qed.


End MoreLoopFacts.

(** X18.  A cycle that finds nothing new changes nothing: when there
    is no log file, or when the latest file is the tracked one and is
    missing or not longer than the stored offset, the state after the
    cycle is the state before it. *)
Theorem idle_cycle_keeps_state (cfg : Config) (w : World) (st : State) :
  (get_latest_log_file cfg (listing w) = None ->
   fst (cycle cfg w st) = st)
  /\ (forall log_file,
        get_latest_log_file cfg (listing w) = Some log_file ->
        current_file st = Some log_file ->
        (files w log_file = None
         \/ exists content,
              files w log_file = Some content
              /\ length content <= last_position st) ->
        fst (cycle cfg w st) = st).
Proof.
  split.
  - intros H. unfold cycle. now rewrite H.
  - intros log_file Hl Hc Hfile.
    destruct log_file as [|c p]; [unfold cycle; now rewrite Hl|].
    rewrite (cycle_unfold cfg w st c p Hl). cbv zeta. cbn [fst].
    assert (Hd : differs (c :: p) (current_file st) = false).
    { rewrite Hc. unfold differs. now rewrite str_eqb_refl. }
    rewrite Hd.
    assert (Ht : tail_file (files w) (c :: p) (last_position st)
                 = ([], last_position st)).
    { unfold tail_file. destruct Hfile as [-> | (content & -> & Hle)];
        [reflexivity|].
      rewrite skipn_all2 by exact Hle. now rewrite Nat.max_l. }
    rewrite Ht. cbn [fst snd parse_all insert_log_entries].
    now destruct st.
Qed.

Lemma idle_cycle_keeps_state_witness :
  fst (cycle config world1
         (fst (cycle config world1 (initial_state empty_table))))
  = fst (cycle config world1 (initial_state empty_table)).
Proof.
  apply (proj2 (idle_cycle_keeps_state config world1
                  (fst (cycle config world1 (initial_state empty_table))))
           day1).
  - reflexivity.
  - vm_compute. reflexivity.
  - right. exists (file_text [line_with_fields]). split.
    + reflexivity.
    + vm_compute. repeat constructor.
Defined.

(** The records of a read are the records of its lines that parsed. *)
Lemma parse_all_In lines entries e :
  parse_all lines = Ok entries ->
  In e entries <->
  exists line, In line lines /\ parse_log_line line = Ok (Some e).
Proof.
  revert entries. induction lines as [|l lines IH]; intros entries.
  - simpl. intros H. injection H as <-.
    split; [intros [] | intros (line & [] & _)].
  - cbn [parse_all].
    destruct (parse_log_line l) as [parsed|] eqn:E; [|discriminate].
    cbn [bind].
    destruct (parse_all lines) as [rest|]; [|discriminate].
    cbn [bind]. intros H. injection H as <-.
    specialize (IH rest eq_refl).
    destruct parsed as [r|]; simpl; rewrite ?IH; split.
    + intros [<- | (line & Hin & Hp)]; [now exists l; auto|].
      exists line. auto.
    + intros (line & [<- | Hin] & Hp); [left; congruence|].
      right. now exists line.
    + intros (line & Hin & Hp). exists line. auto.
    + intros (line & [<- | Hin] & Hp); [congruence|]. now exists line.
Qed.

(** X19.  The loop keeps the table of issues well formed: starting
    from a table with at most one unresolved row for each issue type
    and component and with [id] as a key, the table has both
    properties after every cycle of every run. *)
Theorem run_keeps_table (cfg : Config) (ws : list World) (st : State) :
  dedup (issues st) -> fresh_ids (issues st) ->
  Forall (fun step =>
            dedup (issues (after step)) /\ fresh_ids (issues (after step)))
         (run cfg ws st).
Proof.
  revert st. induction ws as [|w ws IH]; intros st Hd Hf; simpl;
    [constructor|].
  destruct (cycle cfg w st) as [st' ev] eqn:E.
  pose proof (cycle_keeps_table cfg w st Hd Hf) as [Hd' Hf'].
  rewrite E in Hd', Hf'. simpl in Hd', Hf'.
  constructor; [now split|].
  destruct (stopped st'); [constructor | now apply IH].
Qed.

Lemma run_keeps_table_witness :
  Forall (fun step =>
            dedup (issues (after step)) /\ fresh_ids (issues (after step)))
         (run config [world1; world2] (initial_state empty_table)).
Proof.
  apply run_keeps_table.
  - intros ty c. simpl. lia.
  - split; constructor.
Defined.



(** ** The parser: numbers and error codes *)

Section NumberFacts.

Lemma digit_value_bounds c :
  is_digit c = true -> (0 <= digit_value c <= 9)%Z.
Proof.
  unfold is_digit, digit_value. rewrite andb_true_iff, !Nat.leb_le. lia.
Qed.

Lemma fold_digits_bounds g acc k :
  all is_digit g -> (0 <= acc < 10 ^ k)%Z -> (0 <= k)%Z ->
  (0 <= fold_left (fun a c => 10 * a + digit_value c) g acc
   < 10 ^ (k + Z.of_nat (length g)))%Z.
Proof.
  intros Hg. revert acc k.
  induction Hg as [|c g Hc Hg IH]; intros acc k Hacc Hk.
  - simpl. now rewrite Z.add_0_r.
  - cbn [fold_left Datatypes.length].
    pose proof (digit_value_bounds c Hc) as Hd.
    replace (k + Z.of_nat (S (length g)))%Z
      with ((k + 1) + Z.of_nat (length g))%Z by lia.
    apply IH; [|lia].
    rewrite Z.pow_add_r, Z.pow_1_r by lia. lia.
Qed.

Lemma int_of_digits_bounds g :
  all is_digit g ->
  (0 <= int_of_digits g < 10 ^ Z.of_nat (length g))%Z.
Proof.
  intros Hg. unfold int_of_digits.
  apply (fold_digits_bounds g 0 0 Hg); simpl; lia.
Qed.

Lemma int_of_digits_long g :
  all is_digit g -> (100 <= int_of_digits g)%Z -> 3 <= length g.
Proof.
  intros Hg Hn. pose proof (int_of_digits_bounds g Hg) as [_ Hlt].
  destruct g as [|a [|b [|c g]]]; simpl in *; lia.
Qed.

(** A run of three or more digits somewhere in the message is found by
    the pattern of the error code. *)
Lemma long_run_has_code msg pre g rest :
  msg = pre ++ g ++ rest -> all is_digit g -> 3 <= length g ->
  search ERROR_CODE_PATTERN_at msg <> None.
Proof.
  intros -> Hg Hlen Hnone.
  destruct (search_spec three_digits ERROR_CODE_PATTERN_at
              ERROR_CODE_PATTERN_at_spec (pre ++ g ++ rest)) as [_ Hn].
  apply Hn in Hnone.
  destruct g as [|a [|b [|c g]]]; simpl in Hlen; try lia.
  apply (Hnone pre ((a :: b :: c :: g) ++ rest) [a; b; c] eq_refl).
  repeat split.
  - inversion Hg as [|? ? Ha Hg1]; subst.
    inversion Hg1 as [|? ? Hb Hg2]; subst.
    inversion Hg2 as [|? ? Hc _]; subst. repeat constructor; assumption.
  - now exists (g ++ rest).
Qed.

Lemma time_match_digits msg g :
  search TIME_PATTERN_at msg = Some g ->
  all is_digit g /\ exists pre rest, msg = pre ++ g ++ rest.
Proof.
  intros H.
  destruct (search_spec digits_ms TIME_PATTERN_at TIME_PATTERN_at_spec msg)
    as [Hs _].
  apply Hs in H as (pre & suf & -> & ((_ & Hd) & rest & ->) & _).
  split; [exact Hd|]. now exists pre, (lit "ms" ++ rest).
Qed.

Lemma user_match_digits msg g :
  search USER_ID_PATTERN_at msg = Some g ->
  all is_digit g /\ exists pre rest, msg = pre ++ g ++ rest.
Proof.
  intros H.
  destruct (search_spec user_id_token USER_ID_PATTERN_at
              USER_ID_PATTERN_at_spec msg) as [Hs _].
  apply Hs in H
    as (pre & suf & -> & ((_ & Hd) & sep & rest & _ & -> & _) & _).
  split; [exact Hd|].
  exists (pre ++ lit "user_id" ++ [sep]), rest.
  rewrite <- !app_assoc. reflexivity.
Qed.

End NumberFacts.

(** X21.  The numbers of a parsed record are not negative, and the
    error code is set whenever one of them has three digits or more: a
    record with a response time or a user id of at least 100 has an
    error code, so every record that counts as a slow response has
    one. *)
Theorem numbers_force_error_code (line : str) (r : Entry.t) :
  parse_log_line line = Ok (Some r) ->
  (forall n, Entry.response_time r = Some n ->
             (0 <= n)%Z /\ ((100 <= n)%Z -> Entry.error_code r <> None))
  /\ (forall n, Entry.user_id r = Some n ->
                (0 <= n)%Z /\ ((100 <= n)%Z -> Entry.error_code r <> None))
  /\ (is_slow r = true -> Entry.error_code r <> None).
Proof.
  intros H.
  apply parse_log_line_record in H as (ts & lvl & comp & msg & _ & ->).
  unfold is_slow. cbn [Entry.response_time Entry.user_id Entry.error_code].
  assert (Ht : forall n,
             option_map int_of_digits (search TIME_PATTERN_at msg) = Some n ->
             (0 <= n)%Z
             /\ ((100 <= n)%Z -> search ERROR_CODE_PATTERN_at msg <> None)).
  { intros n Hn.
    destruct (search TIME_PATTERN_at msg) as [g|] eqn:E; [|discriminate].
    injection Hn as <-.
    destruct (time_match_digits msg g E) as (Hd & pre & rest & Hm).
    split; [apply (int_of_digits_bounds g Hd)|].
    intros Hbig. apply (long_run_has_code msg pre g rest Hm Hd).
    now apply int_of_digits_long. }
  split; [exact Ht|]. split.
  - intros n Hn.
    destruct (search USER_ID_PATTERN_at msg) as [g|] eqn:E; [|discriminate].
    injection Hn as <-.
    destruct (user_match_digits msg g E) as (Hd & pre & rest & Hm).
    split; [apply (int_of_digits_bounds g Hd)|].
    intros Hbig. apply (long_run_has_code msg pre g rest Hm Hd).
    now apply int_of_digits_long.
  - destruct (option_map int_of_digits (search TIME_PATTERN_at msg))
      as [n|] eqn:E; [|discriminate].
    intros Hs. apply andb_true_iff in Hs as [_ Hs]. apply Z.ltb_lt in Hs.
    apply (Ht n eq_refl). lia.
Qed.

Lemma numbers_force_error_code_witness :
  exists r,
    parse_log_line line_with_fields = Ok (Some r)
    /\ Entry.error_code r <> None.
Proof.
  destruct (parse_log_line line_with_fields) as [[r|]|] eqn:E;
    try (vm_compute in E; discriminate).
  exists r. split; [reflexivity|].
  apply (proj2 (proj2 (numbers_force_error_code line_with_fields r E))).
  vm_compute in E. injection E as <-. reflexivity.
Defined.

(** * The generator and the analyzer together *)

(** ** Decimal numerals *)

Section DecimalText.

Lemma chars_digits d : all is_digit (chars d).
Proof.
  unfold all, chars, lit.
  induction d; simpl; constructor; try reflexivity; assumption.
Qed.

Lemma chars_length d : length (chars d) = Decimal.nb_digits d.
Proof.
  unfold chars, lit. induction d; simpl; congruence.
Qed.

Lemma fold_chars_acc d acc :
  fold_left step (chars d) (Zpos acc) = Zpos (Pos.of_uint_acc d acc).
Proof.
  unfold chars, lit. revert acc.
  induction d; intros acc;
    cbn [NilEmpty.string_of_uint list_ascii_of_string fold_left
         Pos.of_uint_acc];
    [reflexivity | rewrite <- IHd; f_equal; unfold step, digit_value;
                   try match goal with
                       | |- context [Z.of_nat ?n] =>
                           let v := eval vm_compute in (Z.of_nat n) in
                           change (Z.of_nat n) with v
                       end; lia ..].
Qed.

Lemma fold_chars d :
  fold_left step (chars d) 0%Z = Z.of_N (Pos.of_uint d).
Proof.
  induction d;
    try (unfold chars, lit in *;
         cbn [NilEmpty.string_of_uint list_ascii_of_string fold_left
              Pos.of_uint];
         first [ reflexivity
               | exact IHd
               | apply (fold_chars_acc d) ]).
Qed.

Lemma of_uint_acc_lower d acc :
  (Zpos acc * 10 ^ Z.of_nat (Decimal.nb_digits d)
   <= Zpos (Pos.of_uint_acc d acc))%Z.
Proof.
  revert acc. induction d; intros acc;
    cbn [Decimal.nb_digits Pos.of_uint_acc];
    [simpl; lia | ..];
    (etransitivity; [|apply IHd]);
    rewrite Nat2Z.inj_succ, Z.pow_succ_r by lia; nia.
Qed.

(** The numeral of a positive number does not start with a zero. *)
Lemma to_uint_head p : forall d', Pos.to_uint p <> Decimal.D0 d'.
Proof.
  intros d' E.
  pose proof (DecimalPos.Unsigned.to_of (Pos.to_uint p)) as H.
  rewrite DecimalPos.Unsigned.of_to in H. simpl in H.
  assert (Hn : Decimal.nzhead (Pos.to_uint p) <> Decimal.Nil).
  { intros Hn. apply DecimalFacts.unorm_0 in Hn. rewrite <- H in Hn.
    now apply (DecimalPos.Unsigned.to_uint_nonzero p). }
  rewrite (DecimalFacts.unorm_nzhead _ Hn) in H.
  rewrite E in H at 1. symmetry in H.
  now apply DecimalFacts.nzhead_nonzero in H.
Qed.

Lemma str_of_Z_pos p : str_of_Z (Zpos p) = chars (Pos.to_uint p).
Proof.
  unfold str_of_Z, chars. simpl.
  destruct (Pos.to_uint p) eqn:E; try reflexivity.
  now apply DecimalPos.Unsigned.to_uint_nonnil in E.
Qed.

Lemma str_of_Z_digits n : (0 <= n)%Z -> some_of is_digit (str_of_Z n).
Proof.
  intros Hn. destruct n as [|p|p]; [| |lia].
  - split; [discriminate | repeat constructor].
  - rewrite str_of_Z_pos. split; [|apply chars_digits].
    intros E. apply (f_equal (@Datatypes.length ascii)) in E.
    rewrite chars_length in E. simpl in E.
    apply DecimalFacts.nb_digits_0 in E.
    now apply DecimalPos.Unsigned.to_uint_nonnil in E.
Qed.

(** [int(str(n)) == n] *)
Lemma int_of_str_of_Z n : (0 <= n)%Z -> int_of_digits (str_of_Z n) = n.
Proof.
  intros Hn. destruct n as [|p|p]; [reflexivity | | lia].
  rewrite str_of_Z_pos. unfold int_of_digits.
  change (fun acc c => (10 * acc + digit_value c)%Z) with step.
  rewrite fold_chars, DecimalPos.Unsigned.of_to. reflexivity.
Qed.

Lemma str_of_Z_length n w :
  (0 <= n < 10 ^ Z.of_nat w)%Z -> 0 < w -> length (str_of_Z n) <= w.
Proof.
  intros Hn Hw. destruct n as [|p|p]; [simpl; lia | | lia].
  rewrite str_of_Z_pos, chars_length.
  pose proof (DecimalPos.Unsigned.of_to p) as Hv.
  pose proof (to_uint_head p) as Hh.
  destruct (Pos.to_uint p) as [|d|d|d|d|d|d|d|d|d|d] eqn:E;
    [simpl; lia | exfalso; now apply (Hh d) | ..];
    cbn [Pos.of_uint] in Hv; injection Hv as Hv;
    match type of Hv with
    | Pos.of_uint_acc _ ?k = _ =>
        pose proof (of_uint_acc_lower d k) as Hl
    end;
    rewrite Hv in Hl; cbn [Decimal.nb_digits];
    assert (10 ^ Z.of_nat (Decimal.nb_digits d) < 10 ^ Z.of_nat w)%Z
      by nia;
    apply Z.pow_lt_mono_r_iff in H; lia.
Qed.

Lemma zero_padded_digits w n : (0 <= n)%Z -> all is_digit (zero_padded w n).
Proof.
  intros Hn. unfold zero_padded, pad_zeros, all.
  apply Forall_app. split.
  - apply Forall_forall. intros c Hc. apply repeat_spec in Hc. now subst.
  - apply (str_of_Z_digits n Hn).
Qed.

Lemma zero_padded_length w n :
  (0 <= n < 10 ^ Z.of_nat w)%Z -> 0 < w -> length (zero_padded w n) = w.
Proof.
  intros Hn Hw. unfold zero_padded, pad_zeros.
  rewrite length_app, repeat_length.
  pose proof (str_of_Z_length n w Hn Hw). lia.
Qed.

Lemma zero_padded_2 n :
  (0 <= n < 100)%Z ->
  exists a b, zero_padded 2 n = [a; b]
              /\ is_digit a = true /\ is_digit b = true.
Proof.
  intros Hn.
  pose proof (zero_padded_digits 2 n (proj1 Hn)) as Hd.
  pose proof (zero_padded_length 2 n) as Hl.
  destruct (zero_padded 2 n) as [|a [|b [|c l]]];
    try (simpl in Hl; lia).
  exists a, b. inversion Hd as [|? ? Ha Hd']. inversion Hd'. auto.
Qed.

Lemma zero_padded_4 n :
  (0 <= n < 10000)%Z ->
  exists a b c d, zero_padded 4 n = [a; b; c; d]
                  /\ is_digit a = true /\ is_digit b = true
                  /\ is_digit c = true /\ is_digit d = true.
Proof.
  intros Hn.
  pose proof (zero_padded_digits 4 n (proj1 Hn)) as Hd.
  pose proof (zero_padded_length 4 n) as Hl.
  destruct (zero_padded 4 n) as [|a [|b [|c [|d [|e l]]]]];
    try (simpl in Hl; lia).
  exists a, b, c, d.
  inversion Hd as [|? ? Ha Hd1]. inversion Hd1 as [|? ? Hb Hd2].
  inversion Hd2 as [|? ? Hc Hd3]. inversion Hd3. auto.
Qed.

End DecimalText.

(** ** The generator *)

Section GeneratorFacts.

Lemma randint_range a b draw :
  (a <= b)%Z -> (a <= randint a b draw <= b)%Z.
Proof.
  intros H. unfold randint.
  pose proof (Z.mod_pos_bound draw (b - a + 1)). lia.
Qed.

Lemma choice_In {A : Type} (seq : list A) (draw : nat) :
  seq <> [] -> exists x, choice seq draw = Ok x /\ In x seq.
Proof.
  intros Hne. unfold choice.
  assert (Hlt : draw mod length seq < length seq).
  { apply Nat.mod_upper_bound. destruct seq; [congruence | discriminate]. }
  destruct (nth_error seq (draw mod length seq)) as [x|] eqn:E.
  - exists x. split; [reflexivity|]. now apply nth_error_In in E.
  - apply nth_error_None in E. lia.
Qed.

Lemma choose_log_level_cases draw :
  choose_log_level draw = Ok (level_of (draw mod 100)).
Proof.
  unfold choose_log_level, choices_first, level_of.
  change (map fst LEVEL_WEIGHTS)
    with [lit "INFO"; lit "WARN"; lit "ERROR"; lit "DEBUG"].
  change (map snd LEVEL_WEIGHTS) with [70; 20; 8; 2].
  change (list_sum [70; 20; 8; 2]) with 100.
  pose proof (Nat.mod_upper_bound draw 100) as Hu.
  set (u := draw mod 100) in *.
  cbn [length Nat.eqb negb combine pick].
  repeat match goal with
         | |- context [?a <? ?b] => destruct (Nat.ltb_spec a b)
         end; try reflexivity; lia.
Qed.

Lemma getitem_In {V : Type} (d : list (str * V)) key v :
  getitem d key = Ok v -> In (key, v) d.
Proof.
  induction d as [|[k w] d IH]; simpl; [discriminate|].
  destruct (str_eqb k key) eqn:E.
  - intros H. injection H as ->. apply str_eqb_eq in E. subst. now left.
  - intros H. right. now apply IH.
Qed.

Lemma getitem_known {V : Type} (d : list (str * V)) key :
  existsb (str_eqb key) (map fst d) = true -> exists v, getitem d key = Ok v.
Proof.
  induction d as [|[k w] d IH]; simpl; [discriminate|].
  destruct (str_eqb k key) eqn:E.
  - intros _. now exists w.
  - intros H. apply orb_true_iff in H as [H|H]; [|now apply IH].
    apply str_eqb_eq in H. subst. rewrite str_eqb_refl in E. discriminate.
Qed.

(** A template whose fields are keys is formatted. *)
Lemma format_from_known values s :
  forall field,
    fields_known (map fst values) field s = true ->
    exists r, format_from values field s = Ok r.
Proof.
  induction s as [|c s IH]; intros field H.
  - destruct field; [discriminate|]. now exists [].
  - cbn [fields_known] in H. cbn [format_from].
    destruct field as [name|].
    + destruct (is_char "}"%char c).
      * apply andb_true_iff in H as [Hk H].
        destruct (getitem_known values name Hk) as [v ->].
        destruct (IH None H) as [r ->]. cbn [bind]. eauto.
      * now apply IH.
    + destruct (is_char "{"%char c); [now apply IH|].
      apply andb_true_iff in H as [Hc H].
      apply negb_true_iff in Hc. rewrite Hc.
      destruct (IH None H) as [r ->]. cbn [bind]. eauto.
Qed.

Lemma ends_solid_app a b : ends_solid b -> ends_solid (a ++ b).
Proof.
  intros (s' & c & -> & Hc). exists (a ++ s'), c.
  now rewrite app_assoc.
Qed.

Lemma ends_solid_tail c s : s <> [] -> ends_solid (c :: s) -> ends_solid s.
Proof.
  intros Hne (s' & x & E & Hx).
  destruct s' as [|y s']; simpl in E; injection E as -> E.
  - congruence.
  - now exists s', x.
Qed.

Lemma ends_solid_b_spec s : ends_solid_b s = true -> ends_solid s.
Proof.
  unfold ends_solid_b. intros H.
  destruct (rev s) as [|c r] eqn:E; [discriminate|].
  exists (rev r), c. split.
  - rewrite <- (rev_involutive s), E. reflexivity.
  - now apply negb_true_iff.
Qed.

Lemma solid_b_spec s : solid_b s = true -> solid s.
Proof.
  unfold solid_b. intros H. apply andb_true_iff in H as [Hd He].
  split; [|now apply ends_solid_b_spec].
  apply Forall_forall. now apply forallb_forall.
Qed.

Lemma solid_app a b : all inline a -> solid b -> solid (a ++ b).
Proof.
  intros Ha [Hb He]. split; [now apply Forall_app | now apply ends_solid_app].
Qed.

Lemma digit_is_inline c : is_digit c = true -> inline c = true.
Proof.
  unfold is_digit, inline, is_char, newline, carriage_return. intros H.
  apply andb_true_iff in H as [H1 H2]. apply Nat.leb_le in H1.
  apply andb_true_iff; split; apply negb_true_iff, Ascii.eqb_neq;
    intros <-; vm_compute in H1; lia.
Qed.

Lemma inline_is_dot c : inline c = true -> is_dot c = true.
Proof. unfold inline, is_dot. intros H. now apply andb_true_iff in H. Qed.

Lemma inline_dots s : all inline s -> all is_dot s.
Proof. apply Forall_impl. intros c. apply inline_is_dot. Qed.

Lemma inline_plain s : all inline s -> plain_line s.
Proof.
  intros H. split; intros Hin;
    apply (proj1 (Forall_forall _ _) H) in Hin; discriminate.
Qed.

Lemma digit_not_space c : is_digit c = true -> is_space c = false.
Proof.
  unfold is_digit, is_space. intros H.
  apply andb_true_iff in H as [H1 H2].
  apply Nat.leb_le in H1, H2.
  repeat (apply orb_false_iff; split);
    try apply andb_false_iff;
    try (apply Nat.eqb_neq; lia);
    try (right; apply Nat.leb_gt; lia).
Qed.

Lemma digits_solid s : some_of is_digit s -> solid s.
Proof.
  intros [Hne Hd]. split.
  - eapply Forall_impl; [|exact Hd]. intros c. apply digit_is_inline.
  - destruct (exists_last Hne) as (s' & c & ->). exists s', c.
    split; [reflexivity|].
    apply Forall_app in Hd as [_ Hd]. inversion Hd. now apply digit_not_space.
Qed.

Lemma digits_inline s : all is_digit s -> all inline s.
Proof. apply Forall_impl. intros c. apply digit_is_inline. Qed.

Lemma lit_inline s : forallb inline s = true -> all inline s.
Proof. intros H. apply Forall_forall. now apply forallb_forall. Qed.

(** What [format] returns fits on one line and ends with something
    visible, when the template and the values do. *)
Lemma format_from_solid values :
  Forall (fun kv => solid (str_of_value (snd kv))) values ->
  forall s field r,
    format_from values field s = Ok r -> solid s -> solid r.
Proof.
  intros Hv. induction s as [|c s IH]; intros field r H [Hd He].
  - destruct He as (s' & x & E & _). now destruct s'.
  - inversion Hd as [|? ? Hc Hd']; subst. cbn [format_from] in H.
    assert (IH' : s <> [] -> forall field r,
                    format_from values field s = Ok r -> solid r).
    { intros Hne f r' H'. apply (IH f r' H'). split; [assumption|].
      now apply (ends_solid_tail c). }
    destruct field as [name|].
    + destruct (is_char "}"%char c).
      * destruct (getitem values name) as [v|] eqn:Ev; [|discriminate].
        apply getitem_In in Ev.
        pose proof (proj1 (Forall_forall _ _) Hv _ Ev) as Hs. simpl in Hs.
        cbn [bind] in H.
        destruct (format_from values None s) as [r'|] eqn:Er; [|discriminate].
        cbn [bind] in H. injection H as <-.
        destruct s as [|c' s].
        -- simpl in Er. injection Er as <-. now rewrite app_nil_r.
        -- apply solid_app; [apply Hs|]. now apply (IH' ltac:(discriminate) None).
      * destruct s as [|c' s]; [discriminate|].
        now apply (IH' ltac:(discriminate) _ _ H).
    + destruct (is_char "{"%char c).
      * destruct s as [|c' s]; [discriminate|].
        now apply (IH' ltac:(discriminate) _ _ H).
      * destruct (is_char "}"%char c); [discriminate|].
        destruct (format_from values None s) as [r'|] eqn:Er; [|discriminate].
        cbn [bind] in H. injection H as <-.
        destruct s as [|c' s].
        -- simpl in Er. injection Er as <-. split; [now constructor|].
           exact He.
        -- apply (solid_app [c]); [now constructor|].
           now apply (IH' ltac:(discriminate) None).
Qed.

(** It starts with the first character of the template, when that is
    one of its own. *)
Lemma format_head values t r :
  format t values = Ok r -> starts_literal t = true -> stops is_space r.
Proof.
  unfold format, starts_literal. destruct t as [|c t]; [discriminate|].
  intros H Hc. apply andb_true_iff in Hc as [Hs Hb].
  apply negb_true_iff in Hs, Hb. cbn [format_from] in H. rewrite Hb in H.
  destruct (is_char "}"%char c); [discriminate|].
  destruct (format_from values None t); [|discriminate].
  cbn [bind] in H. injection H as <-. exact Hs.
Qed.

(** [generate_values] returns, with the same keys whatever is drawn,
    and with values that fit on a line. *)
Lemma generate_values_spec d :
  exists values,
    generate_values d = Ok values
    /\ map fst values = value_keys
    /\ Forall (fun kv => solid (str_of_value (snd kv))) values
    /\ Forall (fun kv => length (str_of_value (snd kv)) <= 40) values.
Proof.
  unfold generate_values.
  destruct (choice_In [lit "/api/users"; lit "/api/orders";
                       lit "/api/products"] (d_endpoint d))
    as (endpoint & -> & He); [discriminate|].
  destruct (choice_In [lit "Invalid input"; lit "Connection refused";
                       lit "Timeout"] (d_error d))
    as (error & -> & Her); [discriminate|].
  destruct (choice_In [lit "orders"; lit "emails"; lit "notifications"]
                      (d_queue d))
    as (queue & -> & Hq); [discriminate|].
  cbn [bind]. eexists. split; [reflexivity|]. split; [reflexivity|].
  assert (Hint : forall a b x, (0 <= a <= b)%Z ->
                   some_of is_digit (str_of_Z (randint a b x))).
  { intros a b x H. apply str_of_Z_digits.
    pose proof (randint_range a b x). lia. }
  assert (Hlit : forall s l, In s l -> forallb solid_b l = true -> solid s).
  { intros s l Hin Hl. apply solid_b_spec.
    now apply (proj1 (forallb_forall _ _) Hl). }
  assert (Hlen : forall a b x, (0 <= a <= b)%Z -> (b < 10 ^ 6)%Z ->
                   length (str_of_Z (randint a b x)) <= 6).
  { intros a b x H Hb. apply str_of_Z_length; [|lia].
    pose proof (randint_range a b x). simpl Z.of_nat. lia. }
  assert (Hshort : forall (s : str) l,
             In s l -> forallb (fun x => length x <=? 40) l = true ->
             length s <= 40).
  { intros s l Hin Hl. apply Nat.leb_le.
    now apply (proj1 (forallb_forall _ _) Hl). }
  assert (Hcents : length (zero_padded 2 (randint 0 99 (d_cents d))) = 2).
  { apply zero_padded_length; [|lia].
    pose proof (randint_range 0 99 (d_cents d)). simpl Z.of_nat. lia. }
  split; repeat apply Forall_cons; try apply Forall_nil;
    cbn [snd str_of_value];
    try (now apply (Hshort _ _ He)); try (now apply (Hshort _ _ Her));
    try (now apply (Hshort _ _ Hq));
    try (rewrite ?length_app, ?Hcents;
         repeat match goal with
                | |- context [length (str_of_Z (randint ?a ?b ?x))] =>
                    let H := fresh "Hn" in
                    pose proof (Hlen a b x ltac:(lia) ltac:(lia)) as H;
                    set (str_of_Z (randint a b x)) in *
                end;
         cbn [lit list_ascii_of_string length]; lia).
  - apply digits_solid, Hint. lia.
  - apply digits_solid, Hint. lia.
  - apply digits_solid, Hint. lia.
  - now apply solid_b_spec.
  - apply digits_solid, Hint. lia.
  - apply digits_solid, Hint. lia.
  - now apply (Hlit _ _ He).
  - apply digits_solid, Hint. lia.
  - apply digits_solid, Hint. lia.
  - now apply (Hlit _ _ Her).
  - apply solid_app; [now apply lit_inline|]. apply digits_solid, Hint. lia.
  - apply digits_solid, Hint. lia.
  - now apply (Hlit _ _ Hq).
  - apply digits_solid, Hint. lia.
  - apply solid_app; [apply digits_inline, Hint; lia|].
    apply solid_app; [now apply lit_inline|].
    apply digits_solid. split.
    + unfold zero_padded, pad_zeros. intros E.
      apply app_eq_nil in E as [_ E].
      now apply (proj1 (str_of_Z_digits _
                          (proj1 (randint_range 0 99 (d_cents d)
                                    ltac:(lia))))).
    + apply zero_padded_digits. apply randint_range. lia.
  - apply solid_app; [now apply lit_inline|]. apply digits_solid, Hint. lia.
  - apply digits_solid, Hint. lia.
  - apply solid_app; [now apply lit_inline|].
    apply solid_app; [apply digits_inline, Hint; lia|].
    apply solid_app; [now apply lit_inline|]. apply digits_solid, Hint. lia.
Qed.

(** What [format] returns is no longer than the template with every
    character replaced by a value. *)
Lemma format_from_length values bound :
  Forall (fun kv => length (str_of_value (snd kv)) <= bound) values ->
  1 <= bound ->
  forall s field r,
    format_from values field s = Ok r -> length r <= length s * bound.
Proof.
  intros Hv Hb. induction s as [|c s IH]; intros field r H.
  - destruct field; [discriminate|]. injection H as <-. simpl. lia.
  - cbn [format_from] in H. cbn [length].
    destruct field as [name|].
    + destruct (is_char "}"%char c).
      * destruct (getitem values name) as [v|] eqn:Ev; [|discriminate].
        apply getitem_In in Ev.
        pose proof (proj1 (Forall_forall _ _) Hv _ Ev) as Hs. simpl in Hs.
        cbn [bind] in H.
        destruct (format_from values None s) as [r'|] eqn:Er; [|discriminate].
        cbn [bind] in H. injection H as <-.
        rewrite length_app. specialize (IH None r' Er). lia.
      * specialize (IH _ _ H). lia.
    + destruct (is_char "{"%char c).
      * specialize (IH _ _ H). lia.
      * destruct (is_char "}"%char c); [discriminate|].
        destruct (format_from values None s) as [r'|] eqn:Er; [|discriminate].
        cbn [bind] in H. injection H as <-.
        specialize (IH None r' Er). simpl. lia.
Qed.

(** The templates of every component: none for [DEBUG], and for the
    other levels a list that is not empty, of templates that
    [generate_values] has the fields of. *)
Lemma MESSAGES_spec component :
  In component COMPONENTS ->
  exists by_level,
    getitem MESSAGES component = Ok by_level
    /\ getitem by_level (lit "DEBUG") = Raise (KeyError (lit "DEBUG"))
    /\ forall level,
         In level templated_levels ->
         exists templates,
           getitem by_level level = Ok templates
           /\ templates <> []
           /\ forallb template_ok templates = true.
Proof.
  intros Hc.
  repeat (destruct Hc as [<-|Hc]); try contradiction;
    (eexists; split; [reflexivity|]; split; [reflexivity|];
     intros level Hl;
     repeat (destruct Hl as [<-|Hl]); try contradiction;
     (eexists; split; [reflexivity|]; split;
      [discriminate | vm_compute; reflexivity])).
Qed.

End GeneratorFacts.

Section EntryFacts.

Lemma level_of_cases u :
  (98 <= u /\ level_of u = lit "DEBUG")
  \/ (u < 98 /\ In (level_of u) templated_levels).
Proof.
  unfold level_of, templated_levels.
  repeat match goal with
         | |- context [?a <? ?b] => destruct (Nat.ltb_spec a b)
         end; try (left; split; [lia | reflexivity]);
    right; (split; [lia|]); simpl; auto.
Qed.

(** The two ways [generate_log_entry] ends. *)
Lemma generate_log_entry_cases now d :
  (98 <= d_level d mod 100
   /\ generate_log_entry now d = Raise (KeyError (lit "DEBUG")))
  \/ (d_level d mod 100 < 98
      /\ exists component message,
           choice COMPONENTS (d_component d) = Ok component
           /\ In component COMPONENTS
           /\ In (level_of (d_level d mod 100)) templated_levels
           /\ solid message /\ stops is_space message
           /\ length message <= 4000
           /\ generate_log_entry now d
              = Ok (generate_timestamp now ++ lit " "
                    ++ ljust 5 (level_of (d_level d mod 100)) ++ lit " ["
                    ++ ljust 10 component ++ lit "] " ++ message)).
Proof.
  unfold generate_log_entry. cbv zeta.
  rewrite choose_log_level_cases. cbn [bind].
  destruct (choice_In COMPONENTS (d_component d))
    as (component & Ec & Hc); [discriminate|].
  rewrite Ec. cbn [bind].
  destruct (MESSAGES_spec component Hc) as (by_level & -> & Hdebug & Hlev).
  cbn [bind].
  destruct (level_of_cases (d_level d mod 100)) as [[Hu El]|[Hu Hl]].
  - left. split; [exact Hu|]. rewrite El, Hdebug. reflexivity.
  - right. split; [exact Hu|].
    destruct (Hlev _ Hl) as (templates & -> & Hne & Hok). cbn [bind].
    destruct (choice_In templates (d_template d) Hne) as (t & -> & Ht).
    cbn [bind].
    pose proof (proj1 (forallb_forall _ _) Hok t Ht) as Hgood.
    unfold template_ok in Hgood.
    apply andb_true_iff in Hgood as [Hgood Hlen].
    apply andb_true_iff in Hgood as [Hgood Hstart].
    apply andb_true_iff in Hgood as [Hgood Hsolid].
    apply andb_true_iff in Hgood as [_ Hknown].
    apply Nat.leb_le in Hlen.
    destruct (generate_values_spec d) as (values & Ev & Hk & Hs & Hshort).
    rewrite Ev. cbn [bind]. rewrite <- Hk in Hknown.
    destruct (format_from_known values t None Hknown) as [message Em].
    unfold format. rewrite Em. cbn [bind].
    exists component, message.
    split; [reflexivity|]. split; [exact Hc|]. split; [exact Hl|].
    split; [|split; [|split; [|reflexivity]]].
    + apply (format_from_solid values Hs t None message Em).
      now apply solid_b_spec.
    + now apply (format_head values t).
    + pose proof (format_from_length values 40 Hshort ltac:(lia)
                    t None message Em).
      nia.
Qed.

End EntryFacts.

(** X22.  [generate_log_entry] returns a line unless the level drawn is
    [DEBUG], the two last of the hundred shares of the weights; then it
    raises [KeyError] for the key ['DEBUG'], whatever else is drawn. *)
Theorem generate_log_entry_outcome (now : DateTime) (d : Draws) :
  if d_level d mod 100 <? 98
  then exists line, generate_log_entry now d = Ok line
  else generate_log_entry now d = Raise (KeyError (lit "DEBUG")).
Proof.
  destruct (generate_log_entry_cases now d)
    as [[Hu E]|(Hu & component & message & _ & _ & _ & _ & _ & _ & E)].
  - destruct (Nat.ltb_spec (d_level d mod 100) 98); [lia | exact E].
  - destruct (Nat.ltb_spec (d_level d mod 100) 98); [|lia].
    eexists. exact E.
Qed.

(** ** The lines the generator writes, read by the analyzer *)

Section RoundTrip.

(** A text made of the parts of the grammar, with a message that
    starts with something visible and fits on its line, is matched
    part by part. *)
Lemma LOG_PATTERN_match_built ts ws1 lvl ws2 comp ws3 msg :
  is_timestamp ts -> some_of is_space ws1 -> some_of is_word lvl ->
  some_of is_space ws2 -> some_of not_close comp -> some_of is_space ws3 ->
  stops is_space msg -> all is_dot msg ->
  LOG_PATTERN_match
    (ts ++ ws1 ++ lvl ++ ws2 ++ "["%char :: comp ++ "]"%char :: ws3 ++ msg)
  = Some (ts, lvl, comp, msg).
Proof.
  intros Hts H1 Hl H2 Hc H3 Hm Hd.
  unfold LOG_PATTERN_match.
  rewrite (match_fixed_complete _ _ _ Hts).
  destruct (some_of_head _ _ Hl) as (l0 & lvl' & El & Hl0).
  destruct (some_of_head _ _ H2) as (w2 & ws2' & E2 & Hw2).
  rewrite (span_intro is_space ws1 _ (proj2 H1)).
  2:{ rewrite El. simpl. now apply word_not_space. }
  destruct ws1 as [|w1 ws1]; [now destruct H1|].
  rewrite (span_intro is_word lvl _ (proj2 Hl)).
  2:{ rewrite E2. simpl. now apply space_not_word. }
  rewrite El at 1.
  rewrite (span_intro is_space ws2 _ (proj2 H2)) by reflexivity.
  rewrite E2 at 1. simpl (is_char _ _).
  rewrite (span_intro not_close comp _ (proj2 Hc)) by reflexivity.
  destruct comp as [|c0 comp]; [now destruct Hc|].
  rewrite (span_intro is_space ws3 msg (proj2 H3) Hm).
  destruct ws3 as [|w3 ws3]; [now destruct H3|].
  rewrite <- (app_nil_r msg) at 1.
  rewrite (span_intro is_dot msg [] Hd I).
  subst lvl. reflexivity.
Qed.

Lemma strip_with_newline s :
  stops is_space s -> ends_solid s -> strip (with_newline s) = s.
Proof.
  intros Hs (s' & c & -> & Hc). unfold strip, lstrip, with_newline.
  rewrite drop_while_fixed.
  2:{ destruct s'; simpl in *; assumption. }
  unfold rstrip. rewrite rev_app_distr. simpl rev at 2.
  cbn [app drop_while]. change (is_space newline) with true. cbv iota.
  rewrite rev_app_distr. cbn [rev app drop_while]. rewrite Hc.
  change (c :: rev s') with (rev [c] ++ rev s').
  now rewrite <- rev_app_distr, rev_involutive.
Qed.

Lemma generate_timestamp_shape now :
  valid_datetime now -> is_timestamp (generate_timestamp now).
Proof.
  intros (Hy & Hm & Hd & Hh & Hmi & Hs).
  unfold generate_timestamp, strftime_timestamp, is_timestamp.
  destruct (zero_padded_4 (year now)) as (y1 & y2 & y3 & y4 & -> & ?);
    [lia|].
  destruct (zero_padded_2 (month now)) as (m1 & m2 & -> & ?); [lia|].
  destruct (zero_padded_2 (day now)) as (d1 & d2 & -> & ?); [lia|].
  destruct (zero_padded_2 (hour now)) as (h1 & h2 & -> & ?); [lia|].
  destruct (zero_padded_2 (minute now)) as (i1 & i2 & -> & ?); [lia|].
  destruct (zero_padded_2 (second now)) as (s1 & s2 & -> & ?); [lia|].
  unfold timestamp_shape. cbn [lit list_ascii_of_string app].
  repeat constructor; tauto.
Qed.

Lemma generate_timestamp_inline now :
  valid_datetime now -> all inline (generate_timestamp now).
Proof.
  intros (Hy & Hm & Hd & Hh & Hmi & Hs).
  unfold generate_timestamp, strftime_timestamp, all.
  repeat match goal with
         | |- Forall _ (_ ++ _) => apply Forall_app; split
         end;
    try (apply digits_inline, zero_padded_digits; lia);
    now apply lit_inline.
Qed.

Lemma component_padded component :
  In component COMPONENTS ->
  some_of not_close (ljust 10 component)
  /\ all inline (ljust 10 component)
  /\ length (ljust 10 component) = 10.
Proof.
  intros Hc.
  repeat (destruct Hc as [<-|Hc]); try contradiction;
    (split; [split; [discriminate | now apply Forall_forall, forallb_forall]
            | split; [now apply lit_inline | reflexivity]]).
Qed.

Lemma level_padded level :
  In level templated_levels ->
  some_of is_word level
  /\ all inline (ljust 5 level)
  /\ exists ws, ljust 5 level = level ++ ws /\ all is_space ws.
Proof.
  intros Hl.
  repeat (destruct Hl as [<-|Hl]); try contradiction;
    (split; [split; [discriminate | now apply Forall_forall, forallb_forall]
            | split; [now apply lit_inline |]]);
    unfold ljust; eexists; (split; [reflexivity|]);
    apply Forall_forall; intros c Hc; apply repeat_spec in Hc; now subst.
Qed.

(** The record that the analyzer makes of a generated line. *)
Lemma generated_line_record now d line :
  valid_datetime now ->
  generate_log_entry now d = Ok line ->
  exists component message,
    choice COMPONENTS (d_component d) = Ok component
    /\ In component COMPONENTS
    /\ In (level_of (d_level d mod 100)) templated_levels
    /\ line = generate_timestamp now ++ lit " "
              ++ ljust 5 (level_of (d_level d mod 100)) ++ lit " ["
              ++ ljust 10 component ++ lit "] " ++ message
    /\ plain_line line
    /\ parse_log_line (with_newline line)
       = Ok (Some (Entry.make (generate_timestamp now)
                     (level_of (d_level d mod 100)) (ljust 10 component)
                     message
                     (option_map int_of_digits
                        (search TIME_PATTERN_at message))
                     (option_map int_of_digits
                        (search USER_ID_PATTERN_at message))
                     (search ERROR_CODE_PATTERN_at message))).
Proof.
  intros Hnow H.
  destruct (generate_log_entry_cases now d)
    as [[_ E]|(Hu & component & message & Ec & Hc & Hl & Hs & Hh & Hlen
               & E)];
    [congruence|].
  assert (Hline : line = generate_timestamp now ++ lit " "
                         ++ ljust 5 (level_of (d_level d mod 100))
                         ++ lit " [" ++ ljust 10 component ++ lit "] "
                         ++ message) by congruence.
  clear H E. subst line.
  exists component, message.
  split; [exact Ec|]. split; [exact Hc|]. split; [exact Hl|].
  split; [reflexivity|].
  set (level := level_of (d_level d mod 100)) in *.
  destruct (level_padded level Hl) as (Hw & Hli & ws & Ews & Hws).
  destruct (component_padded component Hc) as (Hnc & Hci & _).
  pose proof (generate_timestamp_shape now Hnow) as Hts.
  pose proof (generate_timestamp_inline now Hnow) as Hti.
  destruct Hs as [Hmi Hme].
  split.
  { apply inline_plain. unfold all.
    rewrite !Forall_app.
    repeat split; try assumption; now apply lit_inline. }
  set (ts := generate_timestamp now) in *.
  assert (El : ts ++ lit " " ++ ljust 5 level ++ lit " ["
               ++ ljust 10 component ++ lit "] " ++ message
               = ts ++ [" "%char] ++ level ++ (ws ++ [" "%char])
                 ++ "["%char :: ljust 10 component
                 ++ "]"%char :: [" "%char] ++ message).
  { rewrite Ews. cbn [lit list_ascii_of_string].
    rewrite <- !app_assoc. reflexivity. }
  rewrite parse_log_line_cases, strip_with_newline.
  - rewrite El, LOG_PATTERN_match_built; try assumption;
      try (split; [discriminate | repeat constructor]).
    + destruct (short_numbers_within message [] []) as [-> ->];
        [|reflexivity].
      rewrite app_nil_r. cbn [app]. apply short_numbers_short.
      unfold int_max_str_digits. lia.
    + split; [now destruct ws|]. apply Forall_app. split; [assumption|].
      repeat constructor.
    + now apply inline_dots.
  - inversion Hts as [|p c shape ts' Hp Hrest Eshape Ets].
    simpl. now apply digit_not_space.
  - repeat apply ends_solid_app. exact Hme.
Qed.

End RoundTrip.

(** X23.  The analyzer reads back what the generator writes: a line
    that [generate_log_entry] returns for a date of a year with four
    digits, written with its line feed, is parsed by [parse_log_line]
    into a record with the time stamp that was formatted and the level
    that was chosen; its component is the component that was chosen,
    padded with spaces to ten characters; and the line is these parts
    and the message, laid out as the generator lays them out. *)
Theorem generated_line_parses (now : DateTime) (d : Draws) (line : str) :
  valid_datetime now ->
  generate_log_entry now d = Ok line ->
  exists e component,
    parse_log_line (with_newline line) = Ok (Some e)
    /\ Entry.timestamp e = generate_timestamp now
    /\ choose_log_level (d_level d) = Ok (Entry.level e)
    /\ choice COMPONENTS (d_component d) = Ok component
    /\ Entry.component e = ljust 10 component
    /\ line = Entry.timestamp e ++ lit " " ++ ljust 5 (Entry.level e)
              ++ lit " [" ++ Entry.component e ++ lit "] "
              ++ Entry.message e.
Proof.
  intros Hnow H.
  destruct (generated_line_record now d line Hnow H)
    as (component & message & Ec & _ & _ & El & _ & Ep).
  eexists. exists component.
  split; [exact Ep|]. cbn [Entry.timestamp Entry.level Entry.component
                           Entry.message].
  split; [reflexivity|]. split; [apply choose_log_level_cases|].
  split; [exact Ec|]. split; [reflexivity | exact El].
Qed.

Lemma generated_line_parses_witness :
  valid_datetime sample_now
  /\ generate_log_entry sample_now (sample_draws 95) = Ok sample_line
  /\ exists e component,
       parse_log_line (with_newline sample_line) = Ok (Some e)
       /\ Entry.timestamp e = generate_timestamp sample_now
       /\ choose_log_level (d_level (sample_draws 95)) = Ok (Entry.level e)
       /\ choice COMPONENTS (d_component (sample_draws 95)) = Ok component
       /\ Entry.component e = ljust 10 component
       /\ sample_line
          = Entry.timestamp e ++ lit " " ++ ljust 5 (Entry.level e)
            ++ lit " [" ++ Entry.component e ++ lit "] " ++ Entry.message e.
Proof.
  split; [unfold valid_datetime; simpl; lia|].
  split; [vm_compute; reflexivity|].
  apply (generated_line_parses sample_now (sample_draws 95) sample_line).
  - unfold valid_datetime; simpl; lia.
  - vm_compute; reflexivity.
Defined.

Section GeneratedBatches.

Lemma padded_is_not_database component e :
  In component COMPONENTS -> Entry.component e = ljust 10 component ->
  is_db_timeout e = false /\ is_auth_failure e = false.
Proof.
  intros Hc E. unfold is_db_timeout, is_auth_failure. rewrite E.
  repeat (destruct Hc as [<-|Hc]); try contradiction; split; reflexivity.
Qed.

Lemma generated_records inputs lines :
  Forall (fun input => valid_datetime (fst input)) inputs ->
  Forall2 generates inputs lines ->
  Forall (fun l => plain_line l
                   /\ exists e component,
                        parse_log_line (with_newline l) = Ok (Some e)
                        /\ In component COMPONENTS
                        /\ Entry.component e = ljust 10 component) lines.
Proof.
  intros Hv H. induction H as [|[now d] line inputs lines Hg H IH].
  - constructor.
  - inversion Hv as [|? ? Hnow Hv']; subst. constructor; [|now apply IH].
    destruct (generated_line_record now d line Hnow Hg)
      as (component & message & _ & Hc & _ & _ & Hp & Ep).
    split; [exact Hp|]. eexists. exists component.
    split; [exact Ep|]. split; [exact Hc | reflexivity].
Qed.

Lemma parse_all_parsed lines :
  Forall (fun l => exists e, parse_log_line (with_newline l) = Ok (Some e))
         lines ->
  exists entries,
    parse_all (map with_newline lines) = Ok entries
    /\ Forall2 (fun l e => parse_log_line (with_newline l) = Ok (Some e))
               lines entries.
Proof.
  induction 1 as [|l lines [e E] _ (entries & Ea & IH)].
  - exists []. split; [reflexivity | constructor].
  - exists (e :: entries). cbn [map parse_all]. rewrite E, Ea.
    split; [reflexivity | now constructor].
Qed.

Lemma content_of_append fs path data :
  append_file fs path data path = Some (content_of fs path ++ data).
Proof.
  unfold append_file, content_of. rewrite str_eqb_refl.
  now destruct (fs path).
Qed.

Lemma write_lines_content fs path lines :
  content_of (write_lines fs path lines) path
  = content_of fs path ++ file_text lines.
Proof.
  unfold write_lines. revert fs.
  induction lines as [|l lines IH]; intros fs; simpl.
  - now rewrite app_nil_r.
  - rewrite IH. unfold content_of at 1. rewrite content_of_append.
    unfold file_text. simpl. now rewrite app_assoc.
Qed.

Lemma write_lines_exists fs path lines :
  lines <> [] -> write_lines fs path lines path <> None.
Proof.
  unfold write_lines. revert fs.
  induction lines as [|l lines IH]; intros fs Hne; [congruence|]. simpl.
  destruct lines as [|l' lines].
  - simpl. rewrite content_of_append. discriminate.
  - apply IH. discriminate.
Qed.

Lemma content_of_open fs path :
  content_of (open_append fs path) path = content_of fs path.
Proof.
  unfold open_append, content_of at 1.
  now rewrite content_of_append, app_nil_r.
Qed.

(** Reading from where the file ended gives the lines appended
    since. *)
Lemma tail_file_written fs path lines :
  Forall plain_line lines ->
  tail_file (write_lines fs path lines) path (length (content_of fs path))
  = (map with_newline lines,
     length (content_of fs path) + length (file_text lines)).
Proof.
  intros Hp. unfold tail_file.
  pose proof (write_lines_content fs path lines) as Hc.
  destruct (write_lines fs path lines path) as [content|] eqn:E.
  - unfold content_of at 1 in Hc. rewrite E in Hc. subst content.
    rewrite skipn_app, skipn_all, Nat.sub_diag. simpl skipn. cbn [app].
    rewrite readlines_file_text by exact Hp.
    rewrite length_app. f_equal. lia.
  - destruct lines as [|l lines].
    + simpl. f_equal. unfold file_text. simpl. lia.
    + exfalso. now apply (write_lines_exists fs path (l :: lines)).
Qed.

Lemma write_entries_lines inputs lines log_file :
  Forall2 generates inputs lines ->
  forall fs n,
    write_entries inputs fs log_file n
    = (write_lines fs log_file lines, n + length inputs, None).
Proof.
  unfold write_lines.
  induction 1 as [|[now d] line inputs lines Hg _ IH]; intros fs n.
  - simpl. now rewrite Nat.add_0_r.
  - cbn [write_entries]. unfold generates in Hg. simpl in Hg. rewrite Hg.
    rewrite IH. cbn [fold_left length]. unfold with_newline at 2.
    f_equal. f_equal. lia.
Qed.

Lemma templated_lines inputs :
  Forall templated inputs -> exists lines, Forall2 generates inputs lines.
Proof.
  induction 1 as [|[now d] inputs Ht _ [lines IH]].
  - exists []. constructor.
  - destruct (generate_log_entry_cases now d)
      as [[Hu _]|(_ & c & m & _ & _ & _ & _ & _ & _ & E)].
    + unfold templated in Ht. cbn [snd] in Ht. lia.
    + eexists (_ :: lines). constructor; [exact E | exact IH].
Qed.

End GeneratedBatches.

(** X24.  The component of a line of the generator is padded to ten
    characters, and the analyzer compares the component it parsed with
    ['Database'] and with ['Auth']: the records parsed from lines that
    [generate_log_entry] returned never make [detect_issues] report a
    database timeout or authentication failures, whatever the levels
    and the messages drawn. *)
Theorem generated_lines_miss_two_heuristics
    (inputs : list (DateTime * Draws)) (lines : list str) :
  Forall (fun input => valid_datetime (fst input)) inputs ->
  Forall2 generates inputs lines ->
  exists entries,
    parse_all (map with_newline lines) = Ok entries
    /\ database_timeout (errors (collect entries)) = []
    /\ authentication_failures (errors (collect entries)) = [].
Proof.
  intros Hv Hg.
  pose proof (generated_records inputs lines Hv Hg) as Hr.
  destruct (parse_all_parsed lines) as (entries & Ea & _).
  { eapply Forall_impl; [|exact Hr].
    intros l (_ & e & _ & Ep & _). now exists e. }
  exists entries. split; [exact Ea|].
  assert (Hnone : forall e, In e entries ->
                    is_db_timeout e = false /\ is_auth_failure e = false).
  { intros e He.
    apply (parse_all_In _ _ e Ea) in He as (l & Hl & Hp).
    apply in_map_iff in Hl as (l0 & <- & Hl0).
    destruct (proj1 (Forall_forall _ _) Hr l0 Hl0)
      as (_ & e' & component & Ep & Hc & Ec).
    assert (e' = e) by congruence. subst e'.
    now apply (padded_is_not_database component). }
  rewrite collect_errors.
  unfold database_timeout, authentication_failures.
  rewrite !filter_none.
  - split; reflexivity.
  - intros e He. apply filter_In in He as [He _]. now apply Hnone.
  - intros e He. apply filter_In in He as [He _]. now apply Hnone.
Qed.

Lemma generated_lines_miss_two_heuristics_witness :
  Forall (fun input => valid_datetime (fst input))
         [(sample_now, sample_draws 95)]
  /\ Forall2 generates [(sample_now, sample_draws 95)] [sample_line]
  /\ exists entries,
       parse_all (map with_newline [sample_line]) = Ok entries
       /\ database_timeout (errors (collect entries)) = []
       /\ authentication_failures (errors (collect entries)) = [].
Proof.
  assert (Hv : Forall (fun input => valid_datetime (fst input))
                      [(sample_now, sample_draws 95)]).
  { repeat constructor; simpl; lia. }
  assert (Hg : Forall2 generates [(sample_now, sample_draws 95)]
                       [sample_line]).
  { repeat constructor. }
  split; [exact Hv|]. split; [exact Hg|].
  exact (generated_lines_miss_two_heuristics _ _ Hv Hg).
Defined.

(** X25.  What the generator writes reaches the analyzer entry by
    entry.  When no draw of a level falls on [DEBUG], [main] appends
    one line with its line feed for every entry to the file of its day
    and counts it; [tail_file], called with the length the file had
    before as its offset, returns exactly these lines, with the new
    length; and [parse_log_line] makes a record of every one of
    them. *)
Theorem written_entries_are_read
    (today : DateTime) (inputs : list (DateTime * Draws)) (fs : FileSystem) :
  Forall (fun input => valid_datetime (fst input)) inputs ->
  Forall templated inputs ->
  let log_file := log_file_name today in
  exists lines,
    Forall2 generates inputs lines
    /\ main today inputs fs
       = (write_lines (open_append fs log_file) log_file lines,
          length inputs, None)
    /\ tail_file (fst (fst (main today inputs fs))) log_file
                 (length (content_of fs log_file))
       = (map with_newline lines,
          length (content_of fs log_file) + length (file_text lines))
    /\ exists entries,
         parse_all (map with_newline lines) = Ok entries
         /\ Forall2 (fun l e =>
                       parse_log_line (with_newline l) = Ok (Some e))
                    lines entries.
Proof.
  intros Hv Ht log_file.
  destruct (templated_lines inputs Ht) as [lines Hg].
  pose proof (generated_records inputs lines Hv Hg) as Hr.
  assert (Em : main today inputs fs
               = (write_lines (open_append fs log_file) log_file lines,
                  length inputs, None)).
  { unfold main. fold log_file.
    now rewrite (write_entries_lines inputs lines log_file Hg). }
  exists lines. split; [exact Hg|]. split; [exact Em|]. split.
  - rewrite Em. cbn [fst].
    rewrite <- (content_of_open fs log_file). apply tail_file_written.
    eapply Forall_impl; [|exact Hr]. now intros l [Hp _].
  - apply parse_all_parsed.
    eapply Forall_impl; [|exact Hr].
    intros l (_ & e & _ & Ep & _). now exists e.
Qed.

Lemma written_entries_are_read_witness :
  let inputs :=
    [(sample_now, sample_draws 95); (sample_next_day, sample_draws 3)] in
  let fs :=
    one_file (log_file_name sample_now) (file_text [line_with_fields]) in
  let log_file := log_file_name sample_now in
  exists lines,
    Forall2 generates inputs lines
    /\ main sample_now inputs fs
       = (write_lines (open_append fs log_file) log_file lines,
          length inputs, None)
    /\ tail_file (fst (fst (main sample_now inputs fs))) log_file
                 (length (content_of fs log_file))
       = (map with_newline lines,
          length (content_of fs log_file) + length (file_text lines))
    /\ exists entries,
         parse_all (map with_newline lines) = Ok entries
         /\ Forall2 (fun l e =>
                       parse_log_line (with_newline l) = Ok (Some e))
                    lines entries.
Proof.
  apply (written_entries_are_read sample_now
           [(sample_now, sample_draws 95); (sample_next_day, sample_draws 3)]
           (one_file (log_file_name sample_now)
                     (file_text [line_with_fields]))).
  - repeat constructor; simpl; lia.
  - repeat constructor; unfold templated; simpl; lia.
Defined.

Section Interrupted.

Lemma write_entries_app pre lines rest log_file :
  Forall2 generates pre lines ->
  forall fs n,
    write_entries (pre ++ rest) fs log_file n
    = write_entries rest (write_lines fs log_file lines) log_file
        (n + length pre).
Proof.
  unfold write_lines.
  induction 1 as [|[now d] line pre lines Hg _ IH]; intros fs n.
  - simpl. now rewrite Nat.add_0_r.
  - cbn [app write_entries]. unfold generates in Hg. simpl in Hg.
    rewrite Hg, IH. cbn [fold_left length]. unfold with_newline at 2.
    f_equal. lia.
Qed.

End Interrupted.

(** X26.  The generator does not outlive a draw of [DEBUG]: no
    component has templates for that level, so the first entry whose
    level is drawn in the share of [DEBUG] raises [KeyError] out of the
    loop of [main], which handles [KeyboardInterrupt] only; the entries
    before it are in the file and counted, nothing of the later ones
    is written. *)
Theorem main_stops_at_debug
    (today : DateTime) (pre post : list (DateTime * Draws))
    (now : DateTime) (d : Draws) (fs : FileSystem) :
  Forall templated pre ->
  98 <= d_level d mod 100 ->
  let log_file := log_file_name today in
  exists lines,
    Forall2 generates pre lines
    /\ main today (pre ++ (now, d) :: post) fs
       = (write_lines (open_append fs log_file) log_file lines,
          length pre, Some (KeyError (lit "DEBUG"))).
Proof.
  intros Ht Hd log_file.
  destruct (templated_lines pre Ht) as [lines Hg].
  exists lines. split; [exact Hg|].
  unfold main. fold log_file.
  rewrite (write_entries_app pre lines _ log_file Hg).
  cbn [write_entries].
  destruct (generate_log_entry_cases now d) as [[_ ->]|[Hu _]]; [|lia].
  reflexivity.
Qed.

Lemma main_stops_at_debug_witness :
  let log_file := log_file_name sample_now in
  exists lines,
    Forall2 generates [(sample_now, sample_draws 95)] lines
    /\ main sample_now
         ([(sample_now, sample_draws 95)]
          ++ (sample_now, sample_draws 99)
             :: [(sample_next_day, sample_draws 3)])
         (fun _ => None)
       = (write_lines (open_append (fun _ => None) log_file) log_file lines,
          length [(sample_now, sample_draws 95)],
          Some (KeyError (lit "DEBUG"))).
Proof.
  apply (main_stops_at_debug sample_now
           [(sample_now, sample_draws 95)] [(sample_next_day, sample_draws 3)]
           sample_now (sample_draws 99) (fun _ => None)).
  - repeat constructor; unfold templated; simpl; lia.
  - simpl. lia.
Defined.

(** ** Numbers written and read *)

Section WrittenNumbers.

Lemma search_skips (at_start : str -> option str) pre s :
  (forall c rest, In c pre -> at_start (c :: rest) = None) ->
  search at_start (pre ++ s) = search at_start s.
Proof.
  induction pre as [|c pre IH]; intros H; [reflexivity|].
  cbn [app search]. rewrite (H c (pre ++ s)) by now left.
  apply IH. intros c' rest Hc. apply H. now right.
Qed.

Lemma search_here {A : Type} (at_start : str -> option A) s r :
  at_start s = Some r -> search at_start s = Some r.
Proof. intros H. destruct s; simpl; now rewrite H. Qed.

(** The first number followed by [ms], when no digit comes before. *)
Lemma search_time_decimal pre n post :
  all (fun c => negb (is_digit c)) pre -> (0 <= n)%Z ->
  search TIME_PATTERN_at (pre ++ str_of_Z n ++ lit "ms" ++ post)
  = Some (str_of_Z n).
Proof.
  intros Hpre Hn. rewrite search_skips.
  - apply search_here. unfold TIME_PATTERN_at.
    destruct (str_of_Z_digits n Hn) as [Hne Hd].
    rewrite (span_intro is_digit (str_of_Z n) _ Hd) by reflexivity.
    destruct (str_of_Z n) as [|c ds]; [congruence|].
    replace (startswith (lit "ms") (lit "ms" ++ post)) with true;
      [reflexivity|].
    symmetry. apply startswith_spec. now exists post.
  - intros c rest Hc. unfold TIME_PATTERN_at. cbn [span].
    apply (proj1 (Forall_forall _ _) Hpre) in Hc.
    apply negb_true_iff in Hc. now rewrite Hc.
Qed.

Lemma fold_step_acc s acc :
  fold_left step s acc
  = (acc * 10 ^ Z.of_nat (length s) + fold_left step s 0)%Z.
Proof.
  revert acc. induction s as [|c s IH]; intros acc.
  - simpl. lia.
  - cbn [fold_left length]. rewrite IH, (IH (step 0 c)).
    rewrite Nat2Z.inj_succ, Z.pow_succ_r by lia. unfold step. lia.
Qed.

Lemma int_of_digits_app a b :
  int_of_digits (a ++ b)
  = (int_of_digits a * 10 ^ Z.of_nat (length b) + int_of_digits b)%Z.
Proof.
  unfold int_of_digits.
  change (fun acc c => (10 * acc + digit_value c)%Z) with step.
  now rewrite fold_left_app, fold_step_acc.
Qed.

Lemma int_of_digits_cons c s :
  int_of_digits (c :: s)
  = (digit_value c * 10 ^ Z.of_nat (length s) + int_of_digits s)%Z.
Proof.
  change (c :: s) with ([c] ++ s). rewrite int_of_digits_app.
  unfold int_of_digits at 1. simpl fold_left. lia.
Qed.

Lemma int_of_zero_padded w n :
  (0 <= n)%Z -> int_of_digits (zero_padded w n) = n.
Proof.
  intros Hn. unfold zero_padded, pad_zeros.
  rewrite int_of_digits_app, int_of_str_of_Z by exact Hn.
  replace (int_of_digits (repeat zero_char (w - length (str_of_Z n))))
    with 0%Z; [lia|].
  induction (w - length (str_of_Z n)) as [|k IH]; [reflexivity|].
  cbn [repeat]. rewrite int_of_digits_cons, <- IH. reflexivity.
Qed.

Lemma digit_code c :
  is_digit c = true -> Z.of_nat (code c) = (digit_value c + 48)%Z.
Proof.
  unfold is_digit, digit_value. intros H.
  apply andb_true_iff in H as [H _]. apply Nat.leb_le in H. lia.
Qed.

(** Numerals of the same width are ordered as their numbers. *)
Lemma str_ltb_digits s :
  forall t,
    all is_digit s -> all is_digit t -> length s = length t ->
    str_ltb s t = (int_of_digits s <? int_of_digits t)%Z.
Proof.
  induction s as [|x s IH]; intros [|y t] Hs Ht Hlen; try discriminate.
  - reflexivity.
  - inversion Hs as [|? ? Hx Hs']; inversion Ht as [|? ? Hy Ht']; subst.
    injection Hlen as Hlen.
    rewrite str_ltb_cons, !int_of_digits_cons, <- Hlen.
    pose proof (int_of_digits_bounds s Hs') as Bs.
    pose proof (int_of_digits_bounds t Ht') as Bt. rewrite <- Hlen in Bt.
    pose proof (digit_code x Hx) as Cx. pose proof (digit_code y Hy) as Cy.
    set (P := (10 ^ Z.of_nat (length s))%Z) in *.
    destruct (Nat.ltb_spec (code x) (code y)) as [Hxy|Hxy].
    + symmetry. apply Z.ltb_lt. nia.
    + destruct (Nat.ltb_spec (code y) (code x)) as [Hyx|Hyx].
      * symmetry. apply Z.ltb_ge. nia.
      * rewrite (IH t Hs' Ht' Hlen).
        assert (digit_value x = digit_value y) as -> by lia.
        destruct (Z.ltb_spec (int_of_digits s) (int_of_digits t));
          symmetry; [apply Z.ltb_lt | apply Z.ltb_ge]; lia.
Qed.

Lemma str_ltb_prefix p a b : str_ltb (p ++ a) (p ++ b) = str_ltb a b.
Proof.
  induction p as [|c p IH]; [reflexivity|].
  cbn [app]. rewrite str_ltb_cons, Nat.ltb_irrefl. exact IH.
Qed.

Lemma str_ltb_suffix s a :
  forall b, length a = length b -> str_ltb (a ++ s) (b ++ s) = str_ltb a b.
Proof.
  induction a as [|x a IH]; intros [|y b] Hlen; try discriminate.
  - simpl. apply str_ltb_irrefl.
  - injection Hlen as Hlen. cbn [app]. rewrite !str_ltb_cons.
    now rewrite IH.
Qed.

Lemma strftime_date_spec t :
  valid_datetime t ->
  all is_digit (strftime_date t)
  /\ length (strftime_date t) = 8
  /\ int_of_digits (strftime_date t) = date_number t.
Proof.
  intros (Hy & Hm & Hd & _). unfold strftime_date, date_number.
  pose proof (zero_padded_length 4 (year t) ltac:(lia) ltac:(lia)) as Ly.
  pose proof (zero_padded_length 2 (month t) ltac:(lia) ltac:(lia)) as Lm.
  pose proof (zero_padded_length 2 (day t) ltac:(lia) ltac:(lia)) as Ld.
  split; [|split].
  - unfold all. rewrite !Forall_app.
    repeat split; apply zero_padded_digits; lia.
  - rewrite !length_app. lia.
  - rewrite !int_of_digits_app, !int_of_zero_padded by lia.
    rewrite length_app, Lm, Ld. simpl Z.of_nat. lia.
Qed.

Lemma base_name_order t1 t2 :
  valid_datetime t1 -> valid_datetime t2 ->
  str_ltb (base_name t1) (base_name t2)
  = (date_number t1 <? date_number t2)%Z.
Proof.
  intros H1 H2. unfold base_name.
  destruct (strftime_date_spec t1 H1) as (D1 & L1 & <-).
  destruct (strftime_date_spec t2 H2) as (D2 & L2 & <-).
  rewrite str_ltb_prefix, str_ltb_suffix by congruence.
  apply str_ltb_digits; congruence.
Qed.

Lemma log_file_name_base t :
  log_file_name t = LOG_DIR ++ lit "/" ++ base_name t.
Proof.
  unfold log_file_name, base_name.
  change (lit "/app_") with (lit "/" ++ lit "app_").
  now rewrite <- !app_assoc.
Qed.

End WrittenNumbers.

(** X27.  [int] reads back the number that was written: when the
    message of a parsed line is a text without digits, the decimal
    numeral of a number that is not negative, [ms] and whatever
    follows, the response time of the record is that number; and the
    record counts as a slow response exactly when the number exceeds
    3000. *)
Theorem response_time_reads_decimal
    (line : str) (r : Entry.t) (pre post : str) (n : Z) :
  parse_log_line line = Ok (Some r) ->
  Entry.message r = pre ++ str_of_Z n ++ lit "ms" ++ post ->
  all (fun c => negb (is_digit c)) pre ->
  (0 <= n)%Z ->
  Entry.response_time r = Some n /\ is_slow r = (3000 <? n)%Z.
Proof.
  intros Hp Hm Hpre Hn.
  apply parse_log_line_record in Hp as (ts & lvl & comp & msg & _ & ->).
  cbn [Entry.message] in Hm. subst msg.
  assert (Ht : option_map int_of_digits
                 (search TIME_PATTERN_at
                    (pre ++ str_of_Z n ++ lit "ms" ++ post)) = Some n).
  { rewrite (search_time_decimal pre n post Hpre Hn). cbn [option_map].
    now rewrite int_of_str_of_Z. }
  unfold is_slow. cbn [Entry.response_time]. rewrite Ht.
  split; [reflexivity|].
  destruct (Z.ltb_spec 3000 n); destruct (Z.eqb_spec n 0); simpl;
    try reflexivity; lia.
Qed.

Lemma response_time_reads_decimal_witness :
  exists r,
    parse_log_line (with_newline sample_line) = Ok (Some r)
    /\ Entry.response_time r = Some 4231%Z
    /\ is_slow r = (3000 <? 4231)%Z.
Proof.
  eexists. split; [vm_compute; reflexivity|].
  apply (response_time_reads_decimal (with_newline sample_line) _
           (lit "Query timeout after ")
           (lit ": SELECT * FROM users WHERE id = 12345") 4231).
  - vm_compute; reflexivity.
  - vm_compute; reflexivity.
  - repeat constructor.
  - lia.
Defined.

(** X28.  The files of the generator sort by their day: for two dates
    of years with four digits, the name [main] gives the file of the
    first is below the name of the file of the second, in the order
    [log_files.sort] uses, exactly when the first day is the earlier
    one. *)
Theorem log_file_names_sort_by_date (t1 t2 : DateTime) :
  valid_datetime t1 -> valid_datetime t2 ->
  str_ltb (log_file_name t1) (log_file_name t2)
  = (date_number t1 <? date_number t2)%Z.
Proof.
  intros H1 H2. rewrite !log_file_name_base, !app_assoc.
  rewrite str_ltb_prefix. now apply base_name_order.
Qed.

Lemma log_file_names_sort_by_date_witness :
  valid_datetime sample_now /\ valid_datetime sample_next_day
  /\ str_ltb (log_file_name sample_now) (log_file_name sample_next_day)
     = (date_number sample_now <? date_number sample_next_day)%Z.
Proof.
  assert (H1 : valid_datetime sample_now)
    by (unfold valid_datetime; simpl; lia).
  assert (H2 : valid_datetime sample_next_day)
    by (unfold valid_datetime; simpl; lia).
  split; [exact H1|]. split; [exact H2|].
  exact (log_file_names_sort_by_date sample_now sample_next_day H1 H2).
Defined.

(** X29.  The analyzer follows the generator: with the directory and the
    prefix of the generator as its configuration, in a directory where
    every name with the prefix and the suffix of a log file is the
    file of some day up to [today], and the file of [today] is there,
    [get_latest_log_file] returns the path that the generator started
    on [today] writes to. *)
Theorem analyzer_follows_generator
    (cfg : Config) (today : DateTime) (names : list str) :
  log_directory cfg = LOG_DIR ->
  log_file_prefix cfg = lit "app_" ->
  valid_datetime today ->
  In (base_name today) names ->
  (forall g, In g names -> is_log_name cfg g = true ->
             exists t, valid_datetime t
                       /\ (date_number t <= date_number today)%Z
                       /\ g = base_name t) ->
  get_latest_log_file cfg (Some names) = Some (log_file_name today).
Proof.
  intros Hdir Hprefix Hv Hin Hall.
  apply get_latest_log_file_Some. exists (base_name today).
  split; [exact Hin|]. split; [|split].
  - apply is_log_name_spec. rewrite Hprefix. unfold base_name. split.
    + eexists. reflexivity.
    + exists (lit "app_" ++ strftime_date today).
      now rewrite <- app_assoc.
  - intros g Hg Hlog.
    destruct (Hall g Hg Hlog) as (t & Ht & Hle & ->).
    rewrite (base_name_order today t Hv Ht). apply Z.ltb_ge. exact Hle.
  - rewrite Hdir, log_file_name_base. reflexivity.
Qed.

Lemma analyzer_follows_generator_witness :
  get_latest_log_file config
    (Some [base_name sample_now; lit "notes.txt"; base_name sample_next_day])
  = Some (log_file_name sample_next_day).
Proof.
  apply (analyzer_follows_generator config sample_next_day).
  - reflexivity.
  - reflexivity.
  - unfold valid_datetime; simpl; lia.
  - right. right. left. reflexivity.
  - intros g [<-|[<-|[<-|[]]]] Hlog.
    + exists sample_now.
      split; [unfold valid_datetime; simpl; lia|].
      split; [vm_compute; discriminate | reflexivity].
    + vm_compute in Hlog. discriminate.
    + exists sample_next_day.
      split; [unfold valid_datetime; simpl; lia|].
      split; [vm_compute; discriminate | reflexivity].
Defined.
